(** * The command-menu module of Apostrophe: composition, validation and
      visibility of the command registry

    Shallow embedding of [modules/@apostrophecms/command-menu/index.js].

    JavaScript values are modelled structurally by [value]; an object is the
    list of its own enumerable string-keyed properties in enumeration order.
    Code that may throw lives in the [result] monad.  The value type leaves
    out function values, symbols, numbers other than integers and strings
    beyond eight-bit characters; [VNum n] is the Number nearest to [n].

    The built-in objects are the ones of the language: no property is added
    to [Object.prototype] or taken from it.  The module reads a property
    under a computed name in one place only, the accumulator of
    [getVisibleModals]; there a name that [Object.prototype] defines would
    read the inherited member, and [__proto__] would run the prototype
    setter.  The embedding does not follow either: [getVisibleModals] ends
    with [Inherited] in place of a view that has such a name in it. *)

From Stdlib Require Import List String Ascii ZArith NArith Bool Lia.
From Stdlib Require Import DecimalString.
From Stdlib Require Import Permutation.
Import ListNotations.
Open Scope string_scope.

(** ** JavaScript values *)

#[local] Set Warnings "-register-all".

Inductive value : Type :=
| VUndef
| VNull
| VBool (b : bool)
| VNum (n : Z)
| VStr (s : string)
| VArr (l : list value)
| VObj (o : list (string * value)).

(** Own properties of an object, in enumeration order. *)
Definition obj : Type := list (string * value).

Inductive rule : Type :=
| CommandType | CommandLabel | CommandAction | CommandActionType
| CommandActionPayload | CommandPermission | CommandPermissionAction
| CommandPermissionType | CommandModal | CommandShortcut
| GroupLabel | GroupFieldsArray | GroupFieldsStrings.

(** What a [throw] carries: a failed [assert] (its message names the rule
    and the entry) or a [TypeError] raised by the language itself.

    [Inherited] is not thrown by the program.  It ends a run of
    [getVisibleModals] that the embedding does not follow, because the view
    has a property named like a member of [Object.prototype]; the program
    itself goes on there, and nothing is stated about what it returns. *)
Inductive error : Type :=
| AssertionError (r : rule) (name : string)
| TypeError
| Inherited.

Inductive result (A : Type) : Type :=
| Ok (a : A)
| Throw (e : error).
Arguments Ok {A} a.
Arguments Throw {A} e.

Definition bind {A B} (m : result A) (k : A -> result B) : result B :=
  match m with
  | Ok a => k a
  | Throw e => Throw e
  end.

Notation "x <- m ;; k" := (bind m (fun x => k))
  (at level 61, m at next level, right associativity).
Notation "' pat <- m ;; k" := (bind m (fun x => match x with pat => k end))
  (at level 61, pat pattern, m at next level, right associativity).

Fixpoint mapM {A B} (f : A -> result B) (l : list A) : result (list B) :=
  match l with
  | [] => Ok []
  | x :: r => y <- f x ;; ys <- mapM f r ;; Ok (y :: ys)
  end.

(** [Array.prototype.reduce] with a callback that may throw. *)
Fixpoint foldM {A B} (f : A -> B -> result A) (l : list B) (a : A) : result A :=
  match l with
  | [] => Ok a
  | x :: r => a' <- f a x ;; foldM f r a'
  end.

(** ** Primitive operations *)

Definition typeof (v : value) : string :=
  match v with
  | VUndef => "undefined"
  | VNull => "object"
  | VBool _ => "boolean"
  | VNum _ => "number"
  | VStr _ => "string"
  | VArr _ => "object"
  | VObj _ => "object"
  end.

Definition truthy (v : value) : bool :=
  match v with
  | VUndef | VNull => false
  | VBool b => b
  | VNum n => negb (Z.eqb n 0)
  | VStr s => negb (String.eqb s "")
  | VArr _ | VObj _ => true
  end.

Definition nullish (v : value) : bool :=
  match v with
  | VUndef | VNull => true
  | _ => false
  end.

Definition string_of_nat (n : nat) : string :=
  NilZero.string_of_uint (Nat.to_uint n).

Definition string_of_Z (n : Z) : string :=
  NilZero.string_of_int (Z.to_int n).

(** *** Numbers as strings *)

(** The Number nearest to the integer [v], for [0 <= v]: 53 significant
    bits, a tie going to the even one. *)
Definition nearest_number (v : Z) : Z :=
  let sh := (Z.log2 v + 1 - 53)%Z in
  if (sh <=? 0)%Z then v
  else
    let q := Z.shiftr v sh in
    let r := (v - Z.shiftl q sh)%Z in
    let half := Z.shiftl 1 (sh - 1) in
    Z.shiftl (if (half <? r)%Z || ((r =? half)%Z && Z.odd q)
              then (q + 1)%Z else q) sh.

(** The digits [s] and the exponent [n] of [Number::toString]: the fewest
    digits [k] such that [s * 10 ^ (n - k)] still reads as the Number [x],
    which has [n] decimal digits; of two such [s], the one nearer to [x],
    and the even one when they are as near. *)
Fixpoint shortest_digits (fuel : nat) (k n x : Z) : Z * Z :=
  match fuel with
  | O => (x, n)
  | S fuel' =>
      let p := (10 ^ (n - k))%Z in
      let lo := (x / p)%Z in
      let hi := (lo + 1)%Z in
      let reads s := (nearest_number (s * p) =? x)%Z in
      let up := if (hi =? 10 ^ k)%Z then ((10 ^ (k - 1))%Z, (n + 1)%Z)
                else (hi, n) in
      match reads lo, reads hi with
      | true, true =>
          if (x - lo * p <? hi * p - x)%Z then (lo, n)
          else if (hi * p - x <? x - lo * p)%Z then up
          else if Z.even lo then (lo, n) else up
      | true, false => (lo, n)
      | false, true => up
      | false, false => shortest_digits fuel' (k + 1)%Z n x
      end
  end.

Fixpoint zeros (n : nat) : string :=
  match n with
  | O => ""
  | S n' => "0" ++ zeros n'
  end.

(** [Number::toString] of an integral Number [0 < x]: the digits followed
    by zeros up to 21 digits, the exponent form from there on. *)
Definition digits_of_number (x : Z) : string :=
  let n := Z.of_nat (String.length (string_of_Z x)) in
  let (s, n') := shortest_digits (Z.to_nat n) 1 n x in
  let ds := string_of_Z s in
  if (n' <=? 21)%Z then ds ++ zeros (Z.to_nat n' - String.length ds)
  else
    match ds with
    | String c EmptyString => ds ++ "e+" ++ string_of_Z (n' - 1)
    | String c rest => String c ("." ++ rest) ++ "e+" ++ string_of_Z (n' - 1)
    | EmptyString => ds
    end.

(** [Number::toString] of [VNum n]. *)
Definition number_to_string (n : Z) : string :=
  let x := nearest_number (Z.abs n) in
  if (2 ^ 1024 <=? x)%Z then (if (n <? 0)%Z then "-Infinity" else "Infinity")
  else if (x =? 0)%Z then "0"
  else (if (n <? 0)%Z then "-" else "") ++ digits_of_number x.
Arguments number_to_string : simpl never.

Fixpoint join (sep : string) (l : list string) : string :=
  match l with
  | [] => ""
  | [s] => s
  | s :: r => s ++ sep ++ join sep r
  end.

(** The string [ToString] makes of a value, where it makes one (see
    [to_string]): an array joins its elements, an object goes through
    [Object.prototype.toString]. *)
Fixpoint toString (v : value) : string :=
  match v with
  | VUndef => "undefined"
  | VNull => "null"
  | VBool true => "true"
  | VBool false => "false"
  | VNum n => number_to_string n
  | VStr s => s
  | VArr l =>
      join "," (map (fun x => if nullish x then "" else toString x) l)
  | VObj _ => "[object Object]"
  end.

(** *** Objects *)

(** A canonical array index: these keys are enumerated first, in ascending
    numeric order; all other keys follow in insertion order. *)
Definition array_index (k : string) : option N :=
  match NilZero.uint_of_string k with
  | Some u =>
      let n := N.of_uint u in
      if String.eqb (NilZero.string_of_uint (N.to_uint n)) k
         && N.ltb n 4294967295
      then Some n else None
  | None => None
  end.

Definition key_before (k k' : string) : bool :=
  match array_index k, array_index k' with
  | Some i, Some j => N.ltb i j
  | Some _, None => true
  | None, _ => false
  end.

(** The operations on property lists do not look at the values, so they
    serve both this model and the one with references further down. *)
Section Properties.

Context {V : Type}.

Fixpoint obj_get (o : list (string * V)) (k : string) : option V :=
  match o with
  | [] => None
  | (k', v) :: r => if String.eqb k' k then Some v else obj_get r k
  end.

Definition obj_has (o : list (string * V)) (k : string) : bool :=
  match obj_get o k with Some _ => true | None => false end.

Fixpoint obj_replace (k : string) (v : V) (o : list (string * V))
  : list (string * V) :=
  match o with
  | [] => []
  | (k', v') :: r =>
      if String.eqb k' k then (k', v) :: r else (k', v') :: obj_replace k v r
  end.

Fixpoint obj_insert (k : string) (v : V) (o : list (string * V))
  : list (string * V) :=
  match o with
  | [] => [(k, v)]
  | (k', v') :: r =>
      if key_before k k' then (k, v) :: (k', v') :: r
      else (k', v') :: obj_insert k v r
  end.

(** Defining the own property [k]: an existing key keeps its place. *)
Definition obj_set (k : string) (v : V) (o : list (string * V))
  : list (string * V) :=
  if obj_has o k then obj_replace k v o else obj_insert k v o.

Definition obj_assign (o es : list (string * V)) : list (string * V) :=
  fold_left (fun acc e => obj_set (fst e) (snd e) acc) es o.

(** The index properties of an array. *)
Fixpoint indexed_from (i : nat) (l : list V) : list (string * V) :=
  match l with
  | [] => []
  | v :: r => (string_of_nat i, v) :: indexed_from (S i) r
  end.

End Properties.

(** [o[k]] on an object: [undefined] when the key is missing. *)
Definition obj_at (o : obj) (k : string) : value :=
  match obj_get o k with Some v => v | None => VUndef end.

Fixpoint chars (s : string) : list string :=
  match s with
  | EmptyString => []
  | String c r => String c EmptyString :: chars r
  end.

(** Own enumerable properties, as read by object spread and, for a value
    that is neither [null] nor [undefined], by [Object.entries]. *)
Definition own_entries (v : value) : list (string * value) :=
  match v with
  | VObj o => o
  | VArr l => indexed_from 0 l
  | VStr s => indexed_from 0 (map VStr (chars s))
  | _ => []
  end.

(** [{ ...o, ...v }] continued from the properties [o] already defined. *)
Definition obj_spread (o : obj) (v : value) : obj :=
  obj_assign o (own_entries v).

Definition object_entries (v : value) : result (list (string * value)) :=
  if nullish v then Throw TypeError else Ok (own_entries v).

(** [v.k] for one of the property names the module reads ([type], [label],
    [fields], ...): none of them is an index, [length] or inherited, so the
    property is an own property of an object or is [undefined]. *)
Definition get_prop (v : value) (k : string) : result value :=
  match v with
  | VUndef | VNull => Throw TypeError
  | VObj o => Ok (obj_at o k)
  | _ => Ok VUndef
  end.

(** [v?.k], for the same names and, in [getVisibleModals], for a group name
    that [Object.prototype] does not define (see [own_only]). *)
Definition get_prop_opt (v : value) (k : string) : value :=
  match v with
  | VObj o => obj_at o k
  | _ => VUndef
  end.

(** *** Arrays *)

(** One argument of [Array.prototype.concat]: an array is spread. *)
Definition concat_spread (v : value) : list value :=
  match v with
  | VArr l => l
  | _ => [v]
  end.

(** [[].concat(...xs)] *)
Definition array_concat (xs : list value) : list value :=
  flat_map concat_spread xs.

(** [ToPrimitive] finds a string for [v]: an object that has a property
    [toString] of its own hides [Object.prototype.toString] behind a value
    that cannot be called, and [Object.prototype.valueOf] gives back the
    object. *)
Fixpoint convertible (v : value) : bool :=
  match v with
  | VArr l => forallb (fun x => nullish x || convertible x) l
  | VObj o => negb (obj_has o "toString")
  | _ => true
  end.

(** [ToString], as used by a computed property key and by
    [String.prototype.concat]. *)
Definition to_string (v : value) : result string :=
  if convertible v then Ok (toString v) else Throw TypeError.

(** [recv.concat(arg)] *)
Definition method_concat (recv arg : value) : result value :=
  match recv with
  | VArr l => Ok (VArr (l ++ concat_spread arg))
  | VStr s => t <- to_string arg ;; Ok (VStr (s ++ t))
  | _ => Throw TypeError
  end.

(** *** Inherited properties *)

(** The property names [Object.prototype] defines. *)
Definition prototype_names : list string :=
  [ "constructor"; "__defineGetter__"; "__defineSetter__"; "hasOwnProperty";
    "__lookupGetter__"; "__lookupSetter__"; "isPrototypeOf";
    "propertyIsEnumerable"; "toString"; "valueOf"; "__proto__";
    "toLocaleString" ].

Definition inherited (k : string) : bool :=
  existsb (String.eqb k) prototype_names.

(** [xs.includes(key)] for a string [key]. *)
Definition includes_str (xs : list value) (key : string) : bool :=
  existsb (fun v => match v with VStr s => String.eqb s key | _ => false end) xs.

(** [a || b] and [a && b]; the right operand is evaluated on demand. *)
Definition js_or (a b : value) : value := if truthy a then a else b.

Definition js_and (a : result value) (b : unit -> result value) : result value :=
  v <- a ;; if truthy v then b tt else Ok v.

(** ** Assertions *)

(** [assert.equal] of the strict assert module, on strings; it returns
    [undefined]. *)
Definition assert_equal (actual expected : string) (r : rule) (name : string)
  : result value :=
  if String.eqb actual expected then Ok VUndef else Throw (AssertionError r name).

Definition assert_is (actual : value) (expected : string) (r : rule)
  (name : string) : result value :=
  match actual with
  | VStr s => assert_equal s expected r name
  | _ => Throw (AssertionError r name)
  end.

Definition assert_ok (b : bool) (r : rule) (name : string) : result value :=
  if b then Ok VUndef else Throw (AssertionError r name).

(** ** Validation *)

Definition validateCommand (name : string) (command : value) : result bool :=
  ty <- get_prop command "type" ;;
  _ <- assert_is ty "item" CommandType name ;;
  label <- get_prop command "label" ;;
  _ <- assert_equal (typeof label) "string" CommandLabel name ;;
  action <- get_prop command "action" ;;
  _ <- js_and (assert_equal (typeof action) "object" CommandAction name)
         (fun _ =>
            js_and (aty <- get_prop action "type" ;;
                    assert_equal (typeof aty) "string" CommandActionType name)
              (fun _ =>
                 payload <- get_prop action "payload" ;;
                 assert_equal (typeof payload) "object" CommandActionPayload name)) ;;
  permission <- get_prop command "permission" ;;
  _ <- js_and (Ok permission)
         (fun _ =>
            js_and (assert_equal (typeof permission) "object" CommandPermission name)
              (fun _ =>
                 js_and (pa <- get_prop permission "action" ;;
                         assert_equal (typeof pa) "string" CommandPermissionAction name)
                   (fun _ =>
                      pt <- get_prop permission "type" ;;
                      assert_equal (typeof pt) "string" CommandPermissionType name))) ;;
  modal <- get_prop command "modal" ;;
  _ <- js_and (Ok modal)
         (fun _ => assert_equal (typeof modal) "string" CommandModal name) ;;
  shortcut <- get_prop command "shortcut" ;;
  _ <- assert_equal (typeof shortcut) "string" CommandShortcut name ;;
  Ok true.

Definition is_array (v : value) : bool :=
  match v with VArr _ => true | _ => false end.

Definition is_string (v : value) : bool :=
  match v with VStr _ => true | _ => false end.

(** [fields.every(field => typeof field === 'string')] *)
Definition every_string (v : value) : result bool :=
  match v with
  | VArr l => Ok (forallb (fun f => String.eqb (typeof f) "string") l)
  | _ => Throw TypeError
  end.

Definition validateGroup (name : string) (group : value) : result bool :=
  label <- get_prop group "label" ;;
  _ <- assert_equal (typeof label) "string" GroupLabel name ;;
  fields <- get_prop group "fields" ;;
  _ <- assert_ok (is_array fields) GroupFieldsArray name ;;
  all <- every_string fields ;;
  _ <- assert_ok all GroupFieldsStrings name ;;
  Ok true.

(** [entries.some(([ name, x ]) => f name x)]: stops at the first entry for
    which the callback answers [true]. *)
Fixpoint some_entries (f : string -> value -> result bool)
  (entries : list (string * value)) : result bool :=
  match entries with
  | [] => Ok false
  | (name, x) :: r =>
      b <- f name x ;;
      if b then Ok true else some_entries f r
  end.

(** ** The composition pipeline *)

(** The object threaded through [pipe]: a stage adds its own property;
    [None] is a property no stage has set (it reads as [undefined]). *)
Record pipeline : Type := mkPipeline {
  p_rawCommands : list value;
  p_command : option obj;
  p_remove : option (list value);
  p_group : option obj;
  p_modal : option obj
}.

Definition initialState (raw : list value) : pipeline :=
  mkPipeline raw None None None None.

(** [pipe(...functions)(initial)] *)
Definition pipe (functions : list (pipeline -> result pipeline))
  (initial : pipeline) : result pipeline :=
  foldM (fun accumulator current => current accumulator) functions initial.

Definition composeRemove (initialState : pipeline) : result pipeline :=
  removes <- mapM (fun command => get_prop command "remove")
               initialState.(p_rawCommands) ;;
  let concatenate := filter truthy (array_concat removes) in
  Ok (mkPipeline initialState.(p_rawCommands) initialState.(p_command)
        (Some concatenate) initialState.(p_group) initialState.(p_modal)).

(** The reducer of [formatGroups]:
    [{ ...groups, [name]: { ...attributes, fields: (groups[name]?.fields || []).concat(attributes.fields) } }]

    Under a name that is not a property of [groups] itself, [groups[name]]
    is [undefined] or a member of [Object.prototype]; no such member has a
    property [fields], so [groups[name]?.fields] is [undefined] either way.
    The computed key defines an own property whatever the name. *)
Definition mergeGroup (groups : obj) (entry : string * value) : result obj :=
  let (name, attributes) := entry in
  let previous := get_prop_opt (obj_at groups name) "fields" in
  contributed <- get_prop attributes "fields" ;;
  fields <- method_concat (js_or previous (VArr [])) contributed ;;
  Ok (obj_set name (VObj (obj_set "fields" fields (obj_spread [] attributes)))
        (obj_spread [] (VObj groups))).

Definition formatGroups (state : obj) (fragment : value) : result obj :=
  group <- get_prop fragment "group" ;;
  entries <- object_entries group ;;
  foldM mergeGroup entries state.

Definition composeGroup (initialState : pipeline) : result pipeline :=
  concatenate <- foldM formatGroups initialState.(p_rawCommands) [] ;;
  Ok (mkPipeline initialState.(p_rawCommands) initialState.(p_command)
        initialState.(p_remove) (Some concatenate) initialState.(p_modal)).

(** The reducer of [composeCommand]: [{ ...acc, ...command }] *)
Definition mergeCommand (acc : obj) (command : value) : obj :=
  obj_spread (obj_spread [] (VObj acc)) command.

Definition composeCommand (initialState : pipeline) : result pipeline :=
  adds <- mapM (fun command => get_prop command "add")
            initialState.(p_rawCommands) ;;
  let concatenate := filter truthy (array_concat adds) in
  Ok (mkPipeline initialState.(p_rawCommands)
        (Some (fold_left mergeCommand concatenate []))
        initialState.(p_remove) initialState.(p_group) initialState.(p_modal)).

(** [formatModals] only destructures its fragment and hands the state back. *)
Definition formatModals (state : obj) (fragment : value) : result obj :=
  _ <- get_prop fragment "group" ;;
  Ok state.

Definition composeModal (initialState : pipeline) : result pipeline :=
  concatenate <- foldM formatModals initialState.(p_rawCommands) [] ;;
  Ok (mkPipeline initialState.(p_rawCommands) initialState.(p_command)
        initialState.(p_remove) initialState.(p_group) (Some concatenate)).

(** ** The contribution collector *)

(** What a chain entry declares: a fragment, or a function of the owning
    module, represented by what the call on that module yields. *)
Inductive metadata : Type :=
| Static (fragment : value)
| Factory (call : result value).

Record apos_module : Type := mkModule {
  chain : list string;
  meta_commands : list (string * metadata)
}.

Fixpoint meta_get (m : list (string * metadata)) (k : string) : option metadata :=
  match m with
  | [] => None
  | (k', d) :: r => if String.eqb k' k then Some d else meta_get r k
  end.

(** One step of the [map] in [composeCommandsForModule]:
    [commands[entry.name] || null], called when it is a function. *)
Definition resolveEntry (aposModule : apos_module) (entry : string) : result value :=
  match meta_get aposModule.(meta_commands) entry with
  | Some (Factory call) => call
  | Some (Static fragment) => Ok (js_or fragment VNull)
  | None => Ok VNull
  end.

Definition not_null (v : value) : bool :=
  match v with VNull => false | _ => true end.

Definition composeCommandsForModule (aposModule : apos_module) : result (list value) :=
  entries <- mapM (resolveEntry aposModule) aposModule.(chain) ;;
  Ok (filter not_null entries).

(** [Object.values(self.apos.modules).flatMap(self.composeCommandsForModule)] *)
Definition collect (modules : list apos_module) : result (list value) :=
  perModule <- mapM composeCommandsForModule modules ;;
  Ok (List.concat perModule).

(** ** The module state and the [apostrophe:ready] handler *)

Record self : Type := mkSelf {
  rawCommands : list value;
  removes : list value;
  commands : obj;
  groups : obj;
  modals : value;
  (** [self.options.components.the] *)
  components_the : value
}.

(** The state [init] leaves. *)
Definition init (the : value) : self :=
  mkSelf [] [] [] [] (VObj []) the.

Definition or_undefined (o : option obj) : value :=
  match o with Some x => VObj x | None => VUndef end.

(** The two [some] loops that open the [try] block. *)
Definition validate (composed : pipeline) : result unit :=
  commandEntries <- object_entries (or_undefined composed.(p_command)) ;;
  _ <- some_entries validateCommand commandEntries ;;
  groupEntries <- object_entries (or_undefined composed.(p_group)) ;;
  _ <- some_entries validateGroup groupEntries ;;
  Ok tt.

(** The four assignments that close the [try] block. *)
Definition publish (composed : pipeline) (s : self) : self :=
  mkSelf s.(rawCommands)
    (match composed.(p_remove) with Some r => r | None => [] end)
    (match composed.(p_command) with Some c => c | None => [] end)
    (match composed.(p_group) with Some g => g | None => [] end)
    (or_undefined composed.(p_modal))
    s.(components_the).

(** How a run of the handler ends: the registry was published; the [catch]
    block logged [e] and the handler returned; or [e] left the handler. *)
Inductive outcome : Type :=
| Published
| Abandoned (e : error)
| Propagated (e : error).

Definition composeCommands (modules : list apos_module) (s : self)
  : outcome * self :=
  match collect modules with
  | Throw e => (Propagated e, s)
  | Ok raw =>
      let cleared := mkSelf raw [] [] [] (VObj []) s.(components_the) in
      match pipe [composeCommand; composeRemove; composeGroup] (initialState raw) with
      | Throw e => (Propagated e, cleared)
      | Ok composed =>
          match validate composed with
          | Ok _ => (Published, publish composed cleared)
          | Throw e => (Abandoned e, cleared)
          end
      end
  end.

(** ** The visibility resolver *)

(** The request, as far as the module reads it: [req.user]. *)
Record request : Type := mkRequest {
  user : value
}.

Record view : Type := mkView {
  v_groups : obj;
  v_modals : obj
}.

(** An entry handed to [Object.fromEntries]: a pair [[ key, x ]], or the
    empty array [[]], whose two missing elements read as [undefined]. *)
Definition entry : Type := option (string * value).

Definition entry_pair (e : entry) : string * value :=
  match e with
  | Some p => p
  | None => (toString VUndef, VUndef)
  end.

Definition fromEntries (es : list entry) : obj :=
  obj_assign [] (map entry_pair es).

(** [entries.filter(e => e.length)] *)
Definition nonempty (e : entry) : bool :=
  match e with Some _ => true | None => false end.

(** [Object.keys(commands)] *)
Definition object_keys (o : obj) : list string := map fst o.

(** [keys.includes(field)]: only a string equals one of the keys. *)
Definition keys_include (keys : list string) (field : value) : option string :=
  match field with
  | VStr f => if existsb (String.eqb f) keys then Some f else None
  | _ => None
  end.

Section Resolver.

(** [self.apos.permissions.can], an opaque boolean oracle. *)
Variable can : request -> value -> value -> value -> bool.

Definition isCommandVisible (req : request) (command : value) : result bool :=
  permission <- get_prop command "permission" ;;
  if truthy permission then
    action <- get_prop permission "action" ;;
    type <- get_prop permission "type" ;;
    mode <- get_prop permission "mode" ;;
    Ok (can req action type (js_or mode (VStr "draft")))
  else Ok true.

(** The reducer over [group.fields], shared by both views. *)
Definition pickField (commands : obj) (acc : obj) (field : value) : obj :=
  match keys_include (object_keys commands) field with
  | Some f => obj_set f (obj_at commands f) (obj_spread [] (VObj acc))
  | None => acc
  end.

Definition reduceFields (commands : obj) (fields : value) : result obj :=
  match fields with
  | VArr l => Ok (fold_left (pickField commands) l [])
  | _ => Throw TypeError
  end.

(** The callback mapped over [Object.entries(self.groups)]. *)
Definition visibleGroup (commands : obj) (e : string * value) : result entry :=
  let (key, group) := e in
  declared <- get_prop group "fields" ;;
  fields <- reduceFields commands declared ;;
  Ok (if Nat.eqb (List.length fields) 0 then None
      else Some (key, VObj (obj_set "fields" (VObj fields) (obj_spread [] group)))).

Definition getVisibleGroups (s : self) (commands : obj) : result obj :=
  es <- mapM (visibleGroup commands) s.(groups) ;;
  Ok (fromEntries (filter nonempty es)).

(** The body of the [forEach] in [getVisibleModals]; [acc] is updated in
    place.  [acc[modal]] and [acc[modal]?.[key]] are read as own properties
    and [acc[modal] = ...] defines one, which is what the program does for
    every name that [Object.prototype] does not define. *)
Definition fileCommand (key : string) (group : value) (acc : obj)
  (e : string * value) : result obj :=
  let (name, field) := e in
  m <- get_prop field "modal" ;;
  modal <- to_string (js_or m VNull) ;;
  let atModal := obj_at acc modal in
  let atKey := get_prop_opt atModal key in
  let fields := obj_set name field (obj_spread [] (get_prop_opt atKey "fields")) in
  let shell := obj_set "fields" (VObj fields) (obj_spread [] (js_or atKey group)) in
  Ok (obj_set modal (VObj (obj_set key (VObj shell) (obj_spread [] atModal))) acc).

Definition fileGroup (acc : obj) (e : string * value) : result obj :=
  let (key, group) := e in
  fields <- get_prop group "fields" ;;
  entries <- object_entries fields ;;
  foldM (fileCommand key group) entries acc.

(** No property of the modal view, and none of one of its modals, is named
    like a member of [Object.prototype]: every [acc[modal]] and every
    [acc[modal]?.[key]] read an own property or [undefined], and every
    [acc[modal] = ...] defined an own property. *)
Definition own_only (modals : obj) : bool :=
  forallb (fun m =>
             negb (inherited (fst m))
             && forallb (fun g => negb (inherited (fst g)))
                  (own_entries (snd m)))
    modals.

(** The modal view.  The last line stands for [return modals]: the view is
    returned when it is the one the program builds, that is when every name
    in it was read and assigned as an own property; otherwise the run of the
    model ends with [Inherited].  A [TypeError] comes first in the model as
    it does in the program, which reads [field.modal] of every field
    whatever the accumulator holds. *)
Definition getVisibleModals (s : self) (commands : obj) : result obj :=
  es <- mapM (visibleGroup commands) s.(groups) ;;
  let groups := fromEntries (filter nonempty es) in
  modals <- foldM fileGroup groups [] ;;
  if own_only modals then Ok modals else Throw Inherited.

(** The callback mapped over [Object.entries(self.commands)]. *)
Definition visibleCommand (s : self) (req : request) (e : string * value)
  : result entry :=
  let (key, command) := e in
  if negb (includes_str s.(removes) key) then
    visible <- isCommandVisible req command ;;
    Ok (if visible then Some (key, command) else None)
  else Ok None.

Definition visibleCommands (s : self) (req : request) : result obj :=
  es <- mapM (visibleCommand s req) s.(commands) ;;
  Ok (fromEntries es).

Definition getVisible (s : self) (req : request) : result view :=
  commands <- visibleCommands s req ;;
  groups <- getVisibleGroups s commands ;;
  modals <- getVisibleModals s commands ;;
  Ok (mkView groups modals).

Definition getBrowserData (s : self) (req : request) : result value :=
  if negb (truthy req.(user)) then Ok (VBool false)
  else
    visible <- getVisible s req ;;
    Ok (VObj [ ("components",
                VObj [ ("the", js_or s.(components_the) (VStr "TheAposCommandMenu")) ]);
               ("groups", VObj visible.(v_groups));
               ("modals", VObj visible.(v_modals)) ]).

End Resolver.

(** ** Sample registry contents *)

Definition sampleAction : value :=
  VObj [ ("type", VStr "open-modal"); ("payload", VObj []) ].

(** A command that satisfies every structural rule. *)
Definition validCommand : value :=
  VObj [ ("type", VStr "item"); ("label", VStr "Show");
         ("action", sampleAction); ("shortcut", VStr "?") ].

(** The same command with a number for a shortcut. *)
Definition numericShortcut : value :=
  VObj [ ("type", VStr "item"); ("label", VStr "Show");
         ("action", sampleAction); ("shortcut", VNum 5) ].

Definition generalGroup : value :=
  VObj [ ("label", VStr "General"); ("fields", VArr [ VStr "a"; VStr "b" ]) ].

(** A module whose only chain entry declares [first] then [second], both in
    one group. *)
Definition moduleDeclaring (first second : string * value) : apos_module :=
  mkModule [ "base" ]
    [ ("base",
       Static (VObj [ ("add", VObj [ first; second ]);
                      ("group", VObj [ ("g", generalGroup) ]) ])) ].

(** A state left by some earlier, successful cycle. *)
Definition earlierState : self :=
  mkSelf [] [ VStr "old" ] [ ("old", validCommand) ]
    [ ("g", generalGroup) ] VUndef VUndef.

(** ** What the fragments declare *)

(** The properties a fragment's [add] brings to the command table: an
    [add] that is an array is flattened by [concat], a falsy one is
    filtered out, the rest is spread. *)
Definition added_entries (fragment : value) : list (string * value) :=
  flat_map own_entries
    (filter truthy (concat_spread (get_prop_opt fragment "add"))).

(** The groups a fragment declares, as [formatGroups] enumerates them. *)
Definition group_entries (fragment : value) : list (string * value) :=
  own_entries (get_prop_opt fragment "group").

(** The attribute objects contributed for group [g], in collector order. *)
Definition contributions (raw : list value) (g : string) : list value :=
  map snd (filter (fun e => String.eqb (fst e) g) (flat_map group_entries raw)).

(** The elements one contribution appends to [fields]. *)
Definition contributed_fields (attributes : value) : list value :=
  concat_spread (get_prop_opt attributes "fields").

(** Fragments [composeGroup] can read: each fragment and its [group] are
    neither [null] nor [undefined], and neither are the attributes of any
    declared group. *)
Definition readable_groups (raw : list value) : bool :=
  forallb (fun fragment =>
             negb (nullish fragment)
             && negb (nullish (get_prop_opt fragment "group"))
             && forallb (fun e => negb (nullish (snd e))) (group_entries fragment))
    raw.

Definition readable_fragments (raw : list value) : bool :=
  forallb (fun fragment => negb (nullish fragment)) raw.

(** The two fragments of the add-merge example and of the group-merge
    example. *)
Definition addFragment (name : string) (command : value) : value :=
  VObj [ ("add", VObj [ (name, command) ]) ].

Definition groupFragment (name label : string) (fields : list value) : value :=
  VObj [ ("group",
          VObj [ (name, VObj [ ("label", VStr label); ("fields", VArr fields) ]) ]) ].

(** The [fields] accumulated so far for a group of the table. *)
Definition accumulated_fields (groups : obj) (g : string) : list value :=
  match get_prop_opt (obj_at groups g) "fields" with
  | VArr l => l
  | _ => []
  end.

(** What [mergeGroup] keeps true of its accumulator: every group in it is
    an object whose [fields] is an array. *)
Definition merged_table (groups : obj) : Prop :=
  NoDup (map fst groups) /\
  forall g v, obj_get groups g = Some v ->
    exists o l, v = VObj o /\ obj_get o "fields" = Some (VArr l).

Definition merged_group (previous : list value) (cs : list value) : value :=
  VObj (obj_set "fields" (VArr (previous ++ flat_map contributed_fields cs))
          (obj_spread [] (last cs VUndef))).

(** ** Reading the views *)

(** The own properties of an object; nothing for any other value. *)
Definition props (v : value) : obj :=
  match v with
  | VObj o => o
  | _ => []
  end.

(** [groups[g].fields[name]] in the group view. *)
Definition group_entry (groups : obj) (g name : string) : option value :=
  obj_get (props (get_prop_opt (obj_at groups g) "fields")) name.

(** [modals[m][g].fields[name]] in the modal view. *)
Definition modal_entry (modals : obj) (m g name : string) : option value :=
  obj_get (props (get_prop_opt (get_prop_opt (obj_at modals m) g) "fields")) name.

(** The key a command is filed under: [field.modal || null] as a property
    key. *)
Definition modal_key (command : value) : string :=
  toString (js_or (get_prop_opt command "modal") VNull).

(** A command the resolver lets through for [req]: published, not removed,
    and passing the permission filter. *)
Definition visible_command (can : request -> value -> value -> value -> bool)
  (s : self) (req : request) (name : string) (command : value) : Prop :=
  In (name, command) s.(commands) /\
  includes_str s.(removes) name = false /\
  isCommandVisible can req command = Ok true.

(** ** The permission filter as the specification words it *)

(** A command lacking [permission] is visible; one with [permission] is
    visible iff [can(identity, action, type, mode ?? "draft")], the default
    standing in exactly when [mode] is absent. *)
Definition spec_isCommandVisible
  (can : request -> value -> value -> value -> bool)
  (req : request) (command : value) : bool :=
  match get_prop_opt command "permission" with
  | VUndef => true
  | permission =>
      can req (get_prop_opt permission "action") (get_prop_opt permission "type")
        (match get_prop_opt permission "mode" with
         | VUndef => VStr "draft"
         | mode => mode
         end)
  end.

(** ** Sample requests, oracles and published states *)

Definition editor : request := mkRequest (VObj [ ("title", VStr "editor") ]).


Definition allowAll : request -> value -> value -> value -> bool :=
  fun _ _ _ _ => true.

(** An oracle that grants a permission in draft mode only. *)
Definition draftOnly : request -> value -> value -> value -> bool :=
  fun _ _ _ mode =>
    match mode with
    | VStr m => String.eqb m "draft"
    | _ => false
    end.

(** A command whose permission carries the empty string for a mode. *)
Definition emptyModeCommand : value :=
  VObj [ ("type", VStr "item"); ("label", VStr "Edit");
         ("action", sampleAction);
         ("permission",
          VObj [ ("action", VStr "edit"); ("type", VStr "article");
                 ("mode", VStr "") ]);
         ("shortcut", VStr "E") ].

Definition publishedMode : value :=
  VObj [ ("type", VStr "item"); ("label", VStr "Edit");
         ("action", sampleAction);
         ("permission",
          VObj [ ("action", VStr "edit"); ("type", VStr "article");
                 ("mode", VStr "published") ]);
         ("shortcut", VStr "E") ].

(** Two commands without [modal], listed by one group; [b] is removed when
    [removed] says so. *)
Definition twoCommands (removed : list value) : self :=
  mkSelf [] removed
    [ ("a", validCommand); ("b", validCommand) ]
    [ ("g", generalGroup) ] VUndef VUndef.

(** A registry the resolver can always read: every command is a real
    value with a modal key, every group is one too and lists its fields in
    an array, and no group lists the name [undefined] (the property
    [Object.fromEntries] makes of the commands that were filtered out); no
    modal key and no group name is one [Object.prototype] defines. *)
Definition resolvable (s : self) : bool :=
  forallb (fun e =>
             negb (nullish (snd e))
             && convertible (js_or (get_prop_opt (snd e) "modal") VNull)
             && negb (inherited (modal_key (snd e))))
    s.(commands)
  && forallb (fun e =>
                negb (inherited (fst e))
                && match get_prop_opt (snd e) "fields" with
                   | VArr l => negb (includes_str l (toString VUndef))
                   | _ => false
                   end)
       s.(groups).

(** ** Invariants of the resolver *)

(** Every field of the group is an entry of the command table. *)
Definition over (commands : obj) (group : value) : Prop :=
  forall fields name c,
    In ("fields", fields) (own_entries group) ->
    In (name, c) (own_entries fields) ->
    In (name, c) commands.


(** * The resolver over a store of shared objects

    The model above treats objects as values.  To state that resolution
    leaves the stored registry alone, the resolver is embedded a second time
    with objects and arrays living in a store: a value is a primitive or a
    reference, every object literal and [Object.fromEntries] allocates, and
    the assignment [acc[modal] = ...] of [getVisibleModals] overwrites a
    cell.  Arrays that are only destructured ([Object.entries], the pairs
    handed to [Object.fromEntries]) stay lists. *)

Definition loc : Type := nat.

Inductive hval : Type :=
| HUndef
| HNull
| HBool (b : bool)
| HNum (n : Z)
| HStr (s : string)
| HRef (l : loc).

Inductive cell : Type :=
| CArr (elements : list hval)
| CObj (properties : list (string * hval)).

(** The store; a location is an index into it. *)
Definition heap : Type := list cell.

(** Code that reads and writes the store and may throw. *)
Definition M (A : Type) : Type := heap -> result A * heap.

Definition ret {A} (a : A) : M A := fun h => (Ok a, h).

Definition bindM {A B} (m : M A) (k : A -> M B) : M B :=
  fun h =>
    match m h with
    | (Ok a, h') => k a h'
    | (Throw e, h') => (Throw e, h')
    end.

Notation "x <~ m ;; k" := (bindM m (fun x => k))
  (at level 61, m at next level, right associativity).

(** Reading the store. *)
Definition look {A} (f : heap -> A) : M A := fun h => (Ok (f h), h).

Definition lift {A} (f : heap -> result A) : M A := fun h => (f h, h).

(** A new cell, at the first free location. *)
Definition alloc (c : cell) : M hval :=
  fun h => (Ok (HRef (List.length h)), (h ++ [c])%list).

Fixpoint update {A} (n : nat) (x : A) (l : list A) : list A :=
  match l, n with
  | [], _ => []
  | _ :: r, O => x :: r
  | y :: r, S n' => y :: update n' x r
  end.

Fixpoint mapMh {A B} (f : A -> M B) (l : list A) : M (list B) :=
  match l with
  | [] => ret []
  | x :: r => y <~ f x ;; ys <~ mapMh f r ;; ret (y :: ys)
  end.

Fixpoint foldMh {A B} (f : A -> B -> M A) (l : list B) (a : A) : M A :=
  match l with
  | [] => ret a
  | x :: r => a' <~ f a x ;; foldMh f r a'
  end.

(** ** Primitive operations on the store *)

Definition truthy_h (v : hval) : bool :=
  match v with
  | HUndef | HNull => false
  | HBool b => b
  | HNum n => negb (Z.eqb n 0)
  | HStr s => negb (String.eqb s "")
  | HRef _ => true
  end.

Definition nullish_h (v : hval) : bool :=
  match v with
  | HUndef | HNull => true
  | _ => false
  end.

Definition js_or_h (a b : hval) : hval := if truthy_h a then a else b.

Definition obj_at_h (o : list (string * hval)) (k : string) : hval :=
  match obj_get o k with Some v => v | None => HUndef end.

Definition own_entries_h (h : heap) (v : hval) : list (string * hval) :=
  match v with
  | HRef l =>
      match nth_error h l with
      | Some (CObj o) => o
      | Some (CArr a) => indexed_from 0 a
      | None => []
      end
  | HStr s => indexed_from 0 (map HStr (chars s))
  | _ => []
  end.

Definition object_entries_h (v : hval) (h : heap)
  : result (list (string * hval)) :=
  if nullish_h v then Throw TypeError else Ok (own_entries_h h v).

Definition get_prop_h (v : hval) (k : string) (h : heap) : result hval :=
  match v with
  | HUndef | HNull => Throw TypeError
  | HRef l =>
      match nth_error h l with
      | Some (CObj o) => Ok (obj_at_h o k)
      | _ => Ok HUndef
      end
  | _ => Ok HUndef
  end.

Definition get_prop_opt_h (v : hval) (k : string) (h : heap) : hval :=
  match v with
  | HRef l =>
      match nth_error h l with
      | Some (CObj o) => obj_at_h o k
      | _ => HUndef
      end
  | _ => HUndef
  end.

(** The elements of an array, for [reduce] and [includes]; any other value
    has no such method. *)
Definition elements_h (v : hval) (h : heap) : result (list hval) :=
  match v with
  | HRef l =>
      match nth_error h l with
      | Some (CArr a) => Ok a
      | _ => Throw TypeError
      end
  | _ => Throw TypeError
  end.

Definition includes_str_h (xs : list hval) (key : string) : bool :=
  existsb (fun v => match v with HStr s => String.eqb s key | _ => false end) xs.

Definition keys_include_h (keys : list string) (field : hval) : option string :=
  match field with
  | HStr f => if existsb (String.eqb f) keys then Some f else None
  | _ => None
  end.

(** [target[k] = v] *)
Definition set_prop (target : hval) (k : string) (v : hval) : M unit :=
  fun h =>
    match target with
    | HUndef | HNull => (Throw TypeError, h)
    | HRef l =>
        match nth_error h l with
        | Some (CObj o) => (Ok tt, update l (CObj (obj_set k v o)) h)
        | _ => (Ok tt, h)
        end
    | _ => (Ok tt, h)
    end.

(** What a reference stands for, read off the store down to [fuel] levels
    of nesting; this is what [ToString] and the permission oracle see. *)
Fixpoint reify (fuel : nat) (h : heap) (v : hval) {struct fuel} : value :=
  match v with
  | HUndef => VUndef
  | HNull => VNull
  | HBool b => VBool b
  | HNum n => VNum n
  | HStr s => VStr s
  | HRef l =>
      match fuel with
      | O => VUndef
      | S n =>
          match nth_error h l with
          | Some (CArr a) => VArr (map (reify n h) a)
          | Some (CObj o) => VObj (map (fun p => (fst p, reify n h (snd p))) o)
          | None => VUndef
          end
      end
  end.

Definition entry_h : Type := option (string * hval).

Definition entry_pair_h (e : entry_h) : string * hval :=
  match e with
  | Some p => p
  | None => (toString VUndef, HUndef)
  end.

Definition fromEntries_h (es : list entry_h) : list (string * hval) :=
  obj_assign [] (map entry_pair_h es).

Definition nonempty_h (e : entry_h) : bool :=
  match e with Some _ => true | None => false end.

Record view_h : Type := mkViewH {
  vh_groups : hval;
  vh_modals : hval
}.

(** ** The resolver *)

Section ResolverH.

Variable can : request -> value -> value -> value -> bool.

(** How deep [reify] reads. *)
Variable fuel : nat.

(** The module object: [self.removes], [self.commands], [self.groups]. *)
Variable this : hval.

Definition isCommandVisible_h (req : request) (command : hval) : M bool :=
  permission <~ lift (get_prop_h command "permission") ;;
  if truthy_h permission then
    action <~ lift (get_prop_h permission "action") ;;
    type <~ lift (get_prop_h permission "type") ;;
    mode <~ lift (get_prop_h permission "mode") ;;
    look (fun h => can req (reify fuel h action) (reify fuel h type)
                     (reify fuel h (js_or_h mode (HStr "draft"))))
  else ret true.

(** [{ ...acc, [field]: commands[field] }], or [acc] itself. *)
Definition pickField_h (commands : hval) (keys : list string) (acc field : hval)
  : M hval :=
  match keys_include_h keys field with
  | Some f =>
      copied <~ look (fun h => own_entries_h h acc) ;;
      command <~ look (get_prop_opt_h commands f) ;;
      alloc (CObj (obj_set f command (obj_assign [] copied)))
  | None => ret acc
  end.

Definition reduceFields_h (commands : hval) (keys : list string) (fields : hval)
  : M hval :=
  elements <~ lift (elements_h fields) ;;
  initial <~ alloc (CObj []) ;;
  foldMh (pickField_h commands keys) elements initial.

Definition visibleGroup_h (commands : hval) (keys : list string)
  (e : string * hval) : M entry_h :=
  let (key, group) := e in
  declared <~ lift (get_prop_h group "fields") ;;
  fields <~ reduceFields_h commands keys declared ;;
  size <~ look (fun h => List.length (own_entries_h h fields)) ;;
  if Nat.eqb size 0 then ret None
  else
    copied <~ look (fun h => own_entries_h h group) ;;
    shell <~ alloc (CObj (obj_set "fields" fields (obj_assign [] copied))) ;;
    ret (Some (key, shell)).

(** The table of groups both views start from. *)
Definition visibleGroups_h (commands : hval) : M hval :=
  keys <~ look (fun h => map fst (own_entries_h h commands)) ;;
  groups <~ lift (get_prop_h this "groups") ;;
  entries <~ lift (object_entries_h groups) ;;
  es <~ mapMh (visibleGroup_h commands keys) entries ;;
  alloc (CObj (fromEntries_h (filter nonempty_h es))).

Definition getVisibleGroups_h (commands : hval) : M hval :=
  visibleGroups_h commands.

Definition fileCommand_h (key : string) (group acc : hval) (e : string * hval)
  : M hval :=
  let (name, field) := e in
  m <~ lift (get_prop_h field "modal") ;;
  modal <~ lift (fun h => to_string (reify fuel h (js_or_h m HNull))) ;;
  atModal <~ look (get_prop_opt_h acc modal) ;;
  atKey <~ look (get_prop_opt_h atModal key) ;;
  earlier <~ look (get_prop_opt_h atKey "fields") ;;
  copiedFields <~ look (fun h => own_entries_h h earlier) ;;
  fields <~ alloc (CObj (obj_set name field (obj_assign [] copiedFields))) ;;
  copiedShell <~ look (fun h => own_entries_h h (js_or_h atKey group)) ;;
  shell <~ alloc (CObj (obj_set "fields" fields (obj_assign [] copiedShell))) ;;
  copiedModal <~ look (fun h => own_entries_h h atModal) ;;
  byGroup <~ alloc (CObj (obj_set key shell (obj_assign [] copiedModal))) ;;
  _ <~ set_prop acc modal byGroup ;;
  ret acc.

Definition fileGroup_h (acc : hval) (e : string * hval) : M hval :=
  let (key, group) := e in
  fields <~ lift (get_prop_h group "fields") ;;
  entries <~ lift (object_entries_h fields) ;;
  foldMh (fileCommand_h key group) entries acc.

Definition own_only_h (h : heap) (modals : hval) : bool :=
  forallb (fun m =>
             negb (inherited (fst m))
             && forallb (fun g => negb (inherited (fst g)))
                  (own_entries_h h (snd m)))
    (own_entries_h h modals).

Definition getVisibleModals_h (commands : hval) : M hval :=
  groups <~ visibleGroups_h commands ;;
  entries <~ look (fun h => own_entries_h h groups) ;;
  acc <~ alloc (CObj []) ;;
  modals <~ foldMh fileGroup_h entries acc ;;
  lift (fun h => if own_only_h h modals then Ok modals else Throw Inherited).

Definition visibleCommand_h (req : request) (e : string * hval) : M entry_h :=
  let (key, command) := e in
  removes <~ lift (get_prop_h this "removes") ;;
  removed <~ lift (elements_h removes) ;;
  if negb (includes_str_h removed key) then
    visible <~ isCommandVisible_h req command ;;
    ret (if visible then Some (key, command) else None)
  else ret None.

Definition visibleCommands_h (req : request) : M hval :=
  commands <~ lift (get_prop_h this "commands") ;;
  entries <~ lift (object_entries_h commands) ;;
  es <~ mapMh (visibleCommand_h req) entries ;;
  alloc (CObj (fromEntries_h es)).

Definition getVisible_h (req : request) : M view_h :=
  commands <~ visibleCommands_h req ;;
  groups <~ getVisibleGroups_h commands ;;
  modals <~ getVisibleModals_h commands ;;
  ret (mkViewH groups modals).

End ResolverH.

(** ** What the store stands for *)

(** [repr P h v x]: in the store [h] the value [v] stands for [x], reading
    only cells at locations that satisfy [P]. *)
Inductive repr (P : loc -> Prop) (h : heap) : hval -> value -> Prop :=
| repr_undef : repr P h HUndef VUndef
| repr_null : repr P h HNull VNull
| repr_bool b : repr P h (HBool b) (VBool b)
| repr_num n : repr P h (HNum n) (VNum n)
| repr_str s : repr P h (HStr s) (VStr s)
| repr_arr l hs xs :
    P l -> nth_error h l = Some (CArr hs) ->
    Forall2 (repr P h) hs xs ->
    repr P h (HRef l) (VArr xs)
| repr_obj l ho o :
    P l -> nth_error h l = Some (CObj ho) ->
    Forall2 (fun p q => fst p = fst q /\ repr P h (snd p) (snd q)) ho o ->
    repr P h (HRef l) (VObj o).

(** Property lists with the same keys and related values. *)
Definition rel_props {V W} (R : V -> W -> Prop)
  (ho : list (string * V)) (o : list (string * W)) : Prop :=
  Forall2 (fun p q => fst p = fst q /\ R (snd p) (snd q)) ho o.

Definition anywhere : loc -> Prop := fun _ => True.

(** The module object at [this] holds the registry of [s] (and whatever
    else the module keeps on itself). *)
Definition stores (P : loc -> Prop) (h : heap) (this : hval) (s : self) : Prop :=
  exists o,
    repr P h this (VObj o) /\
    obj_at o "removes" = VArr s.(removes) /\
    obj_at o "commands" = VObj s.(commands) /\
    obj_at o "groups" = VObj s.(groups).

(** Nesting depth of a value. *)
Fixpoint depth (v : value) : nat :=
  match v with
  | VArr l => S (fold_right (fun x n => Nat.max (depth x) n) 0 l)
  | VObj o => S (fold_right (fun p n => Nat.max (depth (snd p)) n) 0 o)
  | _ => 0
  end.

(** A view over the store stands for a view of the value model. *)
Definition repr_view (h : heap) (out : view_h) (v : view) : Prop :=
  repr anywhere h out.(vh_groups) (VObj v.(v_groups)) /\
  repr anywhere h out.(vh_modals) (VObj v.(v_modals)).

(** An outcome over the store matches an outcome of the value model: the
    same error, or related results. *)
Definition result_rel {A B} (R : A -> B -> Prop) (r : result A) (p : result B)
  : Prop :=
  match r, p with
  | Ok x, Ok y => R x y
  | Throw e, Throw e' => e = e'
  | _, _ => False
  end.

(** Every cell of [h] is still there, unchanged, in [h']. *)
Definition preserved (h h' : heap) : Prop :=
  forall l c, nth_error h l = Some c -> nth_error h' l = Some c.

(** ** Relating the two models *)

(** How a stretch of code may use the store: the locations it may read
    through ([allowed]), the changes it may make ([moves]) and what must hold
    of a store it starts from ([ready]). *)
Class discipline : Type := {
  allowed : loc -> Prop;
  moves : heap -> heap -> Prop;
  ready : heap -> Prop
}.

(** What the proofs need of a discipline: moves compose, keep what the
    allowed locations stand for and keep a store ready; from a ready store
    an allocation is a move, to an allowed location. *)
Class lawful (D : discipline) : Prop := {
  moves_refl : forall h, moves h h;
  moves_trans : forall h1 h2 h3, moves h1 h2 -> moves h2 h3 -> moves h1 h3;
  moves_repr : forall h h' v x,
    moves h h' -> repr allowed h v x -> repr allowed h' v x;
  moves_ready : forall h h', moves h h' -> ready h -> ready h';
  ready_alloc : forall h c,
    ready h -> moves h (h ++ [c])%list /\ allowed (List.length h)
}.

(** Code that only allocates: every cell stays as it is. *)
Definition growth : discipline :=
  {| allowed := anywhere; moves := preserved; ready := fun _ => True |}.

(** Code that also assigns to the object at [a], allocated before it
    starts: every other cell stays as it is. *)
Definition around (a : loc) : discipline :=
  {| allowed := fun l => l <> a;
     moves := fun h h' =>
       List.length h <= List.length h' /\
       forall l c, l <> a -> nth_error h l = Some c -> nth_error h' l = Some c;
     ready := fun h => a < List.length h |}.

(** From the store [h], the code [m] makes only moves of the discipline and
    ends as the value-level computation [p] does, with results related by
    [R] in the final store. *)
Definition sim `{D : discipline} {A B} (R : heap -> A -> B -> Prop)
  (h : heap) (m : M A) (p : result B) : Prop :=
  ready h ->
  moves h (snd (m h)) /\
  match fst (m h), p with
  | Ok x, Ok y => R (snd (m h)) x y
  | Throw e, Throw e' => e = e'
  | _, _ => False
  end.

(** The accumulator of [getVisibleModals], kept at location [a], holds
    [acc]. *)
Definition holds (a : loc) (h : heap) (v : hval) (acc : obj) : Prop :=
  v = HRef a /\
  exists ho, nth_error h a = Some (CObj ho) /\
             rel_props (repr (fun l => l <> a) h) ho acc.

(** Related entries for [Object.fromEntries]. *)
Definition rel_entry (P : loc -> Prop) (h : heap) (e : entry_h) (e' : entry)
  : Prop :=
  match e, e' with
  | Some p, Some q => fst p = fst q /\ repr P h (snd p) (snd q)
  | None, None => True
  | _, _ => False
  end.

(** Related properties, as a relation on pairs. *)
Definition rel_pair (P : loc -> Prop) (h : heap) (p : string * hval)
  (q : string * value) : Prop :=
  fst p = fst q /\ repr P h (snd p) (snd q).

(** ** A sample store *)

(** The registry of [twoCommands [ VStr "b" ]], laid out in a store: the
    two names share one command object. *)
Definition sampleStore : heap :=
  [ CObj [];
    CObj [ ("type", HStr "open-modal"); ("payload", HRef 0) ];
    CObj [ ("type", HStr "item"); ("label", HStr "Show");
           ("action", HRef 1); ("shortcut", HStr "?") ];
    CObj [ ("a", HRef 2); ("b", HRef 2) ];
    CArr [ HStr "a"; HStr "b" ];
    CObj [ ("label", HStr "General"); ("fields", HRef 4) ];
    CObj [ ("g", HRef 5) ];
    CArr [ HStr "b" ];
    CObj [ ("removes", HRef 7); ("commands", HRef 3); ("groups", HRef 6) ] ].

Definition sampleThis : hval := HRef 8.

(** ** What the validators let through *)

Definition is_item (v : value) : bool :=
  match v with
  | VStr s => String.eqb s "item"
  | _ => false
  end.

(** All that [validateCommand] ends up requiring of a command: the checks
    chained after [&&] behind an [assert.equal] are never reached. *)
Definition accepted_command (command : value) : bool :=
  negb (nullish command)
  && is_item (get_prop_opt command "type")
  && is_string (get_prop_opt command "label")
  && String.eqb (typeof (get_prop_opt command "action")) "object"
  && (negb (truthy (get_prop_opt command "permission"))
      || String.eqb (typeof (get_prop_opt command "permission")) "object")
  && (negb (truthy (get_prop_opt command "modal"))
      || is_string (get_prop_opt command "modal"))
  && is_string (get_prop_opt command "shortcut").

Definition accepted_group (group : value) : bool :=
  negb (nullish group)
  && is_string (get_prop_opt group "label")
  && match get_prop_opt group "fields" with
     | VArr l => forallb is_string l
     | _ => false
     end.

(** The entry a [some] loop over a table hands to its validator. *)
Definition head_accepted (accepted : value -> bool) (table : option obj) : bool :=
  match table with
  | Some [] => true
  | Some ((_, x) :: _) => accepted x
  | None => false
  end.

(** The names a fragment's [remove] brings to the removal list. *)
Definition removed_by (fragment : value) : list value :=
  concat_spread (get_prop_opt fragment "remove").

(** A module whose only chain entry declares a command and no group. *)
Definition moduleOnlyAdding : apos_module :=
  mkModule [ "base" ] [ ("base", Static (addFragment "a" validCommand)) ].

(** One of the four stage functions of the module. *)
Definition is_stage (f : pipeline -> result pipeline) : Prop :=
  f = composeCommand \/ f = composeRemove \/ f = composeGroup \/ f = composeModal.

(** ** The shape of the modal view while it is built *)

(** A group as the views hold it: an object whose [fields] is an object. *)
Definition shell_shaped (v : value) : Prop :=
  exists shell fields,
    v = VObj shell /\
    obj_get shell "fields" = Some (VObj fields) /\
    NoDup (map fst fields).

(** What the modal view holds under one modal key: groups by name. *)
Definition modal_shaped (v : value) : Prop :=
  exists byGroup,
    v = VObj byGroup /\
    NoDup (map fst byGroup) /\
    forall g shell, obj_get byGroup g = Some shell -> shell_shaped shell.

(** The accumulator of [getVisibleModals] between two steps. *)
Definition modals_shaped (acc : obj) : Prop :=
  forall m byGroup, obj_get acc m = Some byGroup -> modal_shaped byGroup.

(** ** The module's own declaration *)

(** The command the module declares under [add]. *)
Definition showShortcutList : value :=
  VObj [ ("type", VStr "item");
         ("label", VStr "apostrophe:commandMenuShowShortcutList");
         ("action",
          VObj [ ("type", VStr "open-modal");
                 ("payload",
                  VObj [ ("name", VStr "AposCommandMenuShortcut");
                         ("props",
                          VObj [ ("moduleName",
                                  VStr "@apostrophecms/command-menu") ]) ]) ]);
         ("shortcut", VStr "?") ].

(** [commands(self)], as a function of [self.__meta.name]. *)
Definition ownCommands (metaName : string) : value :=
  VObj [ ("add",
          VObj [ (metaName ++ ":show-shortcut-list", showShortcutList) ]);
         ("group",
          VObj [ ("@apostrophecms/command-menu:general",
                  VObj [ ("label", VStr "apostrophe:commandMenuGeneral");
                         ("fields",
                          VArr [ VStr (metaName ++ ":show-shortcut-list") ]) ]) ]) ].

(** The module itself, as the collector meets it: the chain entry [entry]
    declares the function above, and [self.__meta.name] is [metaName]. *)
Definition commandMenuModule (entry metaName : string) : apos_module :=
  mkModule [ entry ] [ (entry, Factory (Ok (ownCommands metaName))) ].

(** A module one of whose chain entries declares a function that throws. *)
Definition throwingModule : apos_module :=
  mkModule [ "base"; "piece" ]
    [ ("base", Static (addFragment "a" validCommand));
      ("piece", Factory (Throw TypeError)) ].

(** A published state whose second command is [null]. *)
Definition nullSecond : self :=
  mkSelf [] [] [ ("a", validCommand); ("b", VNull) ]
    [ ("g", generalGroup) ] VUndef VUndef.

(** A published state whose group lists the name [undefined]; [b] is
    removed. *)
Definition listsUndefined : self :=
  mkSelf [] [ VStr "b" ] [ ("a", validCommand); ("b", validCommand) ]
    [ ("g", VObj [ ("label", VStr "General");
                   ("fields", VArr [ VStr "a"; VStr "undefined" ]) ]) ]
    VUndef VUndef.

(** Nothing empty in the accumulator of [getVisibleModals]: every modal has
    a group, and every group of a modal has a command. *)
Definition populated (acc : obj) : Prop :=
  forall m byGroup,
    obj_get acc m = Some byGroup ->
    (exists g, obj_has (props byGroup) g = true) /\
    forall g, obj_has (props byGroup) g = true ->
              exists name c, modal_entry acc m g name = Some c.

(** ** Inputs that tell the program from its specification *)

(** Three fragments a module chain may declare: the group [g], then a
    command and no group, then the group [g] again. *)
Definition fragmentWithoutGroup : list value :=
  [ groupFragment "g" "L1" [ VStr "a" ];
    addFragment "x" validCommand;
    groupFragment "g" "L2" [ VStr "b" ] ].



(** Two fragments the pipeline can read, with commands, a removal and the
    group [g] twice. *)
Definition readableFragments : list value :=
  [ VObj [ ("add", VObj [ ("a", validCommand) ]);
           ("remove", VArr [ VStr "b" ]);
           ("group", VObj [ ("g", VObj [ ("label", VStr "L1");
                                         ("fields", VArr [ VStr "a" ]) ]) ]) ];
    groupFragment "g" "L2" [ VStr "b" ] ].

(** What two runs of the pipeline agree on: both raise a [TypeError], or
    both return and the composed object has the same [rawCommands],
    [command], [remove], [group] and [modal].  The message of the error and
    the order in which the properties sit in the composed object are not
    part of the model and are not compared. *)
Definition same_composition (r r' : result pipeline) : Prop :=
  match r, r' with
  | Ok a, Ok b =>
      a.(p_rawCommands) = b.(p_rawCommands) /\
      a.(p_command) = b.(p_command) /\
      a.(p_remove) = b.(p_remove) /\
      a.(p_group) = b.(p_group) /\
      a.(p_modal) = b.(p_modal)
  | Throw e, Throw e' => e = TypeError /\ e' = TypeError
  | _, _ => False
  end.

(** A published state with a command whose modal is [__proto__]. *)
Definition modalNamedProto : self :=
  mkSelf [] []
    [ ("a", VObj [ ("type", VStr "item"); ("label", VStr "Show");
                   ("action", sampleAction); ("modal", VStr "__proto__");
                   ("shortcut", VStr "?") ]);
      ("b", VObj [ ("type", VStr "item"); ("label", VStr "Show");
                   ("action", sampleAction); ("modal", VStr "g");
                   ("shortcut", VStr "?") ]) ]
    [ ("g", generalGroup) ] VUndef VUndef.

(** A published state with a group named [constructor]. *)
Definition groupNamedConstructor : self :=
  mkSelf [] []
    [ ("a", validCommand); ("b", validCommand) ]
    [ ("g", VObj [ ("label", VStr "General"); ("fields", VArr [ VStr "a" ]) ]);
      ("constructor",
       VObj [ ("label", VStr "Other"); ("fields", VArr [ VStr "b" ]) ]) ]
    VUndef VUndef.

(** * Facts about the model *)

(** ** Property keys *)

(** Numbers as property keys: the digits up to 21 of them, the shortest
    digits that read back as the same Number, and the exponent form from
    [1e21] on. *)
Lemma number_to_string_examples :
  map number_to_string
    [ 0; 42; -5; 9007199254740992; 9007199254740993; 1152921504606846976;
      100000000000000000000; 999999999999999999999; 1000000000000000000000;
      1180591620717411303424; 100000000000000000000000 ]%Z
  = [ "0"; "42"; "-5"; "9007199254740992"; "9007199254740992";
      "1152921504606847000"; "100000000000000000000"; "1e+21"; "1e+21";
      "1.1805916207174113e+21"; "1e+23" ].
Proof. vm_compute. reflexivity. Qed.

(** [ToString] of a small integer, of an array and of an object, with and
    without a property [toString] of its own. *)
Lemma toString_examples :
  toString (VNum 5) = "5" /\
  toString (VArr [ VNum 1; VNull; VStr "x"; VArr [ VBool true; VUndef ] ])
  = "1,,x,true," /\
  to_string (VObj [ ("label", VStr "L") ]) = Ok "[object Object]" /\
  to_string (VObj [ ("toString", VStr "L") ]) = Throw TypeError.
Proof. repeat split; vm_compute; reflexivity. Qed.

(** ** The result monad *)

Lemma bind_Ok {A B} (m : result A) (k : A -> result B) (b : B) :
  bind m k = Ok b -> exists a, m = Ok a /\ k a = Ok b.
Proof.
  destruct m as [a|e]; simpl; intros H; [eauto | discriminate].
Qed.

Ltac inv_bind H :=
  let a := fresh "x" in
  let Ha := fresh "E" in
  apply bind_Ok in H; destruct H as (a & Ha & H).

Lemma foldM_cons {A B} (f : A -> B -> result A) x r a :
  foldM f (x :: r) a = (a' <- f a x ;; foldM f r a').
Proof. reflexivity. Qed.

Lemma mapM_Ok_length {A B} (f : A -> result B) (l : list A) (ys : list B) :
  mapM f l = Ok ys -> List.length ys = List.length l.
Proof.
  revert ys; induction l as [|x r IH]; simpl; intros ys H.
  - now inversion H.
  - inv_bind H. inv_bind H. inversion H; subst. simpl. f_equal. eauto.
Qed.

Lemma mapM_Ok_Forall2 {A B} (f : A -> result B) (l : list A) (ys : list B) :
  mapM f l = Ok ys -> Forall2 (fun x y => f x = Ok y) l ys.
Proof.
  revert ys; induction l as [|x r IH]; simpl; intros ys H.
  - inversion H. constructor.
  - inv_bind H. inv_bind H. inversion H; subst. constructor; auto.
Qed.

Lemma mapM_total {A B} (f : A -> result B) (g : A -> B) (l : list A) :
  (forall x, In x l -> f x = Ok (g x)) -> mapM f l = Ok (map g l).
Proof.
  induction l as [|x r IH]; simpl; intros H; [reflexivity|].
  rewrite (H x) by auto. simpl. rewrite IH by auto. reflexivity.
Qed.

(** ** Property lists *)

Section PropertyFacts.

Context {V : Type}.
Implicit Types (o r es : list (string * V)) (e : string * V) (v : V) (k : string).

Lemma obj_has_true o k : obj_has o k = true <-> In k (map fst o).
Proof.
  unfold obj_has. induction o as [|[k' v] r IH]; simpl.
  - split; [discriminate | tauto].
  - destruct (String.eqb_spec k' k) as [->|N].
    + split; auto.
    + rewrite IH. split; [auto | intros [E|I]; [contradiction | auto]].
Qed.

Lemma obj_get_None o k : obj_get o k = None <-> ~ In k (map fst o).
Proof.
  rewrite <- obj_has_true. unfold obj_has.
  destruct (obj_get o k); split; intros H; try discriminate; auto.
  exfalso; apply H; reflexivity.
Qed.

Lemma obj_get_In o k v : obj_get o k = Some v -> In (k, v) o.
Proof.
  induction o as [|[k' v'] r IH]; simpl; [discriminate|].
  destruct (String.eqb_spec k' k) as [->|N]; intros H.
  - inversion H; auto.
  - auto.
Qed.

Lemma obj_get_NoDup_In o k v :
  NoDup (map fst o) -> In (k, v) o -> obj_get o k = Some v.
Proof.
  induction o as [|[k' v'] r IH]; simpl; [tauto|].
  intros ND [E|I]; inversion ND; subst.
  - inversion E; subst. now rewrite String.eqb_refl.
  - destruct (String.eqb_spec k' k) as [->|N]; auto.
    exfalso. apply H1. change k with (fst (k, v)). now apply in_map.
Qed.

Lemma obj_get_replace k v o k' :
  obj_get (obj_replace k v o) k' =
  if String.eqb k k' then (if obj_has o k then Some v else None)
  else obj_get o k'.
Proof.
  unfold obj_has. induction o as [|[k0 v0] r IH]; simpl.
  - now destruct (String.eqb k k').
  - destruct (String.eqb_spec k0 k) as [->|N]; simpl.
    + destruct (String.eqb_spec k k'); reflexivity.
    + destruct (String.eqb_spec k0 k') as [->|N'].
      * destruct (String.eqb_spec k k'); [congruence | reflexivity].
      * exact IH.
Qed.

Lemma obj_get_insert k v o k' :
  obj_get o k = None ->
  obj_get (obj_insert k v o) k' = if String.eqb k k' then Some v else obj_get o k'.
Proof.
  induction o as [|[k0 v0] r IH]; simpl; intros H.
  - reflexivity.
  - destruct (String.eqb_spec k0 k) as [->|N]; [discriminate|].
    destruct (key_before k k0); simpl.
    + destruct (String.eqb_spec k k'); [reflexivity|].
      reflexivity.
    + destruct (String.eqb_spec k0 k') as [->|N'].
      * destruct (String.eqb_spec k k'); [congruence | reflexivity].
      * auto.
Qed.

(** Reading back a property after defining one. *)
Lemma obj_get_set k v o k' :
  obj_get (obj_set k v o) k' = if String.eqb k k' then Some v else obj_get o k'.
Proof.
  unfold obj_set. destruct (obj_has o k) eqn:H.
  - rewrite obj_get_replace, H. reflexivity.
  - apply obj_get_insert. unfold obj_has in H. now destruct (obj_get o k).
Qed.

Lemma obj_get_set_eq k v o : obj_get (obj_set k v o) k = Some v.
Proof. now rewrite obj_get_set, String.eqb_refl. Qed.

Lemma obj_get_set_neq k v o k' :
  k <> k' -> obj_get (obj_set k v o) k' = obj_get o k'.
Proof.
  intros N. rewrite obj_get_set. now destruct (String.eqb_spec k k').
Qed.

Lemma keys_replace k v o : map fst (obj_replace k v o) = map fst o.
Proof.
  induction o as [|[k0 v0] r IH]; simpl; [reflexivity|].
  destruct (String.eqb k0 k); simpl; congruence.
Qed.

Lemma In_keys_insert k v o k' :
  In k' (map fst (obj_insert k v o)) <-> k' = k \/ In k' (map fst o).
Proof.
  induction o as [|[k0 v0] r IH]; simpl.
  - intuition.
  - destruct (key_before k k0); simpl; [intuition|].
    rewrite IH. intuition.
Qed.

Lemma NoDup_keys_insert k v o :
  ~ In k (map fst o) -> NoDup (map fst o) -> NoDup (map fst (obj_insert k v o)).
Proof.
  induction o as [|[k0 v0] r IH]; simpl; intros NI ND.
  - constructor; [tauto | constructor].
  - destruct (key_before k k0); simpl.
    + constructor; [simpl; tauto | exact ND].
    + inversion ND; subst. constructor.
      * rewrite In_keys_insert. intuition.
      * apply IH; auto.
Qed.

Lemma NoDup_keys_set k v o :
  NoDup (map fst o) -> NoDup (map fst (obj_set k v o)).
Proof.
  unfold obj_set. destruct (obj_has o k) eqn:H; intros ND.
  - now rewrite keys_replace.
  - apply NoDup_keys_insert; auto.
    rewrite <- obj_has_true, H. discriminate.
Qed.

Lemma NoDup_keys_assign es o :
  NoDup (map fst o) -> NoDup (map fst (obj_assign o es)).
Proof.
  unfold obj_assign. revert o. induction es as [|e r IH]; simpl; intros o ND.
  - exact ND.
  - apply IH, NoDup_keys_set, ND.
Qed.

(** After a sequence of definitions the last one for a key wins. *)
Lemma obj_get_assign es o k :
  obj_get (obj_assign o es) k =
  match obj_get (rev es) k with
  | Some v => Some v
  | None => obj_get o k
  end.
Proof.
  unfold obj_assign. revert o. induction es as [|[k0 v0] r IH]; simpl; intros o.
  - reflexivity.
  - rewrite IH. clear IH.
    assert (G : forall l : list (string * V), obj_get (l ++ [(k0, v0)])%list k =
                match obj_get l k with
                | Some v => Some v
                | None => if String.eqb k0 k then Some v0 else None
                end).
    { induction l as [|[k1 v1] l IHl]; simpl; [reflexivity|].
      destruct (String.eqb k1 k); auto. }
    rewrite G. destruct (obj_get (rev r) k); [reflexivity|].
    rewrite obj_get_set. now destruct (String.eqb k0 k).
Qed.

Lemma obj_get_rev_NoDup o k :
  NoDup (map fst o) -> obj_get (rev o) k = obj_get o k.
Proof.
  intros ND. destruct (obj_get o k) as [v|] eqn:E.
  - apply obj_get_NoDup_In.
    + rewrite map_rev. apply NoDup_rev, ND.
    + rewrite <- in_rev. now apply obj_get_In.
  - apply obj_get_None. rewrite map_rev, <- in_rev. now apply obj_get_None.
Qed.

Lemma In_keys_set k v o k' :
  In k' (map fst (obj_set k v o)) <-> k' = k \/ In k' (map fst o).
Proof.
  rewrite <- !obj_has_true. unfold obj_has. rewrite obj_get_set.
  destruct (String.eqb_spec k k') as [->|N].
  - intuition.
  - destruct (obj_get o k'); intuition congruence.
Qed.


Lemma obj_get_app (l1 l2 : list (string * V)) k :
  obj_get (l1 ++ l2)%list k =
  match obj_get l1 k with Some v => Some v | None => obj_get l2 k end.
Proof.
  induction l1 as [|[k1 v1] l1 IH]; simpl; [reflexivity|].
  now destruct (String.eqb k1 k).
Qed.

Lemma In_obj_replace e k v o :
  In e (obj_replace k v o) -> e = (k, v) \/ In e o.
Proof.
  induction o as [|[k0 v0] r IH]; simpl; [tauto|].
  destruct (String.eqb_spec k0 k) as [->|N]; simpl; intuition.
Qed.

Lemma In_obj_insert e k v o :
  In e (obj_insert k v o) -> e = (k, v) \/ In e o.
Proof.
  induction o as [|[k0 v0] r IH]; simpl; [intuition|].
  destruct (key_before k k0); simpl; intuition.
Qed.

Lemma In_obj_set e k v o :
  In e (obj_set k v o) -> e = (k, v) \/ In e o.
Proof.
  unfold obj_set. destruct (obj_has o k);
    [apply In_obj_replace | apply In_obj_insert].
Qed.

Lemma In_obj_assign e es o :
  In e (obj_assign o es) -> In e o \/ In e es.
Proof.
  unfold obj_assign. revert o. induction es as [|x r IH]; simpl; intros o H.
  - auto.
  - apply IH in H. destruct H as [H|H]; [|auto].
    apply In_obj_set in H. destruct H as [->|H]; [|auto].
    right. left. now destruct x.
Qed.

(** In an object without duplicate keys a key has one value. *)
Lemma In_obj_set_same k v v' o :
  NoDup (map fst o) -> In (k, v') (obj_set k v o) -> v' = v.
Proof.
  intros ND I.
  apply obj_get_NoDup_In in I; [|now apply NoDup_keys_set].
  rewrite obj_get_set_eq in I. now inversion I.
Qed.

End PropertyFacts.

(** ** Objects *)

(** Copying an object with a spread keeps every property. *)
Lemma obj_get_copy o k :
  NoDup (map fst o) -> obj_get (obj_spread [] (VObj o)) k = obj_get o k.
Proof.
  intros ND. unfold obj_spread. simpl. rewrite obj_get_assign. simpl.
  rewrite obj_get_rev_NoDup by exact ND. now destruct (obj_get o k).
Qed.

Lemma NoDup_keys_spread o v :
  NoDup (map fst o) -> NoDup (map fst (obj_spread o v)).
Proof. apply NoDup_keys_assign. Qed.

Lemma In_obj_spread e v :
  In e (obj_spread [] v) -> In e (own_entries v).
Proof.
  intros H. apply In_obj_assign in H. destruct H as [[]|H]. exact H.
Qed.

Lemma obj_at_In o k :
  obj_at o k = VUndef \/ In (k, obj_at o k) o.
Proof.
  unfold obj_at. destruct (obj_get o k) eqn:E; [|auto].
  right. now apply obj_get_In.
Qed.

Lemma In_props_get_prop_opt v k e :
  In e (own_entries (get_prop_opt v k)) ->
  In (k, get_prop_opt v k) (own_entries v).
Proof.
  destruct v; simpl; try tauto.
  destruct (obj_at_In o k) as [U|I]; [rewrite U; simpl; tauto | auto].
Qed.

(** ** Validation *)

(** Once the callback has answered [true], [some] looks no further. *)
Lemma some_entries_first_accepted f name x rest :
  f name x = Ok true -> some_entries f ((name, x) :: rest) = Ok true.
Proof. intros H. simpl. now rewrite H. Qed.

(** A validator never answers [false]: it returns [true] or throws. *)
Lemma validateCommand_Ok name command b :
  validateCommand name command = Ok b -> b = true.
Proof.
  unfold validateCommand. intros H.
  repeat (inv_bind H). now inversion H.
Qed.

Lemma validateGroup_Ok name group b :
  validateGroup name group = Ok b -> b = true.
Proof.
  unfold validateGroup. intros H.
  repeat (inv_bind H). now inversion H.
Qed.

(** So each [some] loop consults its first entry only. *)
Lemma some_entries_validateCommand name x rest :
  some_entries validateCommand ((name, x) :: rest) =
  (b <- validateCommand name x ;; Ok true).
Proof.
  simpl. destruct (validateCommand name x) as [b|e] eqn:E; simpl; [|reflexivity].
  apply validateCommand_Ok in E. now subst.
Qed.

Lemma some_entries_validateGroup name x rest :
  some_entries validateGroup ((name, x) :: rest) =
  (b <- validateGroup name x ;; Ok true).
Proof.
  simpl. destruct (validateGroup name x) as [b|e] eqn:E; simpl; [|reflexivity].
  apply validateGroup_Ok in E. now subst.
Qed.

(** A command whose shortcut is not a string never passes [validateCommand]. *)
Lemma validateCommand_rejects_shortcut name command :
  typeof (get_prop_opt command "shortcut") <> "string" ->
  exists e, validateCommand name command = Throw e.
Proof.
  intros H. destruct (validateCommand name command) as [b|e] eqn:E; [|eauto].
  exfalso. unfold validateCommand in E.
  repeat (inv_bind E).
  match goal with
  | G : get_prop command "shortcut" = Ok ?v,
    A : assert_equal (typeof ?v) _ CommandShortcut _ = Ok _ |- _ =>
      unfold assert_equal in A;
      destruct (String.eqb_spec (typeof v) "string") as [T|T]; [|discriminate];
      apply H; destruct command; simpl in G; try discriminate;
      inversion G; subst; exact T
  end.
Qed.

(** So a cycle whose first composed command has such a shortcut fails
    validation. *)
Lemma validate_rejects_first_shortcut composed name command rest :
  composed.(p_command) = Some ((name, command) :: rest) ->
  typeof (get_prop_opt command "shortcut") <> "string" ->
  exists e, validate composed = Throw e.
Proof.
  intros C T. unfold validate. rewrite C.
  change (object_entries (or_undefined (Some ((name, command) :: rest))))
    with (Ok ((name, command) :: rest)).
  destruct (validateCommand_rejects_shortcut name command T) as (e & E).
  exists e. simpl. now rewrite E.
Qed.

(** ** The handler *)

(** C1: validation is meant to gate every published command, but the cycle
    below publishes a registry whose second command has a number for a
    shortcut, a command that [validateCommand] itself rejects. *)
Theorem composeCommands_publishes_unchecked_command :
  let cycle := composeCommands
                 [ moduleDeclaring ("a", validCommand) ("b", numericShortcut) ]
                 (init VUndef) in
  fst cycle = Published /\
  obj_get (snd cycle).(commands) "b" = Some numericShortcut /\
  validateCommand "b" numericShortcut = Throw (AssertionError CommandShortcut "b").
Proof. vm_compute. repeat split. Qed.

(** C2: when validation throws, the handler returns normally, the error
    having been caught and logged, and the command table, the removal list
    and the group table are empty, whatever they held before. *)
Theorem validation_error_abandons_cycle modules s raw composed e :
  collect modules = Ok raw ->
  pipe [composeCommand; composeRemove; composeGroup] (initialState raw) = Ok composed ->
  validate composed = Throw e ->
  exists s',
    composeCommands modules s = (Abandoned e, s') /\
    s'.(commands) = [] /\ s'.(removes) = [] /\ s'.(groups) = [].
Proof.
  intros Hc Hp Hv. unfold composeCommands. rewrite Hc, Hp, Hv.
  eexists. repeat split.
Qed.

Lemma validation_error_abandons_cycle_witness :
  exists s',
    composeCommands
      [ moduleDeclaring ("b", numericShortcut) ("a", validCommand) ] earlierState
    = (Abandoned (AssertionError CommandShortcut "b"), s') /\
    s'.(commands) = [] /\ s'.(removes) = [] /\ s'.(groups) = [].
Proof.
  eapply validation_error_abandons_cycle.
  - vm_compute. reflexivity.
  - vm_compute. reflexivity.
  - vm_compute. reflexivity.
Defined.

(** *** The process-wide [modals] field *)

Lemma composeCommand_modal st st' :
  composeCommand st = Ok st' -> st'.(p_modal) = st.(p_modal).
Proof.
  unfold composeCommand. intros H. inv_bind H. now inversion H.
Qed.

Lemma composeRemove_modal st st' :
  composeRemove st = Ok st' -> st'.(p_modal) = st.(p_modal).
Proof.
  unfold composeRemove. intros H. inv_bind H. now inversion H.
Qed.

Lemma composeGroup_modal st st' :
  composeGroup st = Ok st' -> st'.(p_modal) = st.(p_modal).
Proof.
  unfold composeGroup. intros H. inv_bind H. now inversion H.
Qed.

Lemma pipeline_leaves_modal raw composed :
  pipe [composeCommand; composeRemove; composeGroup] (initialState raw) = Ok composed ->
  composed.(p_modal) = None.
Proof.
  unfold pipe. simpl. intros H.
  destruct (composeCommand (initialState raw)) as [a|] eqn:A; [|discriminate].
  simpl in H.
  destruct (composeRemove a) as [b|] eqn:B; [|discriminate]. simpl in H.
  destruct (composeGroup b) as [c|] eqn:C; [|discriminate]. simpl in H.
  inversion H; subst.
  rewrite (composeGroup_modal _ _ C), (composeRemove_modal _ _ B),
    (composeCommand_modal _ _ A).
  reflexivity.
Qed.

(** Had [composeModal] been one of the stages, it would have contributed
    the empty object. *)
Lemma composeModal_modal st st' :
  composeModal st = Ok st' -> st'.(p_modal) = Some [].
Proof.
  unfold composeModal. intros H. inv_bind H. inversion H; subst; clear H. simpl.
  f_equal.
  assert (G : forall l acc r, foldM formatModals l acc = Ok r -> r = acc).
  { induction l as [|f l IH]; simpl; intros acc r H.
    - now inversion H.
    - inv_bind H. unfold formatModals in E0. inv_bind E0.
      inversion E0; subst. eauto. }
  eapply G; eauto.
Qed.

(** C10, as the code has it: a cycle that publishes leaves [self.modals]
    undefined, since no stage of the pipeline sets [modal]; a cycle abandoned
    on a validation error leaves the empty object assigned when the cycle
    began; an error that leaves the handler does so with that empty object
    in place or, when the collector raised it, with the state untouched. *)
Theorem modals_after_cycle modules s :
  match fst (composeCommands modules s) with
  | Published => (snd (composeCommands modules s)).(modals) = VUndef
  | Abandoned _ => (snd (composeCommands modules s)).(modals) = VObj []
  | Propagated _ =>
      (snd (composeCommands modules s)).(modals) = VObj [] \/
      snd (composeCommands modules s) = s
  end.
Proof.
  unfold composeCommands.
  destruct (collect modules) as [raw|e]; simpl; [|now right].
  destruct (pipe _ _) as [composed|e] eqn:P; simpl; [|now left].
  destruct (validate composed); simpl; [|reflexivity].
  unfold or_undefined. now rewrite (pipeline_leaves_modal _ _ P).
Qed.

(** C10 as stated fails: after the abandoned cycle below [self.modals] is
    the empty object, not [undefined]. *)
Lemma modals_after_abandoned_cycle :
  ~ (forall modules s, (snd (composeCommands modules s)).(modals) = VUndef).
Proof.
  intros H.
  specialize (H [ moduleDeclaring ("b", numericShortcut) ("a", validCommand) ]
                (init VUndef)).
  vm_compute in H. discriminate.
Qed.

(** The resolver never reads [self.modals]. *)
Lemma getVisible_ignores_modals can s m req :
  getVisible can
    (mkSelf s.(rawCommands) s.(removes) s.(commands) s.(groups) m s.(components_the))
    req
  = getVisible can s req.
Proof. reflexivity. Qed.

(** ** Add-merge *)

Lemma get_prop_readable v k :
  nullish v = false -> get_prop v k = Ok (get_prop_opt v k).
Proof. destruct v; simpl; intros H; try discriminate; reflexivity. Qed.

Lemma NoDup_keys_mergeCommand acc command :
  NoDup (map fst (mergeCommand acc command)).
Proof.
  unfold mergeCommand. apply NoDup_keys_spread, NoDup_keys_spread. constructor.
Qed.

Lemma obj_get_mergeCommand acc command k :
  NoDup (map fst acc) ->
  obj_get (mergeCommand acc command) k =
  match obj_get (rev (own_entries command)) k with
  | Some v => Some v
  | None => obj_get acc k
  end.
Proof.
  intros ND. unfold mergeCommand, obj_spread at 1.
  rewrite obj_get_assign, obj_get_copy by exact ND. reflexivity.
Qed.

Lemma obj_get_fold_mergeCommand cs acc k :
  NoDup (map fst acc) ->
  obj_get (fold_left mergeCommand cs acc) k =
  match obj_get (rev (flat_map own_entries cs)) k with
  | Some v => Some v
  | None => obj_get acc k
  end.
Proof.
  revert acc. induction cs as [|c cs IH]; simpl; intros acc ND; [reflexivity|].
  rewrite IH by apply NoDup_keys_mergeCommand.
  rewrite rev_app_distr, obj_get_app, obj_get_mergeCommand by exact ND.
  now destruct (obj_get (rev (flat_map own_entries cs)) k).
Qed.

Lemma composeCommand_readable raw :
  readable_fragments raw = true ->
  composeCommand (initialState raw) =
  Ok (mkPipeline raw
        (Some (fold_left mergeCommand
                 (filter truthy
                    (array_concat (map (fun f => get_prop_opt f "add") raw))) []))
        None None None).
Proof.
  intros R. unfold composeCommand. simpl.
  rewrite (mapM_total _ (fun f => get_prop_opt f "add")); [reflexivity|].
  intros f I. apply get_prop_readable.
  unfold readable_fragments in R. rewrite forallb_forall in R.
  specialize (R f I). now destruct (nullish f).
Qed.

Lemma merged_entries raw :
  flat_map own_entries
    (filter truthy (array_concat (map (fun f => get_prop_opt f "add") raw)))
  = flat_map added_entries raw.
Proof.
  unfold array_concat, added_entries.
  induction raw as [|f raw IH]; simpl; [reflexivity|].
  rewrite filter_app, flat_map_app, IH. reflexivity.
Qed.

(** C6: add-merge is last-writer-wins.  When fragment [f] declares command
    [c] under the name [x] and no later fragment declares [x], the composed
    table holds exactly [c] at [x], nothing of earlier declarations of [x]
    being merged into it. *)
Theorem add_merge_last_writer_wins raw before f after o x c :
  readable_fragments raw = true ->
  raw = (before ++ f :: after)%list ->
  get_prop f "add" = Ok (VObj o) ->
  NoDup (map fst o) ->
  obj_get o x = Some c ->
  (forall g, In g after -> ~ In x (map fst (added_entries g))) ->
  exists st table,
    composeCommand (initialState raw) = Ok st /\
    st.(p_command) = Some table /\
    obj_get table x = Some c.
Proof.
  intros R -> A ND G Later.
  rewrite (composeCommand_readable _ R).
  eexists. eexists. split; [reflexivity|]. split; [reflexivity|].
  rewrite obj_get_fold_mergeCommand by constructor.
  rewrite merged_entries, flat_map_app. simpl.
  rewrite !rev_app_distr, !obj_get_app.
  assert (N : obj_get (rev (flat_map added_entries after)) x = None).
  { apply obj_get_None. rewrite map_rev, <- in_rev.
    rewrite flat_map_concat_map, concat_map, map_map.
    intros I. apply in_concat in I. destruct I as (l & Il & Ix).
    apply in_map_iff in Il. destruct Il as (g & <- & Ig).
    exact (Later g Ig Ix). }
  rewrite N.
  assert (F : added_entries f = o).
  { unfold added_entries. destruct f; simpl in A; try discriminate.
    inversion A as [A']. simpl. rewrite A'. simpl. apply app_nil_r. }
  rewrite F, obj_get_rev_NoDup, G by exact ND. reflexivity.
Qed.

(** The example of the specification, for arbitrary commands [A] and [B]. *)
Lemma add_merge_example A B :
  composeCommand (initialState [ addFragment "x" A; addFragment "x" B ]) =
  Ok (mkPipeline [ addFragment "x" A; addFragment "x" B ]
        (Some [ ("x", B) ]) None None None).
Proof. reflexivity. Qed.

Lemma add_merge_last_writer_wins_witness :
  exists st table,
    composeCommand
      (initialState [ addFragment "x" validCommand; addFragment "x" numericShortcut ])
    = Ok st /\
    st.(p_command) = Some table /\
    obj_get table "x" = Some numericShortcut.
Proof.
  apply (add_merge_last_writer_wins
           [ addFragment "x" validCommand; addFragment "x" numericShortcut ]
           [ addFragment "x" validCommand ] (addFragment "x" numericShortcut) []
           [ ("x", numericShortcut) ] "x" numericShortcut).
  - reflexivity.
  - reflexivity.
  - reflexivity.
  - repeat constructor. simpl. tauto.
  - reflexivity.
  - intros g [].
Defined.

(** ** Group-merge *)

Lemma merged_table_empty : merged_table [].
Proof. split; [constructor | discriminate]. Qed.

Lemma mergeGroup_step groups name attributes :
  merged_table groups ->
  nullish attributes = false ->
  exists groups',
    mergeGroup groups (name, attributes) = Ok groups' /\
    merged_table groups' /\
    obj_get groups' name =
      Some (merged_group (accumulated_fields groups name) [attributes]) /\
    forall g, g <> name -> obj_get groups' g = obj_get groups g.
Proof.
  intros [ND Arr] NN. unfold mergeGroup.
  rewrite (get_prop_readable _ _ NN). simpl.
  assert (P : js_or (get_prop_opt (obj_at groups name) "fields") (VArr []) =
              VArr (accumulated_fields groups name)).
  { unfold accumulated_fields, obj_at.
    destruct (obj_get groups name) as [v|] eqn:G; [|reflexivity].
    destruct (Arr _ _ G) as (o & l & -> & F). simpl. unfold obj_at.
    rewrite F. reflexivity. }
  rewrite P. simpl. eexists. split; [reflexivity|].
  split; [|split].
  - split.
    + apply NoDup_keys_set, NoDup_keys_spread. constructor.
    + intros g v. rewrite obj_get_set.
      destruct (String.eqb_spec name g) as [->|N].
      * intros E. inversion E; subst. eexists. eexists. split; [reflexivity|].
        apply obj_get_set_eq.
      * rewrite obj_get_copy by exact ND. apply Arr.
  - rewrite obj_get_set_eq. unfold merged_group, contributed_fields. simpl.
    rewrite app_nil_r. reflexivity.
  - intros g N. rewrite obj_get_set_neq by congruence.
    apply obj_get_copy, ND.
Qed.

Lemma accumulated_merged_group previous cs groups g :
  obj_get groups g = Some (merged_group previous cs) ->
  accumulated_fields groups g = (previous ++ flat_map contributed_fields cs)%list.
Proof.
  intros G. unfold accumulated_fields, obj_at. rewrite G.
  unfold merged_group. simpl. unfold obj_at. now rewrite obj_get_set_eq.
Qed.

(** The whole fold, from any accumulator: a group with contributions holds
    the accumulated fields followed by every contributed sequence in order,
    on the attributes of its last contribution. *)
Lemma foldM_mergeGroup es : forall groups,
  merged_table groups ->
  forallb (fun e => negb (nullish (snd e))) es = true ->
  exists groups',
    foldM mergeGroup es groups = Ok groups' /\
    merged_table groups' /\
    forall g,
      obj_get groups' g =
      match map snd (filter (fun e => String.eqb (fst e) g) es) with
      | [] => obj_get groups g
      | cs => Some (merged_group (accumulated_fields groups g) cs)
      end.
Proof.
  induction es as [|[name attributes] es IH]; intros groups M R.
  - exists groups. simpl. auto.
  - simpl in R. apply andb_true_iff in R. destruct R as [NN R].
    apply negb_true_iff in NN.
    destruct (mergeGroup_step groups name attributes M NN)
      as (g1 & S1 & M1 & Here & Else).
    destruct (IH g1 M1 R) as (g2 & S2 & M2 & Spec).
    exists g2. rewrite foldM_cons, S1. simpl bind. split; [exact S2|].
    split; [exact M2|]. intros g. rewrite Spec. simpl.
    destruct (String.eqb_spec name g) as [->|N]; simpl.
    + destruct (map snd (filter (fun e => String.eqb (fst e) g) es))
        as [|c cs] eqn:C.
      * exact Here.
      * rewrite (accumulated_merged_group _ _ _ _ Here).
        unfold merged_group. simpl flat_map at 1. rewrite app_nil_r, <- app_assoc.
        reflexivity.
    + destruct (map snd (filter (fun e => String.eqb (fst e) g) es)) as [|c cs].
      * apply Else. congruence.
      * unfold accumulated_fields, obj_at. rewrite Else by congruence. reflexivity.
Qed.

Lemma foldM_app {A B} (f : A -> B -> result A) l1 l2 a a1 :
  foldM f l1 a = Ok a1 -> foldM f (l1 ++ l2)%list a = foldM f l2 a1.
Proof.
  revert a. induction l1 as [|x l1 IH]; simpl; intros a H.
  - now inversion H.
  - inv_bind H. rewrite E. simpl. auto.
Qed.

Lemma foldM_formatGroups raw : forall groups groups',
  forallb (fun fragment =>
             negb (nullish fragment)
             && negb (nullish (get_prop_opt fragment "group"))) raw = true ->
  foldM mergeGroup (flat_map group_entries raw) groups = Ok groups' ->
  foldM formatGroups raw groups = Ok groups'.
Proof.
  induction raw as [|f raw IH]; simpl; intros groups groups' R H; [exact H|].
  apply andb_true_iff in R. destruct R as [Rf R].
  apply andb_true_iff in Rf. destruct Rf as [Nf Ng].
  apply negb_true_iff in Nf, Ng.
  unfold formatGroups at 1. rewrite (get_prop_readable _ _ Nf). simpl.
  unfold object_entries. rewrite Ng. simpl.
  fold (group_entries f).
  destruct (foldM mergeGroup (group_entries f) groups) as [g1|e] eqn:E.
  - simpl. apply IH; [exact R|].
    now rewrite <- (foldM_app _ _ _ _ _ E).
  - exfalso. clear - E H. revert groups E H.
    induction (group_entries f) as [|x l IHl]; simpl; intros groups E H.
    + discriminate.
    + destruct (mergeGroup groups x); simpl in *; [eauto | discriminate].
Qed.

(** X17: group-merge.  For fragments [composeGroup] can read, a group name
    [g] with contributions [cs] (in collector order) ends up as the
    attributes of the last contribution with [fields] replaced by the
    concatenation of every contributed [fields] sequence, earlier ones
    first. *)
Theorem group_merge_concatenates raw g cs :
  readable_groups raw = true ->
  contributions raw g = cs ->
  cs <> [] ->
  exists st table merged,
    composeGroup (initialState raw) = Ok st /\
    st.(p_group) = Some table /\
    obj_get table g = Some (VObj merged) /\
    merged = obj_set "fields" (VArr (flat_map contributed_fields cs))
               (obj_spread [] (last cs VUndef)) /\
    obj_get merged "fields" = Some (VArr (flat_map contributed_fields cs)) /\
    forall k, k <> "fields" ->
      obj_get merged k = obj_get (obj_spread [] (last cs VUndef)) k.
Proof.
  intros R C NE. unfold readable_groups in R.
  assert (R1 : forallb (fun fragment =>
                          negb (nullish fragment)
                          && negb (nullish (get_prop_opt fragment "group"))) raw
               = true).
  { rewrite forallb_forall in *. intros f I. specialize (R f I).
    apply andb_true_iff in R. tauto. }
  assert (R2 : forallb (fun e => negb (nullish (snd e)))
                 (flat_map group_entries raw) = true).
  { rewrite forallb_forall in *. intros e I. apply in_flat_map in I.
    destruct I as (f & If & Ie). specialize (R f If).
    apply andb_true_iff in R. destruct R as [_ R].
    rewrite forallb_forall in R. auto. }
  destruct (foldM_mergeGroup _ [] merged_table_empty R2) as (table & F & _ & Spec).
  apply (foldM_formatGroups _ _ _ R1) in F.
  unfold composeGroup. simpl. rewrite F. simpl.
  eexists. exists table. eexists. split; [reflexivity|]. split; [reflexivity|].
  specialize (Spec g). unfold contributions in C. rewrite C in Spec.
  destruct cs as [|c cs]; [congruence|].
  split; [exact Spec|]. split; [reflexivity|]. split.
  - apply obj_get_set_eq.
  - intros k N. apply obj_get_set_neq. congruence.
Qed.

(** When every contribution carries an array, what is appended is the
    arrays themselves. *)
Lemma contributed_fields_arrays cs ls :
  Forall2 (fun c l => get_prop_opt c "fields" = VArr l) cs ls ->
  flat_map contributed_fields cs = List.concat ls.
Proof.
  induction 1 as [|c l cs ls E _ IH]; simpl; [reflexivity|].
  unfold contributed_fields at 1. rewrite E. simpl. now rewrite IH.
Qed.

(** The example of the specification. *)
Lemma group_merge_example :
  composeGroup
    (initialState [ groupFragment "g" "L1" [ VStr "a" ];
                    groupFragment "g" "L2" [ VStr "b" ] ]) =
  Ok (mkPipeline [ groupFragment "g" "L1" [ VStr "a" ];
                   groupFragment "g" "L2" [ VStr "b" ] ]
        None None
        (Some [ ("g", VObj [ ("label", VStr "L2");
                             ("fields", VArr [ VStr "a"; VStr "b" ]) ]) ])
        None).
Proof. vm_compute. reflexivity. Qed.

Lemma group_merge_concatenates_witness :
  exists st table merged,
    composeGroup
      (initialState [ groupFragment "g" "L1" [ VStr "a" ];
                      groupFragment "g" "L2" [ VStr "b" ] ]) = Ok st /\
    st.(p_group) = Some table /\
    obj_get table "g" = Some (VObj merged) /\
    merged = [ ("label", VStr "L2"); ("fields", VArr [ VStr "a"; VStr "b" ]) ] /\
    obj_get merged "fields" = Some (VArr [ VStr "a"; VStr "b" ]) /\
    forall k, k <> "fields" ->
      obj_get merged k = obj_get [ ("label", VStr "L2"); ("fields", VArr [ VStr "b" ]) ] k.
Proof.
  apply (group_merge_concatenates
           [ groupFragment "g" "L1" [ VStr "a" ]; groupFragment "g" "L2" [ VStr "b" ] ]
           "g"
           [ VObj [ ("label", VStr "L1"); ("fields", VArr [ VStr "a" ]) ];
             VObj [ ("label", VStr "L2"); ("fields", VArr [ VStr "b" ]) ] ]).
  - reflexivity.
  - reflexivity.
  - discriminate.
Defined.

(** C7: group-merge does not go through for every fragment sequence.  A
    fragment that declares no [group] makes [composeGroup] raise a
    [TypeError] ([Object.entries] of [undefined]), also when the fragments
    around it declare the same group twice; on the same fragments
    [composeCommand] and [composeRemove], which filter out what a fragment
    does not declare, return the table of commands and the empty removal
    list. *)
Theorem composeGroup_throws_without_group :
  composeGroup (initialState fragmentWithoutGroup) = Throw TypeError /\
  composeCommand (initialState fragmentWithoutGroup)
  = Ok (mkPipeline fragmentWithoutGroup (Some [ ("x", validCommand) ])
          None None None) /\
  composeRemove (initialState fragmentWithoutGroup)
  = Ok (mkPipeline fragmentWithoutGroup None (Some []) None None).
Proof. repeat split; vm_compute; reflexivity. Qed.

(** ** The permission filter *)

(** C4, as the code has it: a command whose [permission] is absent or
    otherwise falsy passes unconditionally; any other command passes iff the
    oracle grants [permission.action] on [permission.type] in the mode
    [permission.mode], or in the mode [draft] when [permission.mode] is absent
    or otherwise falsy (null, the empty string, zero, false). *)
Theorem isCommandVisible_permission can req command :
  nullish command = false ->
  let permission := get_prop_opt command "permission" in
  let action := get_prop_opt permission "action" in
  let type := get_prop_opt permission "type" in
  let mode := get_prop_opt permission "mode" in
  (truthy permission = false -> isCommandVisible can req command = Ok true) /\
  (truthy permission = true -> truthy mode = true ->
   isCommandVisible can req command = Ok (can req action type mode)) /\
  (truthy permission = true -> truthy mode = false ->
   isCommandVisible can req command = Ok (can req action type (VStr "draft"))).
Proof.
  intros NN. unfold isCommandVisible.
  rewrite (get_prop_readable _ _ NN). simpl.
  destruct (truthy (get_prop_opt command "permission")) eqn:T.
  - assert (NP : nullish (get_prop_opt command "permission") = false)
      by (destruct (get_prop_opt command "permission"); simpl in *; congruence).
    rewrite !(get_prop_readable _ _ NP). simpl. unfold js_or.
    repeat split; try discriminate; intros _ M; now rewrite M.
  - repeat split; try discriminate; reflexivity.
Qed.

Lemma isCommandVisible_permission_witness :
  nullish emptyModeCommand = false /\
  isCommandVisible draftOnly editor emptyModeCommand
  = Ok (draftOnly editor (VStr "edit") (VStr "article") (VStr "draft")).
Proof.
  split; [reflexivity|].
  apply (isCommandVisible_permission draftOnly editor emptyModeCommand eq_refl);
    reflexivity.
Defined.

(** C4 as stated fails: with the empty string for [permission.mode] the
    mode is present, so the oracle would be asked about it and refuse, yet
    the code asks about [draft] and lets the command through. *)
Lemma isCommandVisible_empty_mode :
  isCommandVisible draftOnly editor emptyModeCommand = Ok true /\
  spec_isCommandVisible draftOnly editor emptyModeCommand = false.
Proof. split; reflexivity. Qed.

(** ** The client payload *)




Lemma Forall2_In_r {A B} (R : A -> B -> Prop) l l' y :
  Forall2 R l l' -> In y l' -> exists x, In x l /\ R x y.
Proof.
  induction 1 as [|a b l l' Hab F IH]; simpl; [tauto|].
  intros [<-|I]; [eauto|]. destruct (IH I) as (x & Ix & Rx). eauto.
Qed.

Lemma foldM_Ok_In {A B} (f : A -> B -> result A) l x : forall a r,
  foldM f l a = Ok r -> In x l -> exists a0 a1, f a0 x = Ok a1.
Proof.
  induction l as [|y l IH]; simpl; intros a r H I; [tauto|].
  inv_bind H. destruct I as [->|I]; eauto.
Qed.

(** An invariant of a fold that may throw. *)
Lemma foldM_invariant {A B} (f : A -> B -> result A) (P : A -> Prop) l :
  (forall a x a', In x l -> P a -> f a x = Ok a' -> P a') ->
  forall a r, P a -> foldM f l a = Ok r -> P r.
Proof.
  induction l as [|y l IH]; simpl; intros Step a r Pa H.
  - now inversion H; subst.
  - inv_bind H. eapply IH; [intros; eapply Step; eauto | | exact H].
    eapply Step; eauto.
Qed.

(** ** The visible command table *)

Lemma visibleCommand_Some can s req e p :
  visibleCommand can s req e = Ok (Some p) ->
  p = e /\ includes_str s.(removes) (fst e) = false /\
  isCommandVisible can req (snd e) = Ok true.
Proof.
  destruct e as [key command]. unfold visibleCommand. simpl.
  destruct (includes_str (removes s) key); simpl; [discriminate|].
  destruct (isCommandVisible can req command) as [[|]|]; simpl;
    intros H; inversion H; auto.
Qed.

Lemma In_fromEntries e es :
  In e (fromEntries es) -> exists y, In y es /\ entry_pair y = e.
Proof.
  intros H. apply In_obj_assign in H. destruct H as [[]|H].
  apply in_map_iff in H. destruct H as (y & <- & I). eauto.
Qed.

(** An entry of the filtered table is a visible command, or the property
    [undefined] that [Object.fromEntries] reads off an empty pair. *)
Lemma visibleCommands_entry can s req cmds k v :
  visibleCommands can s req = Ok cmds ->
  In (k, v) cmds ->
  visible_command can s req k v \/ (k = "undefined" /\ v = VUndef).
Proof.
  unfold visibleCommands. intros H I. inv_bind H. inversion H; subst; clear H.
  apply In_fromEntries in I. destruct I as (y & Iy & P).
  apply mapM_Ok_Forall2 in E.
  destruct (Forall2_In_r _ _ _ _ E Iy) as (e & Ie & V).
  destruct y as [p|]; simpl in P.
  - apply visibleCommand_Some in V. destruct V as (-> & R & C). subst e.
    left. repeat split; assumption.
  - inversion P. auto.
Qed.


(** ** The group view *)

Lemma keys_include_Some keys field f :
  keys_include keys field = Some f -> field = VStr f /\ In f keys.
Proof.
  unfold keys_include. destruct field; try discriminate.
  destruct (existsb (String.eqb s) keys) eqn:E; [|discriminate].
  intros H. inversion H; subst. split; [reflexivity|].
  apply existsb_exists in E. destruct E as (x & I & Q).
  apply String.eqb_eq in Q. now subst.
Qed.

Lemma pickField_In commands acc field e :
  In e (pickField commands acc field) -> In e acc \/ In e commands.
Proof.
  unfold pickField.
  destruct (keys_include (object_keys commands) field) as [f|] eqn:K; [|auto].
  apply keys_include_Some in K. destruct K as [_ I].
  intros H. apply In_obj_set in H. destruct H as [->|H].
  - right. apply obj_has_true in I. unfold obj_has, obj_at in *.
    destruct (obj_get commands f) eqn:G; [|discriminate].
    now apply obj_get_In.
  - left. apply In_obj_spread in H. exact H.
Qed.

Lemma reduceFields_In commands declared fields e :
  reduceFields commands declared = Ok fields -> In e fields -> In e commands.
Proof.
  unfold reduceFields. destruct declared; try discriminate.
  intros H. inversion H; subst; clear H.
  assert (G : forall acc,
             (forall x, In x acc -> In x commands) ->
             In e (fold_left (pickField commands) l acc) -> In e commands).
  { induction l as [|f l IH]; simpl; intros acc A I; [auto|].
    apply (IH (pickField commands acc f)); [|exact I].
    intros x Ix. apply pickField_In in Ix. destruct Ix; auto. }
  apply G. intros x [].
Qed.

Lemma visibleGroup_over commands e key group :
  visibleGroup commands e = Ok (Some (key, group)) ->
  key = fst e /\ over commands group.
Proof.
  destruct e as [k g]. unfold visibleGroup. intros H.
  inv_bind H. inv_bind H.
  destruct (Nat.eqb (List.length x0) 0); inversion H; subst; clear H.
  split; [reflexivity|].
  intros fields name c F I. simpl in F.
  apply In_obj_set_same in F; [|apply NoDup_keys_spread; constructor].
  subst fields. simpl in I. eapply reduceFields_In; eauto.
Qed.

(** The table built by the [map], [filter] and [Object.fromEntries] that
    both views start with. *)
Lemma visible_groups_entry commands gs es g group :
  mapM (visibleGroup commands) gs = Ok es ->
  In (g, group) (fromEntries (filter nonempty es)) ->
  over commands group.
Proof.
  intros M I. apply In_fromEntries in I. destruct I as (y & Iy & P).
  apply filter_In in Iy. destruct Iy as [Iy NE].
  destruct y as [p|]; [|discriminate]. simpl in P. subst p.
  apply mapM_Ok_Forall2 in M.
  destruct (Forall2_In_r _ _ _ _ M Iy) as (e & _ & V).
  now apply visibleGroup_over in V.
Qed.

(** ** The modal view *)

Lemma to_string_Ok v k :
  to_string v = Ok k -> convertible v = true /\ k = toString v.
Proof.
  unfold to_string. destruct (convertible v); intros H; inversion H; auto.
Qed.

Lemma to_string_Throw v e : to_string v = Throw e -> e = TypeError.
Proof.
  unfold to_string. destruct (convertible v); intros H; now inversion H.
Qed.

(** A step of the [forEach] that returns: the command has a modal key, and
    the accumulator is assigned under it. *)
Lemma fileCommand_Ok key group acc name field acc' :
  fileCommand key group acc (name, field) = Ok acc' ->
  nullish field = false /\
  convertible (js_or (get_prop_opt field "modal") VNull) = true /\
  acc' =
  obj_set (modal_key field)
    (VObj
       (obj_set key
          (VObj
             (obj_set "fields"
                (VObj
                   (obj_set name field
                      (obj_spread []
                         (get_prop_opt
                            (get_prop_opt (obj_at acc (modal_key field)) key)
                            "fields"))))
                (obj_spread []
                   (js_or (get_prop_opt (obj_at acc (modal_key field)) key)
                      group))))
          (obj_spread [] (obj_at acc (modal_key field)))))
    acc.
Proof.
  intros H. unfold fileCommand in H. inv_bind H. inv_bind H.
  inversion H; subst; clear H.
  assert (NN : nullish field = false)
    by (destruct field; simpl in *; congruence).
  rewrite (get_prop_readable _ _ NN) in E. inversion E; subst x; clear E.
  apply to_string_Ok in E0. destruct E0 as [C ->].
  repeat split; auto.
Qed.



(** A modal view that is returned was built by the fold, and none of its
    names is one [Object.prototype] defines. *)
Lemma getVisibleModals_fold s commands es modals :
  mapM (visibleGroup commands) s.(groups) = Ok es ->
  getVisibleModals s commands = Ok modals ->
  foldM fileGroup (fromEntries (filter nonempty es)) [] = Ok modals /\
  own_only modals = true.
Proof.
  unfold getVisibleModals. intros E H. rewrite E in H. simpl in H.
  inv_bind H. destruct (own_only x) eqn:O; inversion H; subst. auto.
Qed.

Lemma getVisibleModals_Ok s commands modals :
  getVisibleModals s commands = Ok modals ->
  exists es,
    mapM (visibleGroup commands) s.(groups) = Ok es /\
    foldM fileGroup (fromEntries (filter nonempty es)) [] = Ok modals /\
    own_only modals = true.
Proof.
  intros H. destruct (mapM (visibleGroup commands) (groups s)) as [es|e] eqn:E.
  - exists es. split; [reflexivity|]. eapply getVisibleModals_fold; eauto.
  - unfold getVisibleModals in H. rewrite E in H. discriminate H.
Qed.

(** The two samples with a name of [Object.prototype] in the modal view:
    the program returns a view for them that the embedding does not
    follow, so the model returns none. *)
Lemma inherited_names_are_not_followed :
  getVisible allowAll modalNamedProto editor = Throw Inherited /\
  getVisible allowAll groupNamedConstructor editor = Throw Inherited.
Proof. split; vm_compute; reflexivity. Qed.

(** A view that is returned has no such name in it. *)
Lemma getVisible_own_only can s req out :
  getVisible can s req = Ok out -> own_only out.(v_modals) = true.
Proof.
  unfold getVisible. intros H. inv_bind H. inv_bind H. inv_bind H.
  inversion H; subst out; clear H. simpl.
  match goal with
  | G : getVisibleModals _ _ = Ok _ |- _ =>
      apply getVisibleModals_Ok in G; destruct G as (es & _ & _ & O)
  end.
  exact O.
Qed.



Lemma group_entry_chain groups g name c :
  group_entry groups g name = Some c ->
  exists group fields,
    In (g, group) groups /\
    get_prop_opt group "fields" = fields /\
    In ("fields", fields) (own_entries group) /\
    In (name, c) (own_entries fields).
Proof.
  unfold group_entry. intros H. apply obj_get_In in H.
  set (group := obj_at groups g) in *.
  set (fields := get_prop_opt group "fields") in *.
  assert (I0 : In (name, c) (own_entries fields))
    by (destruct fields; simpl in *; tauto).
  pose proof (In_props_get_prop_opt _ _ _ I0) as I1. fold fields in I1.
  exists group, fields. repeat split; try assumption.
  destruct (obj_at_In groups g) as [U|J]; [|exact J].
  fold group in U. rewrite U in I1. destruct I1.
Qed.

(** When the modal view is built, every field of every visible group is a
    real value: [field.modal] was read on each. *)
Lemma filed_groups_are_values groups g group name c : forall acc modals,
  foldM fileGroup groups acc = Ok modals ->
  In (g, group) groups ->
  In (name, c) (own_entries (get_prop_opt group "fields")) ->
  nullish c = false.
Proof.
  intros acc modals H Ig Ic.
  destruct (foldM_Ok_In _ _ _ _ _ H Ig) as (a0 & a1 & F).
  unfold fileGroup in F. inv_bind F. inv_bind F.
  assert (NG : nullish group = false)
    by (destruct group; simpl in *; congruence).
  rewrite (get_prop_readable _ _ NG) in E. inversion E; subst x; clear E.
  unfold object_entries in E0.
  destruct (nullish (get_prop_opt group "fields")); [discriminate|].
  inversion E0; subst x0; clear E0.
  destruct (foldM_Ok_In _ _ _ _ _ F Ic) as (b0 & b1 & C).
  unfold fileCommand in C. inv_bind C.
  destruct c; simpl in *; congruence.
Qed.

(** ** What the resolver returns *)






(** ** The resolver returns on a readable registry *)

Lemma mapM_returns {A B} (f : A -> result B) l :
  (forall x, In x l -> exists y, f x = Ok y) -> exists ys, mapM f l = Ok ys.
Proof.
  induction l as [|x l IH]; simpl; intros H; [eauto|].
  destruct (H x) as (y & E); [now left|]. rewrite E. simpl.
  destruct IH as (ys & Es); [intros; apply H; now right|].
  rewrite Es. simpl. eauto.
Qed.

Lemma foldM_returns {A B} (f : A -> B -> result A) l :
  (forall a x, In x l -> exists a', f a x = Ok a') ->
  forall a, exists r, foldM f l a = Ok r.
Proof.
  induction l as [|x l IH]; simpl; intros H a; [eauto|].
  destruct (H a x) as (a' & E); [now left|]. rewrite E. simpl.
  apply IH. intros; apply H; now right.
Qed.

Lemma isCommandVisible_returns can req command :
  nullish command = false -> exists b, isCommandVisible can req command = Ok b.
Proof.
  intros NN.
  destruct (isCommandVisible_permission can req command NN) as (A & B & C).
  destruct (truthy (get_prop_opt command "permission")) eqn:T; [|eauto].
  destruct (truthy (get_prop_opt (get_prop_opt command "permission") "mode")) eqn:M;
    eauto.
Qed.

Lemma includes_str_In xs key : includes_str xs key = true <-> In (VStr key) xs.
Proof.
  unfold includes_str. rewrite existsb_exists. split.
  - intros (v & I & E). destruct v; try discriminate.
    apply String.eqb_eq in E. now subst.
  - intros I. exists (VStr key). split; [exact I | apply String.eqb_refl].
Qed.

(** A field picked for a group is listed by the group. *)
Lemma reduceFields_listed commands l fields k v :
  reduceFields commands (VArr l) = Ok fields ->
  In (k, v) fields -> In (VStr k) l.
Proof.
  simpl. intros H. inversion H; subst; clear H.
  assert (G : forall acc,
             In (k, v) (fold_left (pickField commands) l acc) ->
             In (k, v) acc \/ In (VStr k) l).
  { induction l as [|f l IH]; simpl; intros acc I; [auto|].
    apply IH in I. destruct I as [I|I]; [|auto].
    unfold pickField in I.
    destruct (keys_include (object_keys commands) f) as [n|] eqn:K; [|auto].
    apply keys_include_Some in K. destruct K as [-> _].
    apply In_obj_set in I. destruct I as [Q|I].
    - inversion Q; subst. auto.
    - left. now apply In_obj_spread in I. }
  intros I. destruct (G [] I) as [[]|J]. exact J.
Qed.

(** No name in the accumulator is one [Object.prototype] defines. *)
Lemma own_only_spec acc :
  own_only acc = true <->
  forall m byGroup,
    In (m, byGroup) acc ->
    inherited m = false /\
    forall g shell, In (g, shell) (own_entries byGroup) -> inherited g = false.
Proof.
  unfold own_only. rewrite forallb_forall. split.
  - intros H m byGroup I. specialize (H _ I). simpl in H.
    apply andb_true_iff in H. destruct H as [Hm Hg].
    apply negb_true_iff in Hm. split; [exact Hm|].
    intros g shell Ig. rewrite forallb_forall in Hg.
    specialize (Hg _ Ig). now apply negb_true_iff in Hg.
  - intros H [m byGroup] I. destruct (H _ _ I) as [Hm Hg]. simpl.
    rewrite Hm. simpl. apply forallb_forall. intros [g shell] Ig.
    simpl. now rewrite (Hg _ _ Ig).
Qed.

Lemma fileCommand_own_only key group acc name field acc' :
  inherited key = false ->
  inherited (modal_key field) = false ->
  own_only acc = true ->
  fileCommand key group acc (name, field) = Ok acc' ->
  own_only acc' = true.
Proof.
  intros Hk Hm Inv H. apply fileCommand_Ok in H. destruct H as (_ & _ & ->).
  rewrite own_only_spec in *. intros m byGroup I.
  apply In_obj_set in I. destruct I as [Q|I]; [|eauto].
  inversion Q; subst m byGroup; clear Q. split; [exact Hm|].
  intros g shell Ig. simpl in Ig. apply In_obj_set in Ig.
  destruct Ig as [Q|Ig]; [now inversion Q; subst|].
  apply In_obj_spread in Ig.
  destruct (obj_at_In acc (modal_key field)) as [U|J].
  - rewrite U in Ig. destruct Ig.
  - destruct (Inv _ _ J) as [_ Hg]. eauto.
Qed.

Lemma getVisible_returns can s req :
  resolvable s = true -> exists out, getVisible can s req = Ok out.
Proof.
  unfold resolvable. intros R. apply andb_true_iff in R. destruct R as [Rc Rg].
  rewrite forallb_forall in Rc, Rg.
  assert (Rc' : forall name c,
             In (name, c) s.(commands) ->
             nullish c = false /\
             convertible (js_or (get_prop_opt c "modal") VNull) = true /\
             inherited (modal_key c) = false).
  { intros name c I. specialize (Rc _ I). simpl in Rc.
    apply andb_true_iff in Rc. destruct Rc as [Rc R3].
    apply andb_true_iff in Rc. destruct Rc as [R1 R2].
    apply negb_true_iff in R1, R3. auto. }
  (* the filtered command table *)
  destruct (mapM_returns (visibleCommand can s req) s.(commands)) as (ces & Ec).
  { intros [key command] I. unfold visibleCommand.
    destruct (includes_str (removes s) key); simpl; [eauto|].
    destruct (Rc' _ _ I) as (NN & _).
    destruct (isCommandVisible_returns can req command NN) as (b & ->).
    simpl. eauto. }
  assert (Hc : visibleCommands can s req = Ok (fromEntries ces))
    by (unfold visibleCommands; now rewrite Ec).
  set (cmds := fromEntries ces) in *.
  (* the table of groups *)
  destruct (mapM_returns (visibleGroup cmds) s.(groups)) as (ges & Eg).
  { intros [key group] I. specialize (Rg _ I). simpl in Rg.
    apply andb_true_iff in Rg. destruct Rg as [_ Rg].
    unfold visibleGroup.
    destruct group; simpl in Rg; try discriminate. simpl.
    destruct (obj_at o "fields"); try discriminate. simpl. eauto. }
  (* every group of the table holds commands of the registry *)
  assert (Fine : forall g group,
             In (g, group) (fromEntries (filter nonempty ges)) ->
             inherited g = false /\
             exists fields,
               get_prop group "fields" = Ok (VObj fields) /\
               forall name field,
                 In (name, field) fields -> In (name, field) s.(commands)).
  { intros g group I.
    apply In_fromEntries in I. destruct I as (y & Iy & P).
    apply filter_In in Iy. destruct Iy as [Iy NE].
    destruct y as [p|]; simpl in P; [subst p | discriminate NE].
    destruct (Forall2_In_r _ _ _ _ (mapM_Ok_Forall2 _ _ _ Eg) Iy)
      as ([key0 group0] & I0 & V).
    specialize (Rg _ I0). simpl in Rg.
    apply andb_true_iff in Rg. destruct Rg as [Rk Rg].
    apply negb_true_iff in Rk. unfold visibleGroup in V.
    destruct group0 as [| | | | | |o0]; simpl in Rg; try discriminate.
    simpl in V. destruct (obj_at o0 "fields") as [| | | | |l|] eqn:F;
      try discriminate.
    apply negb_true_iff in Rg.
    destruct (reduceFields cmds (VArr l)) as [fields|] eqn:Rf; [|discriminate].
    simpl in V.
    destruct (Nat.eqb (List.length fields) 0); inversion V; subst; clear V.
    split; [exact Rk|]. exists fields. split.
    - simpl. unfold obj_at. now rewrite obj_get_set_eq.
    - intros name field If.
      pose proof (reduceFields_In _ _ _ _ Rf If) as Ic.
      pose proof (reduceFields_listed _ _ _ _ _ Rf If) as Il.
      destruct (visibleCommands_entry _ _ _ _ _ _ Hc Ic) as [(Is & _)|[-> _]].
      + exact Is.
      + apply includes_str_In in Il. simpl in Rg. congruence. }
  (* the modal view *)
  destruct (foldM_returns fileGroup (fromEntries (filter nonempty ges))) with (a := @nil (string * value))
    as (ms & Em).
  { intros acc [g group] I. destruct (Fine _ _ I) as (_ & fields & Ef & Sub).
    unfold fileGroup. rewrite Ef. simpl.
    apply foldM_returns. intros b [name field] If.
    destruct (Rc' _ _ (Sub _ _ If)) as (NN & Cv & _).
    unfold fileCommand. rewrite (get_prop_readable _ _ NN). simpl.
    unfold to_string. rewrite Cv. simpl. eauto. }
  assert (Om : own_only ms = true).
  { revert Em.
    apply (foldM_invariant fileGroup (fun acc => own_only acc = true));
      [|reflexivity].
    intros a [g group] a' I Pa Step.
    destruct (Fine _ _ I) as (Hg & fields & Ef & Sub).
    unfold fileGroup in Step. rewrite Ef in Step. simpl in Step.
    revert Step.
    apply (foldM_invariant (fileCommand g group)
             (fun acc => own_only acc = true)); [|exact Pa].
    intros b [name field] b' If Pb Step.
    destruct (Rc' _ _ (Sub _ _ If)) as (_ & _ & Hm).
    exact (fileCommand_own_only g group b name field b' Hg Hm Pb Step). }
  exists (mkView (fromEntries (filter nonempty ges)) ms).
  unfold getVisible. rewrite Hc. simpl.
  unfold getVisibleGroups, getVisibleModals. rewrite Eg. simpl.
  rewrite Em. simpl. now rewrite Om.
Qed.

(** So an authenticated request on such a registry does get its payload. *)
Lemma getBrowserData_returns can s req :
  resolvable s = true ->
  truthy req.(user) = true ->
  (truthy s.(components_the) = true -> is_string s.(components_the) = true) ->
  exists visible the,
    getVisible can s req = Ok visible /\
    getBrowserData can s req =
    Ok (VObj [ ("components", VObj [ ("the", VStr the) ]);
               ("groups", VObj visible.(v_groups));
               ("modals", VObj visible.(v_modals)) ]).
Proof.
  intros R U C. destruct (getVisible_returns can s req R) as (visible & V).
  exists visible. unfold getBrowserData. rewrite U, V. simpl. unfold js_or.
  destruct (truthy (components_the s)) eqn:T.
  - specialize (C eq_refl). destruct (components_the s); try discriminate.
    eexists. split; reflexivity.
  - eexists. split; reflexivity.
Qed.

(** * Facts about the store *)

(** ** Induction on values *)

Lemma value_ind' (Q : value -> Prop) :
  Q VUndef -> Q VNull -> (forall b, Q (VBool b)) -> (forall n, Q (VNum n)) ->
  (forall s, Q (VStr s)) ->
  (forall l, Forall Q l -> Q (VArr l)) ->
  (forall o, Forall (fun p => Q (snd p)) o -> Q (VObj o)) ->
  forall v, Q v.
Proof.
  intros HU HN HB HZ HS HA HO. fix IH 1. intros [| |b|n|s|l|o].
  - exact HU.
  - exact HN.
  - apply HB.
  - apply HZ.
  - apply HS.
  - apply HA. induction l as [|x l IHl]; constructor; [apply IH | exact IHl].
  - apply HO. induction o as [|p o IHo]; constructor; [apply IH | exact IHo].
Qed.

(** ** Related property lists *)

Section RelatedProperties.

Context {V W : Type} (R : V -> W -> Prop).
Implicit Types (ho hes : list (string * V)) (o es : list (string * W)).

Lemma rel_props_keys ho o : rel_props R ho o -> map fst ho = map fst o.
Proof.
  induction 1 as [|p q ho o [K _] _ IH]; simpl; [reflexivity|]. now rewrite K, IH.
Qed.

Lemma rel_props_length ho o : rel_props R ho o -> List.length ho = List.length o.
Proof. apply Forall2_length. Qed.

Lemma rel_obj_get ho o k :
  rel_props R ho o ->
  match obj_get ho k, obj_get o k with
  | Some x, Some y => R x y
  | None, None => True
  | _, _ => False
  end.
Proof.
  induction 1 as [|[k1 x] [k2 y] ho o [K Rxy] _ IH]; simpl in *; [exact I|].
  subst k2. destruct (String.eqb k1 k); [exact Rxy | exact IH].
Qed.

Lemma rel_obj_has ho o k : rel_props R ho o -> obj_has ho k = obj_has o k.
Proof.
  intros H. pose proof (rel_obj_get ho o k H) as G. unfold obj_has.
  destruct (obj_get ho k), (obj_get o k); tauto.
Qed.

Lemma rel_obj_replace ho o k x y :
  rel_props R ho o -> R x y -> rel_props R (obj_replace k x ho) (obj_replace k y o).
Proof.
  intros H Rxy.
  induction H as [|[k1 x1] [k2 y1] ho o [K R1] F IH]; simpl in *; [constructor|].
  subst k2. destruct (String.eqb k1 k).
  - constructor; [simpl; auto | exact F].
  - constructor; [simpl; auto | exact IH].
Qed.

Lemma rel_obj_insert ho o k x y :
  rel_props R ho o -> R x y -> rel_props R (obj_insert k x ho) (obj_insert k y o).
Proof.
  intros H Rxy.
  induction H as [|[k1 x1] [k2 y1] ho o [K R1] F IH]; simpl in *.
  - constructor; [simpl; auto | constructor].
  - subst k2. destruct (key_before k k1).
    + constructor; [simpl; auto|]. constructor; [simpl; auto | exact F].
    + constructor; [simpl; auto | exact IH].
Qed.

Lemma rel_obj_set ho o k x y :
  rel_props R ho o -> R x y -> rel_props R (obj_set k x ho) (obj_set k y o).
Proof.
  intros H Rxy. unfold obj_set. rewrite (rel_obj_has ho o k H).
  destruct (obj_has o k); [now apply rel_obj_replace | now apply rel_obj_insert].
Qed.

Lemma rel_obj_assign hes es : forall ho o,
  rel_props R ho o -> rel_props R hes es ->
  rel_props R (obj_assign ho hes) (obj_assign o es).
Proof.
  unfold obj_assign. intros ho o H E. revert ho o H.
  induction E as [|p q hes es [K Rpq] _ IH]; simpl; intros ho o H; [exact H|].
  apply IH. rewrite K. now apply rel_obj_set.
Qed.

Lemma rel_indexed_from (xs : list V) (ys : list W) : forall i,
  Forall2 R xs ys -> rel_props R (indexed_from i xs) (indexed_from i ys).
Proof.
  intros i H. revert i.
  induction H as [|x y xs ys Rxy _ IH]; simpl; intros i; [constructor|].
  constructor; [split; [reflexivity | exact Rxy] | apply IH].
Qed.

Lemma rel_props_nil : rel_props R [] [].
Proof. constructor. Qed.

End RelatedProperties.

(** ** Reading represented values *)

(** Representation survives any change of the store that keeps the cells
    it reads. *)
Lemma repr_map (P Q : loc -> Prop) (h h' : heap) :
  (forall l c, P l -> nth_error h l = Some c -> Q l /\ nth_error h' l = Some c) ->
  forall x v, repr P h v x -> repr Q h' v x.
Proof.
  intros K x. induction x as [| | | | |l IH|o IH] using value_ind';
    intros v H; inversion H; subst; try constructor.
  - destruct (K _ _ H1 H2) as [Ql N].
    apply repr_arr with hs; auto. clear - IH H4.
    revert IH. induction H4; intros IH; constructor; inversion IH; subst; auto.
  - destruct (K _ _ H1 H2) as [Ql N].
    apply repr_obj with ho; auto. clear - IH H4.
    revert IH. induction H4 as [|p q ho o [E Rp] _ IHF]; intros IH;
      constructor; inversion IH; subst; auto.
Qed.

Lemma repr_anywhere P h v x : repr P h v x -> repr anywhere h v x.
Proof. apply repr_map. unfold anywhere. auto. Qed.

Lemma repr_preserved P h h' v x :
  preserved h h' -> repr P h v x -> repr P h' v x.
Proof. intros K. apply repr_map. auto. Qed.

Section Reading.

Variable P : loc -> Prop.
Variable h : heap.

Lemma repr_truthy v x : repr P h v x -> truthy_h v = truthy x.
Proof. destruct 1; reflexivity. Qed.

Lemma repr_nullish v x : repr P h v x -> nullish_h v = nullish x.
Proof. destruct 1; reflexivity. Qed.

Lemma repr_js_or a b x y :
  repr P h a x -> repr P h b y -> repr P h (js_or_h a b) (js_or x y).
Proof.
  intros Ha Hb. unfold js_or_h, js_or. rewrite (repr_truthy _ _ Ha).
  now destruct (truthy x).
Qed.

Lemma repr_obj_at ho o k :
  rel_props (repr P h) ho o -> repr P h (obj_at_h ho k) (obj_at o k).
Proof.
  intros H. pose proof (rel_obj_get _ ho o k H) as G. unfold obj_at_h, obj_at.
  destruct (obj_get ho k), (obj_get o k); try tauto. constructor.
Qed.

Lemma repr_own_entries v x :
  repr P h v x -> rel_props (repr P h) (own_entries_h h v) (own_entries x).
Proof.
  destruct 1; simpl; try apply rel_props_nil.
  - apply rel_indexed_from. induction (chars s); constructor; auto. constructor.
  - rewrite H0. now apply rel_indexed_from.
  - now rewrite H0.
Qed.

Lemma repr_get_prop_opt v x k :
  repr P h v x -> repr P h (get_prop_opt_h v k h) (get_prop_opt x k).
Proof.
  destruct 1; simpl; try constructor.
  - rewrite H0. constructor.
  - rewrite H0. now apply repr_obj_at.
Qed.

Lemma repr_get_prop v x k :
  repr P h v x -> result_rel (repr P h) (get_prop_h v k h) (get_prop x k).
Proof.
  destruct 1; simpl; try constructor.
  - rewrite H0. constructor.
  - rewrite H0. now apply repr_obj_at.
Qed.

Lemma repr_object_entries v x :
  repr P h v x ->
  result_rel (rel_props (repr P h)) (object_entries_h v h) (object_entries x).
Proof.
  intros H. unfold object_entries_h, object_entries.
  rewrite (repr_nullish _ _ H). destruct (nullish x); simpl; [reflexivity|].
  now apply repr_own_entries.
Qed.

Lemma repr_elements v xs :
  repr P h v (VArr xs) ->
  exists hs, elements_h v h = Ok hs /\ Forall2 (repr P h) hs xs.
Proof.
  intros H. inversion H; subst. simpl. rewrite H2. eauto.
Qed.

Lemma repr_includes_str hs xs key :
  Forall2 (repr P h) hs xs -> includes_str_h hs key = includes_str xs key.
Proof.
  unfold includes_str_h, includes_str.
  induction 1 as [|v x hs xs Hv _ IH]; simpl; [reflexivity|].
  rewrite IH. now destruct Hv.
Qed.

Lemma repr_keys_include keys v x :
  repr P h v x -> keys_include_h keys v = keys_include keys x.
Proof. destruct 1; reflexivity. Qed.

End Reading.

(** ** Depth *)

Lemma depth_element x l : In x l -> depth x < depth (VArr l).
Proof.
  simpl. induction l as [|y l IH]; simpl; [tauto|].
  intros [->|I]; [lia|]. specialize (IH I). lia.
Qed.

Lemma depth_property (p : string * value) o : In p o -> depth (snd p) < depth (VObj o).
Proof.
  simpl. induction o as [|q o IH]; simpl; [tauto|].
  intros [->|I]; [lia|]. specialize (IH I). lia.
Qed.

Lemma depth_get_prop_opt v k : depth (get_prop_opt v k) <= depth v.
Proof.
  destruct v; simpl; try lia. destruct (obj_at_In o k) as [U|I].
  - rewrite U. simpl. lia.
  - apply (depth_property _ _) in I. simpl in I. lia.
Qed.

(** With enough fuel [reify] reads back exactly what the store stands for. *)
Lemma reify_repr P h fuel : forall x v,
  repr P h v x -> depth x <= fuel -> reify fuel h v = x.
Proof.
  induction fuel as [|n IH]; intros x v H D.
  - destruct H; simpl in D; try reflexivity; lia.
  - destruct H; try reflexivity.
    + simpl reify. rewrite H0. f_equal.
      assert (B : forall y, In y xs -> depth y <= n).
      { intros y I. apply depth_element in I. lia. }
      clear - H1 B IH. induction H1 as [|v x hs xs Hv _ IHF]; simpl; [reflexivity|].
      f_equal; [apply IH; auto; apply B; now left|].
      apply IHF. intros y I. apply B. now right.
    + simpl reify. rewrite H0. f_equal.
      assert (B : forall q, In q o -> depth (snd q) <= n).
      { intros q I. apply depth_property in I. lia. }
      clear - H1 B IH.
      induction H1 as [|p q ho o [E Hv] _ IHF]; simpl; [reflexivity|].
      f_equal.
      * destruct q as [k x]. simpl in *. rewrite E. f_equal.
        apply IH; auto. apply (B (k, x)). now left.
      * apply IHF. intros y I. apply B. now right.
Qed.

(** ** Stepping through code over the store *)

Lemma nth_error_alloc (h : heap) c :
  nth_error (h ++ [c])%list (List.length h) = Some c.
Proof. rewrite nth_error_app2, Nat.sub_diag by lia. reflexivity. Qed.

Lemma preserved_alloc (h : heap) c : preserved h (h ++ [c])%list.
Proof.
  intros l x H. rewrite nth_error_app1; [exact H|].
  apply nth_error_Some. congruence.
Qed.

Lemma foldM_pure {A B} (g : A -> B -> A) l : forall a,
  foldM (fun a x => Ok (g a x)) l a = Ok (fold_left g l a).
Proof. induction l as [|x l IH]; simpl; intros a; [reflexivity | apply IH]. Qed.

Section Stepping.

Context `{D : discipline} {L : lawful D}.

Lemma rel_props_moves h h' ho o :
  moves h h' -> rel_props (repr allowed h) ho o -> rel_props (repr allowed h') ho o.
Proof.
  intros Mv H. induction H as [|p q ho o [K Rp] _ IH]; constructor; auto.
  split; [exact K | eapply moves_repr; eauto].
Qed.

Lemma Forall2_repr_moves h h' hs xs :
  moves h h' -> Forall2 (repr allowed h) hs xs -> Forall2 (repr allowed h') hs xs.
Proof.
  intros Mv H. induction H; constructor; auto. eapply moves_repr; eauto.
Qed.

Lemma stores_moves h h' this s :
  moves h h' -> stores allowed h this s -> stores allowed h' this s.
Proof.
  intros Mv (o & R & H). exists o. split; [eapply moves_repr; eauto | exact H].
Qed.

Lemma sim_ret {A B} (R : heap -> A -> B -> Prop) h x y :
  R h x y -> sim R h (ret x) (Ok y).
Proof. intros H _. simpl. split; [apply moves_refl | exact H]. Qed.

Lemma sim_throw {A B} (R : heap -> A -> B -> Prop) h (m : M A) e :
  m h = (Throw e, h) -> sim R h m (Throw e).
Proof. intros E _. rewrite E. simpl. split; [apply moves_refl | reflexivity]. Qed.

Lemma sim_bind {A B A' B'} (R : heap -> A -> A' -> Prop)
  (R' : heap -> B -> B' -> Prop) h m p k k' :
  sim R h m p ->
  (forall h' x y, moves h h' -> R h' x y -> sim R' h' (k x) (k' y)) ->
  sim R' h (bindM m k) (bind p k').
Proof.
  intros Hm Hk Rd. specialize (Hm Rd). unfold bindM.
  destruct (m h) as [[x|e] h1]; simpl in Hm; destruct Hm as [Mv Hm];
    destruct p as [y|e']; simpl; try contradiction.
  - assert (Rd1 : ready h1) by (eapply moves_ready; eauto).
    destruct (Hk h1 x y Mv Hm Rd1) as [Mv' Hr].
    split; [eapply moves_trans; eauto | exact Hr].
  - auto.
Qed.

(** A read leaves the store as it is. *)
Lemma sim_look {A B C} (R : heap -> B -> C -> Prop) h (f : heap -> A) k p :
  sim R h (k (f h)) p -> sim R h (bindM (look f) k) p.
Proof. intros H. exact H. Qed.

Lemma sim_lift {A B A' B'} (Q : A -> A' -> Prop) (R : heap -> B -> B' -> Prop)
  h (f : heap -> result A) p k k' :
  result_rel Q (f h) p ->
  (forall x y, Q x y -> sim R h (k x) (k' y)) ->
  sim R h (bindM (lift f) k) (bind p k').
Proof.
  intros Hf Hk Rd. unfold bindM, lift. cbv beta.
  destruct (f h) as [x|e], p as [y|e']; simpl in *; try contradiction.
  - exact (Hk x y Hf Rd).
  - subst e'. split; [apply moves_refl | reflexivity].
Qed.

(** An allocation moves on to the store with one more cell. *)
Lemma sim_alloc {B C} (R : heap -> B -> C -> Prop) h c k p :
  (moves h (h ++ [c])%list -> allowed (List.length h) ->
   sim R (h ++ [c])%list (k (HRef (List.length h))) p) ->
  sim R h (bindM (alloc c) k) p.
Proof.
  intros H Rd. destruct (ready_alloc h c Rd) as [Mv Al].
  assert (Rd' : ready (h ++ [c])%list) by (eapply moves_ready; eauto).
  destruct (H Mv Al Rd') as [Mv' Hr]. unfold bindM, alloc.
  split; [eapply moves_trans; eauto | exact Hr].
Qed.

(** The object an object literal allocates stands for the object built
    from related properties. *)
Lemma repr_alloc h ho o :
  allowed (List.length h) -> moves h (h ++ [CObj ho])%list ->
  rel_props (repr allowed h) ho o ->
  repr allowed (h ++ [CObj ho])%list (HRef (List.length h)) (VObj o).
Proof.
  intros Al Mv H. apply repr_obj with ho; [exact Al | apply nth_error_alloc |].
  eapply rel_props_moves; eauto.
Qed.

Lemma sim_mapM {A B A' B'} (Rin : heap -> A -> A' -> Prop)
  (Rout : heap -> B -> B' -> Prop) f f' :
  (forall h h' x y, moves h h' -> Rin h x y -> Rin h' x y) ->
  (forall h h' x y, moves h h' -> Rout h x y -> Rout h' x y) ->
  forall xs ys h,
    Forall2 (Rin h) xs ys ->
    (forall h' x y, moves h h' -> In y ys -> Rin h' x y ->
                    sim Rout h' (f x) (f' y)) ->
    sim (fun h' => Forall2 (Rout h')) h (mapMh f xs) (mapM f' ys).
Proof.
  intros MonIn MonOut xs.
  induction xs as [|x xs IH]; intros ys h F Step; inversion F; subst; simpl.
  - apply sim_ret. constructor.
  - eapply sim_bind.
    + apply Step; [apply moves_refl | now left | eassumption].
    + intros h1 b b' Mv1 Rb. eapply sim_bind.
      * apply IH.
        -- clear - MonIn Mv1 H3. induction H3; constructor; eauto.
        -- intros h2 x2 y2 Mv2 I2 R2. apply Step; auto.
           ++ eapply moves_trans; eauto.
           ++ now right.
      * intros h2 bs bs' Mv2 Rbs. apply sim_ret. constructor; eauto.
Qed.

Lemma sim_foldM {A B A' B'} (Rin : heap -> B -> B' -> Prop)
  (Racc : heap -> A -> A' -> Prop) f f' :
  (forall h h' x y, moves h h' -> Rin h x y -> Rin h' x y) ->
  forall xs ys h a a',
    Forall2 (Rin h) xs ys ->
    Racc h a a' ->
    (forall h' x y b b', moves h h' -> In y ys -> Rin h' x y -> Racc h' b b' ->
                         sim Racc h' (f b x) (f' b' y)) ->
    sim Racc h (foldMh f xs a) (foldM f' ys a').
Proof.
  intros MonIn xs. induction xs as [|x xs IH]; intros ys h a a' F Ra Step;
    inversion F; subst; simpl.
  - apply sim_ret. exact Ra.
  - eapply sim_bind.
    + apply Step; [apply moves_refl | now left | eassumption | exact Ra].
    + intros h1 b b' Mv1 Rb. apply IH.
      * clear - MonIn Mv1 H3. induction H3; constructor; eauto.
      * exact Rb.
      * intros h2 x2 y2 c c' Mv2 I2 R2 Rc. apply Step; auto.
        -- eapply moves_trans; eauto.
        -- now right.
Qed.

End Stepping.

(** ** The resolver over the store follows the resolver over values *)

Section FollowingCommands.

Context `{D : discipline} {L : lawful D}.

Lemma sim_look_ret {A B} (R : heap -> A -> B -> Prop) h (f : heap -> A) y :
  R h (f h) y -> sim R h (look f) (Ok y).
Proof. intros H _. simpl. split; [apply moves_refl | exact H]. Qed.

(** A read whose counterpart is not a step of its own. *)
Lemma sim_lift_Ok {A B C} (R : heap -> B -> C -> Prop) h
  (f : heap -> result A) x k p :
  f h = Ok x -> sim R h (k x) p -> sim R h (bindM (lift f) k) p.
Proof. intros E H Rd. unfold bindM, lift. rewrite E. exact (H Rd). Qed.

Lemma sim_lift_Throw {A B C} (R : heap -> B -> C -> Prop) h
  (f : heap -> result A) e k :
  f h = Throw e -> sim R h (bindM (lift f) k) (Throw e).
Proof.
  intros E Rd. unfold bindM, lift. rewrite E. simpl.
  split; [apply moves_refl | reflexivity].
Qed.

Lemma sim_alloc_ret h ho o :
  rel_props (repr allowed h) ho o ->
  sim (fun h' v y => repr allowed h' v (VObj y)) h (alloc (CObj ho)) (Ok o).
Proof.
  intros H Rd. destruct (ready_alloc h (CObj ho) Rd) as [Mv Al].
  unfold alloc. simpl. split; [exact Mv | now apply repr_alloc].
Qed.

Lemma repr_get_prop_depth h v x k n :
  repr allowed h v x -> depth x <= n ->
  result_rel (fun v' x' => repr allowed h v' x' /\ depth x' <= n)
    (get_prop_h v k h) (get_prop x k).
Proof.
  intros H Dx. pose proof (repr_get_prop _ _ _ _ k H) as G.
  destruct (get_prop_h v k h) as [v'|e], (get_prop x k) as [x'|e'] eqn:E;
    simpl in *; try contradiction; [|exact G].
  split; [exact G|].
  assert (x' = get_prop_opt x k)
    by (destruct x; simpl in *; congruence).
  subst x'. pose proof (depth_get_prop_opt x k). lia.
Qed.

Lemma stores_get h this s :
  stores allowed h this s ->
  exists r c g,
    get_prop_h this "removes" h = Ok r /\ repr allowed h r (VArr s.(removes)) /\
    get_prop_h this "commands" h = Ok c /\ repr allowed h c (VObj s.(commands)) /\
    get_prop_h this "groups" h = Ok g /\ repr allowed h g (VObj s.(groups)).
Proof.
  intros (o & R & Er & Ec & Eg).
  pose proof (repr_get_prop _ _ _ _ "removes" R) as Gr.
  pose proof (repr_get_prop _ _ _ _ "commands" R) as Gc.
  pose proof (repr_get_prop _ _ _ _ "groups" R) as Gg.
  simpl in Gr, Gc, Gg. rewrite Er in Gr. rewrite Ec in Gc. rewrite Eg in Gg.
  destruct (get_prop_h this "removes" h) as [r|]; [|contradiction].
  destruct (get_prop_h this "commands" h) as [c|]; [|contradiction].
  destruct (get_prop_h this "groups" h) as [g|]; [|contradiction].
  exists r, c, g. simpl in *. auto 10.
Qed.

Lemma rel_entry_moves h h' e e' :
  moves h h' -> rel_entry allowed h e e' -> rel_entry allowed h' e e'.
Proof.
  intros Mv. destruct e, e'; simpl; auto.
  intros [K R]. split; [exact K | eapply moves_repr; eauto].
Qed.

Lemma rel_pair_moves h h' p q :
  moves h h' -> rel_pair allowed h p q -> rel_pair allowed h' p q.
Proof.
  intros Mv [K R]. split; [exact K | eapply moves_repr; eauto].
Qed.

Lemma rel_fromEntries h es es' :
  Forall2 (rel_entry allowed h) es es' ->
  rel_props (repr allowed h) (fromEntries_h es) (fromEntries es').
Proof.
  intros F. unfold fromEntries_h, fromEntries.
  apply rel_obj_assign; [constructor|].
  induction F as [|e e' es es' He _ IH]; simpl; constructor; [|exact IH].
  destruct e as [p|], e' as [q|]; simpl in *; try contradiction; auto.
  split; [reflexivity | constructor].
Qed.

Lemma rel_filter_nonempty h es es' :
  Forall2 (rel_entry allowed h) es es' ->
  Forall2 (rel_entry allowed h) (filter nonempty_h es) (filter nonempty es').
Proof.
  induction 1 as [|e e' es es' He _ IH]; simpl; [constructor|].
  destruct e, e'; simpl in *; try contradiction; auto.
Qed.

Section Commands.

Variable can : request -> value -> value -> value -> bool.
Variable fuel : nat.
Variable this : hval.
Variable s : self.
Variable req : request.

Lemma sim_isCommandVisible h command x :
  repr allowed h command x -> depth x <= fuel ->
  sim (fun _ b b' => b = b') h
    (isCommandVisible_h can fuel req command) (isCommandVisible can req x).
Proof.
  intros R Dx. unfold isCommandVisible_h, isCommandVisible.
  eapply sim_lift; [apply (repr_get_prop_depth _ _ _ _ _ R Dx)|].
  intros p px [Rp Dp]. cbv beta. rewrite (repr_truthy _ _ _ _ Rp).
  destruct (truthy px); [|now apply sim_ret].
  eapply sim_lift; [apply (repr_get_prop_depth _ _ _ _ _ Rp Dp)|].
  intros a ax [Ra Da]. cbv beta.
  eapply sim_lift; [apply (repr_get_prop_depth _ _ _ _ _ Rp Dp)|].
  intros t tx [Rt Dt]. cbv beta.
  eapply sim_lift; [apply (repr_get_prop_depth _ _ _ _ _ Rp Dp)|].
  intros m mx [Rm Dm]. cbv beta.
  apply sim_look_ret.
  assert (Rd : repr allowed h (js_or_h m (HStr "draft")) (js_or mx (VStr "draft")))
    by (apply repr_js_or; [exact Rm | constructor]).
  assert (Dd : depth (js_or mx (VStr "draft")) <= fuel)
    by (unfold js_or; destruct (truthy mx); simpl; lia).
  rewrite (reify_repr _ _ _ _ _ Ra Da), (reify_repr _ _ _ _ _ Rt Dt),
    (reify_repr _ _ _ _ _ Rd Dd).
  reflexivity.
Qed.

Lemma sim_visibleCommand h e y :
  stores allowed h this s ->
  rel_pair allowed h e y -> depth (snd y) <= fuel ->
  sim (rel_entry allowed) h
    (visibleCommand_h can fuel this req e) (visibleCommand can s req y).
Proof.
  intros St [K R] Dy. destruct e as [key command], y as [key' x].
  simpl in K, R, Dy. subst key'. unfold visibleCommand_h, visibleCommand.
  destruct (stores_get _ _ _ St) as (r & c & g & Gr & Rr & _).
  eapply sim_lift_Ok; [exact Gr|].
  destruct (repr_elements _ _ _ _ Rr) as (hs & Eh & Fh).
  eapply sim_lift_Ok; [exact Eh|].
  rewrite (repr_includes_str _ _ _ _ key Fh).
  destruct (includes_str (removes s) key); simpl; [now apply sim_ret|].
  eapply sim_bind; [apply sim_isCommandVisible; eauto|].
  intros h' b b' Mv <-. apply sim_ret.
  destruct b; simpl; [|exact I]. split; [reflexivity | eapply moves_repr; eauto].
Qed.

Lemma sim_visibleCommands h :
  stores allowed h this s ->
  Forall (fun e => depth (snd e) <= fuel) s.(commands) ->
  sim (fun h' v cmds => repr allowed h' v (VObj cmds)) h
    (visibleCommands_h can fuel this req) (visibleCommands can s req).
Proof.
  intros St Dc. unfold visibleCommands_h, visibleCommands.
  destruct (stores_get _ _ _ St) as (r & c & g & _ & _ & Gc & Rc & _).
  eapply sim_lift_Ok; [exact Gc|].
  pose proof (repr_object_entries _ _ _ _ Rc) as Ge. simpl in Ge.
  destruct (object_entries_h c h) as [entries|] eqn:Ee; [|contradiction].
  eapply sim_lift_Ok; [exact Ee|].
  eapply sim_bind.
  - apply (sim_mapM (rel_pair allowed) (rel_entry allowed)).
    + intros; eapply rel_pair_moves; eauto.
    + intros; eapply rel_entry_moves; eauto.
    + exact Ge.
    + intros h' e y Mv Iy Re. apply sim_visibleCommand; auto.
      * eapply stores_moves; eauto.
      * rewrite Forall_forall in Dc. now apply Dc.
  - intros h' es es' Mv F. apply sim_alloc_ret. now apply rel_fromEntries.
Qed.

End Commands.

End FollowingCommands.

Section FollowingGroups.

Context `{D : discipline} {L : lawful D}.

Variable this : hval.
Variable s : self.

Lemma elements_h_not_array h v x :
  repr allowed h v x -> (forall xs, x <> VArr xs) -> elements_h v h = Throw TypeError.
Proof.
  destruct 1; simpl; intros N; try reflexivity.
  - exfalso. eapply N. reflexivity.
  - now rewrite H0.
Qed.

Lemma sim_pickField h commands cmds acc accp field fieldp :
  repr allowed h commands (VObj cmds) ->
  repr allowed h acc (VObj accp) ->
  repr allowed h field fieldp ->
  sim (fun h' v y => repr allowed h' v (VObj y)) h
    (pickField_h commands (object_keys cmds) acc field)
    (Ok (pickField cmds accp fieldp)).
Proof.
  intros Rc Ra Rf. unfold pickField_h, pickField.
  rewrite (repr_keys_include _ _ _ _ _ Rf).
  destruct (keys_include (object_keys cmds) fieldp) as [f|]; [|now apply sim_ret].
  apply sim_look. apply sim_look. apply sim_alloc_ret.
  apply rel_obj_set.
  - apply rel_obj_assign; [constructor|]. apply (repr_own_entries _ _ _ _ Ra).
  - apply (repr_get_prop_opt _ _ _ _ f Rc).
Qed.

Lemma sim_reduceFields h commands cmds fields fieldsp :
  repr allowed h commands (VObj cmds) ->
  repr allowed h fields fieldsp ->
  sim (fun h' v y => repr allowed h' v (VObj y)) h
    (reduceFields_h commands (object_keys cmds) fields)
    (reduceFields cmds fieldsp).
Proof.
  intros Rc Rf. unfold reduceFields_h, reduceFields.
  destruct fieldsp as [| | | | |xs|];
    try (apply sim_lift_Throw; eapply elements_h_not_array; eauto; discriminate).
  destruct (repr_elements _ _ _ _ Rf) as (hs & Eh & Fh).
  eapply sim_lift_Ok; [exact Eh|].
  apply sim_alloc. intros Mv Al.
  rewrite <- foldM_pure.
  apply (sim_foldM (repr allowed) (fun h' v y => repr allowed h' v (VObj y))).
  - intros; eapply moves_repr; eauto.
  - eapply Forall2_repr_moves; eauto.
  - apply repr_alloc; auto. constructor.
  - intros h' x y b b' Mv' _ Rx Rb. apply sim_pickField; auto.
    eapply moves_repr; [|exact Rc]. eapply moves_trans; eauto.
Qed.

Lemma sim_visibleGroup h commands cmds e y :
  repr allowed h commands (VObj cmds) ->
  rel_pair allowed h e y ->
  sim (rel_entry allowed) h
    (visibleGroup_h commands (object_keys cmds) e) (visibleGroup cmds y).
Proof.
  intros Rc [K Rg]. destruct e as [key group], y as [key' groupp].
  simpl in K, Rg. subst key'. unfold visibleGroup_h, visibleGroup.
  eapply sim_lift; [apply (repr_get_prop _ _ _ _ "fields" Rg)|].
  intros declared declaredp Rd. cbv beta.
  eapply sim_bind; [apply sim_reduceFields; eauto|].
  intros h1 fields fieldsp Mv Rf. apply sim_look.
  pose proof (repr_own_entries _ _ _ _ Rf) as Ef. simpl in Ef.
  rewrite (rel_props_length _ _ _ Ef).
  destruct (Nat.eqb (List.length fieldsp) 0); [now apply sim_ret|].
  apply sim_look. apply sim_alloc. intros Mv1 Al. apply sim_ret.
  split; [reflexivity|]. simpl. apply repr_alloc; auto.
  apply rel_obj_set; [|exact Rf].
  apply rel_obj_assign; [constructor|]. apply repr_own_entries.
  eapply moves_repr; eauto.
Qed.

Lemma sim_visibleGroups h commands cmds :
  stores allowed h this s ->
  repr allowed h commands (VObj cmds) ->
  sim (fun h' v y => repr allowed h' v (VObj y)) h
    (visibleGroups_h this commands)
    (es <- mapM (visibleGroup cmds) s.(groups) ;; Ok (fromEntries (filter nonempty es))).
Proof.
  intros St Rc. unfold visibleGroups_h. apply sim_look.
  pose proof (repr_own_entries _ _ _ _ Rc) as Ec. simpl in Ec.
  rewrite (rel_props_keys _ _ _ Ec). fold (object_keys cmds).
  destruct (stores_get _ _ _ St) as (r & c & g & _ & _ & _ & _ & Gg & Rg).
  eapply sim_lift_Ok; [exact Gg|].
  pose proof (repr_object_entries _ _ _ _ Rg) as Ge. simpl in Ge.
  destruct (object_entries_h g h) as [entries|] eqn:Ee; [|contradiction].
  eapply sim_lift_Ok; [exact Ee|].
  eapply sim_bind.
  - apply (sim_mapM (rel_pair allowed) (rel_entry allowed)).
    + intros; eapply rel_pair_moves; eauto.
    + intros; eapply rel_entry_moves; eauto.
    + exact Ge.
    + intros h' e y Mv Iy Re. apply sim_visibleGroup; auto.
      eapply moves_repr; eauto.
  - intros h' es es' Mv F. apply sim_alloc_ret.
    apply rel_fromEntries, rel_filter_nonempty, F.
Qed.

End FollowingGroups.

(** ** The two disciplines *)

Lemma length_update {A} n (x : A) l : List.length (update n x l) = List.length l.
Proof.
  revert n. induction l as [|y l IH]; intros [|n]; simpl; auto.
Qed.

Lemma nth_error_update_eq {A} n (x : A) l :
  n < List.length l -> nth_error (update n x l) n = Some x.
Proof.
  revert n. induction l as [|y l IH]; intros [|n]; simpl; intros H;
    try lia; auto. apply IH. lia.
Qed.

Lemma nth_error_update_neq {A} n m (x : A) l :
  m <> n -> nth_error (update n x l) m = nth_error l m.
Proof.
  revert n m. induction l as [|y l IH]; intros [|n] [|m]; simpl; intros H;
    try reflexivity; try lia. apply IH. lia.
Qed.

#[local] Instance growth_lawful : lawful growth.
Proof.
  constructor; simpl.
  - intros h l c H. exact H.
  - intros h1 h2 h3 A B l c H. auto.
  - intros h h' v x. apply repr_preserved.
  - auto.
  - intros h c _. split; [apply preserved_alloc | exact I].
Qed.

#[local] Instance around_lawful a : lawful (around a).
Proof.
  constructor; simpl.
  - intros h. split; auto.
  - intros h1 h2 h3 [L1 A] [L2 B]. split; [lia | auto].
  - intros h h' v x [_ K]. apply repr_map. intros l c N H. split; auto.
  - intros h h' [Le _] H. lia.
  - intros h c H. split; [split|].
    + rewrite length_app. simpl. lia.
    + intros l x _ E. now apply preserved_alloc.
    + lia.
Qed.

(** ** Filing commands into the accumulator *)

Section Filing.

Variable a : loc.
Variable fuel : nat.

Lemma repr_get_prop_eq (P : loc -> Prop) h v x k :
  repr P h v x ->
  result_rel (fun v' x' => repr P h v' x' /\ x' = get_prop_opt x k)
    (get_prop_h v k h) (get_prop x k).
Proof.
  intros H. pose proof (repr_get_prop _ _ _ _ k H) as G.
  destruct (get_prop_h v k h) as [v'|e], (get_prop x k) as [x'|e'] eqn:E;
    simpl in *; try contradiction; [|exact G].
  split; [exact G|]. destruct x; simpl in *; congruence.
Qed.

(** The assignment [acc[k] = v]. *)
Lemma sim_set_prop {B C} (R : heap -> B -> C -> Prop) h ho k v cont p :
  nth_error h a = Some (CObj ho) ->
  sim (D := around a) R (update a (CObj (obj_set k v ho)) h) (cont tt) p ->
  sim (D := around a) R h (bindM (set_prop (HRef a) k v) cont) p.
Proof.
  intros E H Rd. simpl in Rd. unfold bindM, set_prop. rewrite E.
  assert (Rd' : ready (discipline := around a)
                  (update a (CObj (obj_set k v ho)) h))
    by (simpl; now rewrite length_update).
  destruct (H Rd') as [[Le K] Hr]. split; [|exact Hr].
  simpl. rewrite length_update in Le. split; [exact Le|].
  intros l c N G. apply K; [exact N|]. now rewrite nth_error_update_neq.
Qed.

Lemma sim_fileCommand h key group groupp acc accp name field fieldp :
  holds a h acc accp ->
  repr (fun l => l <> a) h group groupp ->
  repr (fun l => l <> a) h field fieldp ->
  depth fieldp <= fuel ->
  sim (D := around a) (holds a) h
    (fileCommand_h fuel key group acc (name, field))
    (fileCommand key groupp accp (name, fieldp)).
Proof.
  intros (-> & ho & Ea & Ho) Rg Rf Df.
  unfold fileCommand_h, fileCommand.
  eapply (sim_lift (D := around a));
    [apply (repr_get_prop_depth (D := around a) _ _ _ _ _ Rf Df)|].
  intros m mx [Rm Dm]. cbv beta zeta.
  assert (Rk : repr (fun l => l <> a) h (js_or_h m HNull) (js_or mx VNull))
    by (apply repr_js_or; [exact Rm | constructor]).
  assert (Dk : depth (js_or mx VNull) <= fuel)
    by (unfold js_or; destruct (truthy mx); simpl; lia).
  eapply (sim_lift (D := around a) eq).
  { rewrite (reify_repr _ _ _ _ _ Rk Dk).
    destruct (to_string (js_or mx VNull)); reflexivity. }
  intros modal ? <-. cbv beta zeta.
  apply sim_look.
  assert (RatModal : repr (fun l => l <> a) h
                       (get_prop_opt_h (HRef a) modal h) (obj_at accp modal))
    by (simpl; rewrite Ea; now apply repr_obj_at).
  set (atModal := get_prop_opt_h (HRef a) modal h) in *.
  apply sim_look.
  pose proof (repr_get_prop_opt _ _ _ _ key RatModal) as RatKey.
  set (atKey := get_prop_opt_h atModal key h) in *.
  apply sim_look.
  pose proof (repr_get_prop_opt _ _ _ _ "fields" RatKey) as Rearlier.
  set (earlier := get_prop_opt_h atKey "fields" h) in *.
  apply sim_look.
  apply (sim_alloc (D := around a)). intros Mv1 Al1.
  set (h1 := (h ++ _)%list) in *.
  apply sim_look.
  apply (sim_alloc (D := around a)). intros Mv2 Al2.
  set (h2 := (h1 ++ _)%list) in *.
  apply sim_look.
  apply (sim_alloc (D := around a)). intros Mv3 Al3.
  set (h3 := (h2 ++ _)%list) in *.
  assert (La : a < List.length h) by (apply nth_error_Some; congruence).
  assert (Ea3 : nth_error h3 a = Some (CObj ho)).
  { subst h3 h2 h1. rewrite !nth_error_app1; auto;
      rewrite ?length_app; simpl; lia. }
  eapply sim_set_prop; [exact Ea3|].
  apply (sim_ret (D := around a)).
  assert (M12 : moves (discipline := around a) h h2)
    by (eapply (moves_trans (D := around a)); eauto).
  assert (M13 : moves (discipline := around a) h h3)
    by (eapply (moves_trans (D := around a)); eauto).
  assert (M34 : moves (discipline := around a) h3
                  (update a (CObj (obj_set modal (HRef (List.length h2)) ho)) h3)).
  { simpl. rewrite length_update. split; [lia|].
    intros l c N G. now rewrite nth_error_update_neq. }
  split; [reflexivity|]. eexists. split.
  - apply nth_error_update_eq. apply nth_error_Some. congruence.
  - apply rel_obj_set.
    + eapply (rel_props_moves (D := around a)); [exact M34|].
      eapply (rel_props_moves (D := around a)); [exact M13 | exact Ho].
    + eapply (moves_repr (D := around a)); [exact M34|].
      apply (repr_alloc (D := around a)); [exact Al3 | exact Mv3 |].
      apply rel_obj_set.
      * apply rel_obj_assign; [constructor|]. apply repr_own_entries.
        eapply (moves_repr (D := around a)); [exact M12 | exact RatModal].
      * apply (repr_alloc (D := around a)); [exact Al2 | exact Mv2 |].
        apply rel_obj_set.
        -- apply rel_obj_assign; [constructor|]. apply repr_own_entries.
           eapply (moves_repr (D := around a)); [exact Mv1|].
           apply repr_js_or; assumption.
        -- apply (repr_alloc (D := around a)); [exact Al1 | exact Mv1 |].
           apply rel_obj_set.
           ++ apply rel_obj_assign; [constructor|].
              now apply repr_own_entries.
           ++ exact Rf.
Qed.

End Filing.

Lemma nth_error_Some_lt {A} (l : list A) n x :
  nth_error l n = Some x -> n < List.length l.
Proof. intros H. apply nth_error_Some. congruence. Qed.

Lemma preserved_length h h' : preserved h h' -> List.length h <= List.length h'.
Proof.
  intros K. destruct (Nat.le_gt_cases (List.length h) (List.length h')) as [|G];
    [assumption|].
  exfalso. destruct (nth_error h (List.length h')) as [c|] eqn:E.
  - apply K, nth_error_Some_lt in E. lia.
  - apply nth_error_None in E. lia.
Qed.

Section FilingGroups.

Variable a : loc.
Variable fuel : nat.

Lemma repr_object_entries_eq (P : loc -> Prop) h v x :
  repr P h v x ->
  result_rel (fun es es' => rel_props (repr P h) es es' /\ es' = own_entries x)
    (object_entries_h v h) (object_entries x).
Proof.
  intros H. unfold object_entries_h, object_entries.
  rewrite (repr_nullish _ _ _ _ H). destruct (nullish x); simpl; [reflexivity|].
  split; [now apply repr_own_entries | reflexivity].
Qed.

Lemma sim_fileGroup h acc accp e y :
  holds a h acc accp ->
  rel_pair (fun l => l <> a) h e y ->
  (forall p, In p (own_entries (get_prop_opt (snd y) "fields")) ->
             depth (snd p) <= fuel) ->
  sim (D := around a) (holds a) h (fileGroup_h fuel acc e) (fileGroup accp y).
Proof.
  intros Ha [K Rg] Dp. destruct e as [key group], y as [key' groupp].
  simpl in K, Rg, Dp. subst key'. unfold fileGroup_h, fileGroup.
  eapply (sim_lift (D := around a)); [apply (repr_get_prop_eq _ _ _ _ "fields" Rg)|].
  intros fields fieldsp [Rf ->]. cbv beta.
  eapply (sim_lift (D := around a)); [apply (repr_object_entries_eq _ _ _ _ Rf)|].
  intros entries entriesp [Re ->]. cbv beta.
  apply (sim_foldM (D := around a) (rel_pair (fun l => l <> a)) (holds a)).
  - intros; eapply (rel_pair_moves (D := around a)); eauto.
  - exact Re.
  - exact Ha.
  - intros h' [name field] [name' fieldp] b b' Mv Iy [Kn Rx] Rb.
    simpl in Kn, Rx. subst name'.
    apply sim_fileCommand; auto.
    + eapply (moves_repr (D := around a)); eauto.
    + apply (Dp _ Iy).
Qed.

End FilingGroups.

(** ** The whole resolver *)

Section Follows.

Variable can : request -> value -> value -> value -> bool.
Variable fuel : nat.
Variable this : hval.
Variable s : self.
Variable req : request.

(** The fields of the filtered table are no deeper than the stored
    commands. *)
Lemma visibleCommands_depth cmds :
  Forall (fun e => depth (snd e) <= fuel) s.(commands) ->
  visibleCommands can s req = Ok cmds ->
  Forall (fun e => depth (snd e) <= fuel) cmds.
Proof.
  intros Dc H. apply Forall_forall. intros [k v] I.
  destruct (visibleCommands_entry _ _ _ _ _ _ H I) as [(Is & _)|[_ ->]].
  - rewrite Forall_forall in Dc. apply (Dc _ Is).
  - simpl. lia.
Qed.

Lemma repr_own_only P h v ms :
  repr P h v (VObj ms) -> own_only_h h v = own_only ms.
Proof.
  intros R. pose proof (repr_own_entries _ _ _ _ R) as E. simpl in E.
  unfold own_only_h, own_only. clear R.
  induction E as [|p q ho o [K Rp] _ IH]; simpl; [reflexivity|].
  rewrite K, IH. f_equal. f_equal.
  pose proof (repr_own_entries _ _ _ _ Rp) as Eg.
  induction Eg as [|p' q' ho' o' [K' _] _ IH']; simpl; [reflexivity|].
  now rewrite K', IH'.
Qed.

Lemma getVisibleModals_h_follows h commands cmds :
  stores anywhere h this s ->
  repr anywhere h commands (VObj cmds) ->
  Forall (fun e => depth (snd e) <= fuel) cmds ->
  preserved h (snd (getVisibleModals_h fuel this commands h)) /\
  result_rel
    (fun v ms => repr anywhere (snd (getVisibleModals_h fuel this commands h)) v (VObj ms))
    (fst (getVisibleModals_h fuel this commands h))
    (getVisibleModals s cmds).
Proof.
  intros St Rc Dc.
  destruct (sim_visibleGroups (D := growth) this s h commands cmds St Rc I)
    as [Mv Hr].
  unfold getVisibleModals_h, getVisibleModals, bindM.
  destruct (visibleGroups_h this commands h) as [[gref|e] h1];
    destruct (mapM (visibleGroup cmds) (groups s)) as [es|e'] eqn:Em;
    simpl in Mv, Hr; try contradiction; [|simpl; auto].
  simpl bind. unfold look, alloc. cbv beta iota.
  set (a := List.length h1).
  set (h2 := (h1 ++ [CObj []])%list).
  set (table := fromEntries (filter nonempty es)) in *.
  assert (M12 : preserved h1 h2) by apply preserved_alloc.
  assert (Below : forall P v x, repr P h1 v x -> repr (fun l => l <> a) h2 v x).
  { intros P v x R. eapply repr_map; [|exact R]. intros l c _ E. split.
    - apply nth_error_Some_lt in E. subst a. lia.
    - now apply M12. }
  pose proof (repr_own_entries _ _ _ _ Hr) as Eg. simpl in Eg.
  assert (Rd : ready (discipline := around a) h2)
    by (subst a h2; simpl; rewrite length_app; simpl; lia).
  destruct (sim_foldM (D := around a) (rel_pair (fun l => l <> a)) (holds a)
              (fileGroup_h fuel) fileGroup
              (fun h h' x y Mv' => rel_pair_moves (D := around a) h h' x y Mv')
              (own_entries_h h1 gref) table h2 (HRef a) []) as [Mv3 Hr3].
  - clear - Eg Below. induction Eg as [|p q ho o [K R] _ IH]; constructor; auto.
    split; [exact K | eapply Below; eauto].
  - split; [reflexivity|]. exists []. split; [apply nth_error_alloc | constructor].
  - intros h' e y b b' Mv' Iy Re Rb. apply sim_fileGroup; auto.
    intros p Ip. rewrite Forall_forall in Dc. apply Dc.
    destruct y as [g group], p as [name field]. simpl in Ip.
    pose proof (visible_groups_entry _ _ _ _ _ Em Iy) as Ov.
    eapply Ov; [|exact Ip]. eapply In_props_get_prop_opt; eauto.
  - exact Rd.
  - assert (Kept : preserved h
                     (snd (foldMh (fileGroup_h fuel) (own_entries_h h1 gref)
                             (HRef a) h2))).
    { intros l c E. destruct Mv3 as [_ K]. apply K.
      - pose proof (nth_error_Some_lt _ _ _ E).
        pose proof (preserved_length _ _ Mv). subst a. lia.
      - apply M12, Mv, E. }
    destruct (foldMh (fileGroup_h fuel) (own_entries_h h1 gref) (HRef a) h2)
      as [[v|e3] h3]; destruct (foldM fileGroup table []) as [ms|e3'];
      simpl in Kept, Hr3; try contradiction; [|simpl; auto].
    destruct Hr3 as (-> & ho & Ea & Ho).
    assert (Rv : repr anywhere h3 (HRef a) (VObj ms)).
    { apply repr_obj with ho; [exact I | exact Ea |].
      clear - Ho. induction Ho as [|p q ho o [K R] _ IH]; constructor; auto.
      split; [exact K | eapply repr_anywhere; eauto]. }
    unfold lift. simpl. rewrite (repr_own_only _ _ _ _ Rv).
    destruct (own_only ms); simpl; auto.
Qed.

End Follows.

Section Repeatable.

Variable can : request -> value -> value -> value -> bool.
Variable fuel : nat.
Variable this : hval.
Variable s : self.
Variable req : request.

Lemma stores_preserved h h' :
  preserved h h' -> stores anywhere h this s -> stores anywhere h' this s.
Proof. apply (stores_moves (D := growth)). Qed.

(** One run over the store: no cell that was there changes, and the run
    ends as the resolver over values does, on a view that stands for the
    same view. *)
Lemma getVisible_h_follows h :
  stores anywhere h this s ->
  Forall (fun e => depth (snd e) <= fuel) s.(commands) ->
  preserved h (snd (getVisible_h can fuel this req h)) /\
  result_rel (repr_view (snd (getVisible_h can fuel this req h)))
    (fst (getVisible_h can fuel this req h)) (getVisible can s req).
Proof.
  intros St Dc.
  destruct (sim_visibleCommands (D := growth) can fuel this s req h St Dc I)
    as [Mv1 Hr1].
  unfold getVisible_h, getVisible, bindM.
  destruct (visibleCommands_h can fuel this req h) as [[cref|e] h1];
    destruct (visibleCommands can s req) as [cmds|e'] eqn:Ec;
    simpl in Mv1, Hr1; try contradiction; [|simpl; auto].
  simpl bind.
  assert (St1 : stores anywhere h1 this s) by (eapply stores_preserved; eauto).
  destruct (sim_visibleGroups (D := growth) this s h1 cref cmds St1 Hr1 I)
    as [Mv2 Hr2].
  unfold getVisibleGroups_h.
  change (es <- mapM (visibleGroup cmds) (groups s) ;;
          Ok (fromEntries (filter nonempty es)))
    with (getVisibleGroups s cmds) in Hr2.
  destruct (visibleGroups_h this cref h1) as [[gref|e] h2];
    destruct (getVisibleGroups s cmds) as [gs|e'];
    simpl in Mv2, Hr2; try contradiction;
    [|simpl; split; [intros l c E; auto | exact Hr2]].
  simpl bind.
  assert (St2 : stores anywhere h2 this s) by (eapply stores_preserved; eauto).
  assert (Rc2 : repr anywhere h2 cref (VObj cmds))
    by (eapply repr_preserved; eauto).
  destruct (getVisibleModals_h_follows fuel this s h2 cref cmds St2 Rc2
              (visibleCommands_depth can fuel s req cmds Dc Ec)) as [Mv3 Hr3].
  destruct (getVisibleModals_h fuel this cref h2) as [[mref|e] h3];
    destruct (getVisibleModals s cmds) as [ms|e'];
    simpl in Mv3, Hr3; try contradiction; simpl.
  - split; [intros l c E; auto|].
    split; simpl; [eapply repr_preserved; eauto | exact Hr3].
  - split; [intros l c E; auto | exact Hr3].
Qed.

(** C9: resolution is repeatable and leaves the registry alone.  From a
    store holding the registry [s], two runs in a row change no cell that was
    there before them, the registry included, and both end as the resolver
    over values does: with the same error, or with views that stand for one
    and the same view. *)
Theorem resolution_is_repeatable h :
  stores anywhere h this s ->
  Forall (fun e => depth (snd e) <= fuel) s.(commands) ->
  let first := getVisible_h can fuel this req h in
  let second := getVisible_h can fuel this req (snd first) in
  preserved h (snd first) /\
  preserved h (snd second) /\
  stores anywhere (snd second) this s /\
  result_rel (repr_view (snd first)) (fst first) (getVisible can s req) /\
  result_rel (repr_view (snd second)) (fst second) (getVisible can s req).
Proof.
  intros St Dc first second.
  destruct (getVisible_h_follows h St Dc) as [P1 R1]. fold first in P1, R1.
  assert (St1 : stores anywhere (snd first) this s)
    by (eapply stores_preserved; eauto).
  destruct (getVisible_h_follows (snd first) St1 Dc) as [P2 R2].
  fold second in P2, R2.
  assert (P12 : preserved h (snd second)) by (intros l c E; auto).
  repeat split; auto. eapply stores_preserved; eauto.
Qed.

End Repeatable.

Lemma resolution_is_repeatable_witness :
  let first := getVisible_h allowAll 5 sampleThis editor sampleStore in
  let second := getVisible_h allowAll 5 sampleThis editor (snd first) in
  preserved sampleStore (snd first) /\
  preserved sampleStore (snd second) /\
  stores anywhere (snd second) sampleThis (twoCommands [ VStr "b" ]) /\
  result_rel (repr_view (snd first)) (fst first)
    (getVisible allowAll (twoCommands [ VStr "b" ]) editor) /\
  result_rel (repr_view (snd second)) (fst second)
    (getVisible allowAll (twoCommands [ VStr "b" ]) editor).
Proof.
  apply (resolution_is_repeatable allowAll 5 sampleThis
           (twoCommands [ VStr "b" ]) editor sampleStore).
  - exists [ ("removes", VArr [ VStr "b" ]);
             ("commands", VObj [ ("a", validCommand); ("b", validCommand) ]);
             ("groups", VObj [ ("g", generalGroup) ]) ].
    split; [|repeat split].
    repeat (first [ exact I | reflexivity | split
                  | eapply repr_obj | eapply repr_arr | constructor ]).
  - repeat constructor; simpl; lia.
Defined.

(** * Further properties of the module *)

(** ** What the validators let through *)

Lemma typeof_string v : String.eqb (typeof v) "string" = is_string v.
Proof. destruct v; reflexivity. Qed.

Lemma validateCommand_accepted name command :
  accepted_command command = true -> validateCommand name command = Ok true.
Proof.
  unfold accepted_command. intros H.
  repeat (apply andb_true_iff in H; destruct H as [H ?]).
  apply negb_true_iff in H.
  unfold validateCommand. rewrite !(get_prop_readable _ _ H).
  generalize dependent (get_prop_opt command "type"). intros t Ht.
  generalize dependent (get_prop_opt command "label"). intros l Hl.
  generalize dependent (get_prop_opt command "action"). intros a Ha.
  generalize dependent (get_prop_opt command "permission"). intros p Hp.
  generalize dependent (get_prop_opt command "modal"). intros m Hm.
  generalize dependent (get_prop_opt command "shortcut"). intros sc Hs.
  destruct t; simpl in Ht; try discriminate.
  destruct l; simpl in Hl; try discriminate.
  destruct sc; simpl in Hs; try discriminate.
  simpl. unfold assert_equal at 1. rewrite Ht. simpl.
  unfold js_and, assert_equal. rewrite Ha. simpl.
  destruct (truthy p) eqn:Tp; simpl in *.
  - rewrite Hp. simpl. destruct (truthy m) eqn:Tm; simpl in *.
    + destruct m; simpl in *; try discriminate. reflexivity.
    + reflexivity.
  - destruct (truthy m) eqn:Tm; simpl in *.
    + destruct m; simpl in *; try discriminate. reflexivity.
    + reflexivity.
Qed.

Lemma validateCommand_refused name command :
  accepted_command command = false -> exists e, validateCommand name command = Throw e.
Proof.
  intros H. destruct (validateCommand name command) as [b|e] eqn:E; [|eauto].
  exfalso. assert (A : accepted_command command = true); [|congruence].
  clear H. unfold validateCommand in E. repeat (inv_bind E).
  assert (NN : nullish command = false)
    by (destruct command; simpl in *; congruence).
  rewrite !(get_prop_readable _ _ NN) in *.
  repeat match goal with
         | G : Ok _ = Ok _ |- _ => inversion G; subst; clear G
         end.
  unfold accepted_command. rewrite NN. simpl.
  generalize dependent (get_prop_opt command "type"). intros t Ht.
  generalize dependent (get_prop_opt command "label"). intros l Hl.
  generalize dependent (get_prop_opt command "action"). intros a Ha.
  generalize dependent (get_prop_opt command "permission"). intros p Hp.
  generalize dependent (get_prop_opt command "modal"). intros m Hm.
  generalize dependent (get_prop_opt command "shortcut"). intros sc Hs.
  unfold assert_is, assert_equal, js_and, bind in *.
  rewrite <- !typeof_string.
  destruct t; try discriminate. simpl.
  destruct (String.eqb s "item"); [|discriminate]. simpl.
  destruct (String.eqb (typeof l) "string"); [|discriminate]. simpl.
  destruct (String.eqb (typeof a) "object"); [|discriminate]. simpl.
  destruct (String.eqb (typeof sc) "string"); [|discriminate].
  rewrite andb_true_r.
  destruct (truthy p); simpl.
  - destruct (String.eqb (typeof p) "object"); [|discriminate]. simpl.
    destruct (truthy m); simpl; [|reflexivity].
    destruct (String.eqb (typeof m) "string"); [reflexivity | discriminate].
  - destruct (truthy m); simpl; [|reflexivity].
    destruct (String.eqb (typeof m) "string"); [reflexivity | discriminate].
Qed.

Lemma validateCommand_returns_accepted name command b :
  validateCommand name command = Ok b -> accepted_command command = true.
Proof.
  intros H. destruct (accepted_command command) eqn:A; [reflexivity|].
  destruct (validateCommand_refused name command A) as (e & E). congruence.
Qed.

(** X1: [validateCommand] returns exactly on the commands that satisfy the
    checks it reaches: the type, the label, the kind of [action], the kind of
    a truthy [permission], a truthy [modal] and the shortcut.  What
    [action.type], [action.payload], [permission.action] and
    [permission.type] hold makes no difference. *)
Theorem validateCommand_accepts_iff name command :
  validateCommand name command = Ok true <-> accepted_command command = true.
Proof.
  split.
  - apply validateCommand_returns_accepted.
  - apply validateCommand_accepted.
Qed.

Lemma every_string_is_string l :
  forallb (fun f => String.eqb (typeof f) "string") l = forallb is_string l.
Proof.
  induction l as [|x l IH]; simpl; [reflexivity|]. now rewrite typeof_string, IH.
Qed.

Lemma validateGroup_accepted name group :
  accepted_group group = true -> validateGroup name group = Ok true.
Proof.
  unfold accepted_group. intros H.
  repeat (apply andb_true_iff in H; destruct H as [H ?]).
  apply negb_true_iff in H.
  unfold validateGroup. rewrite !(get_prop_readable _ _ H).
  destruct (get_prop_opt group "label"); simpl in *; try discriminate.
  destruct (get_prop_opt group "fields") as [| | | | |l|]; try discriminate.
  simpl. unfold assert_ok.
  rewrite every_string_is_string, H0. reflexivity.
Qed.

Lemma validateGroup_refused name group :
  accepted_group group = false -> exists e, validateGroup name group = Throw e.
Proof.
  intros H. destruct (validateGroup name group) as [b|e] eqn:E; [|eauto].
  exfalso. assert (A : accepted_group group = true); [|congruence].
  clear H. unfold validateGroup in E. repeat (inv_bind E).
  assert (NN : nullish group = false)
    by (destruct group; simpl in *; congruence).
  rewrite !(get_prop_readable _ _ NN) in *.
  repeat match goal with
         | G : Ok _ = Ok _ |- _ => inversion G; subst; clear G
         end.
  unfold accepted_group. rewrite NN. simpl.
  generalize dependent (get_prop_opt group "label"). intros l Hl.
  generalize dependent (get_prop_opt group "fields"). intros f. intros.
  unfold assert_equal, assert_ok in *. rewrite typeof_string in *.
  destruct (is_string l); [|discriminate]. simpl.
  destruct f as [| | | | |xs|]; simpl in *; try discriminate.
  match goal with
  | G : Ok _ = Ok ?b, K : (if ?b then _ else _) = _ |- _ =>
      inversion G; subst; clear G
  end.
  rewrite <- every_string_is_string.
  destruct (forallb _ xs); [reflexivity | discriminate].
Qed.

Lemma validateGroup_returns_accepted name group b :
  validateGroup name group = Ok b -> accepted_group group = true.
Proof.
  intros H. destruct (accepted_group group) eqn:A; [reflexivity|].
  destruct (validateGroup_refused name group A) as (e & E). congruence.
Qed.

(** X2: [validateGroup] returns exactly on the groups whose label is a string
    and whose fields is an array of strings. *)
Theorem validateGroup_accepts_iff name group :
  validateGroup name group = Ok true <-> accepted_group group = true.
Proof.
  split.
  - apply validateGroup_returns_accepted.
  - apply validateGroup_accepted.
Qed.

(** X3: Validation of a composed registry is decided by the first command and
    the first group alone; an empty table passes. *)
Theorem validate_heads_only composed :
  validate composed = Ok tt <->
  head_accepted accepted_command composed.(p_command)
  && head_accepted accepted_group composed.(p_group) = true.
Proof.
  unfold validate.
  destruct (p_command composed) as [[|[n c] cs]|]; simpl.
  - destruct (p_group composed) as [[|[g x] gs]|]; simpl.
    + tauto.
    + destruct (validateGroup g x) as [b|e] eqn:E; simpl.
      * pose proof (validateGroup_Ok _ _ _ E). subst b.
        apply validateGroup_returns_accepted in E. rewrite E. tauto.
      * destruct (accepted_group x) eqn:A; [|split; discriminate].
        apply (validateGroup_accepted g) in A. congruence.
    + split; discriminate.
  - destruct (validateCommand n c) as [b|e] eqn:E; simpl.
    + pose proof (validateCommand_Ok _ _ _ E). subst b.
      apply validateCommand_returns_accepted in E. rewrite E. simpl.
      destruct (p_group composed) as [[|[g x] gs]|]; simpl.
      * tauto.
      * destruct (validateGroup g x) as [b|e] eqn:E2; simpl.
        -- pose proof (validateGroup_Ok _ _ _ E2). subst b.
           apply validateGroup_returns_accepted in E2. rewrite E2. tauto.
        -- destruct (accepted_group x) eqn:A; [|split; discriminate].
           apply (validateGroup_accepted g) in A. congruence.
      * split; discriminate.
    + destruct (accepted_command c) eqn:A; [|split; discriminate].
      apply (validateCommand_accepted n) in A. congruence.
  - split; discriminate.
Qed.

(** ** The stages of the pipeline *)

Lemma mapM_get_prop_readable k raw :
  readable_fragments raw = true ->
  mapM (fun c => get_prop c k) raw = Ok (map (fun c => get_prop_opt c k) raw).
Proof.
  intros R. apply mapM_total. intros f I. apply get_prop_readable.
  unfold readable_fragments in R. rewrite forallb_forall in R.
  specialize (R f I). now destruct (nullish f).
Qed.

(** X4: Remove-collect: a name is on the composed removal list exactly when
    some fragment's [remove] holds it, be that an array of names or a single
    name, the empty name excepted, which the filter drops. *)
Theorem composeRemove_collects raw name :
  readable_fragments raw = true ->
  exists st rs,
    composeRemove (initialState raw) = Ok st /\
    st.(p_remove) = Some rs /\
    (includes_str rs name = true <->
     name <> "" /\ exists f, In f raw /\ In (VStr name) (removed_by f)).
Proof.
  intros R. unfold composeRemove. simpl.
  rewrite (mapM_get_prop_readable _ _ R). simpl.
  eexists. eexists. split; [reflexivity|]. split; [reflexivity|].
  rewrite includes_str_In, filter_In. unfold array_concat.
  rewrite in_flat_map. simpl. split.
  - intros [(v & Iv & Ic) T]. split.
    + intros ->. discriminate.
    + apply in_map_iff in Iv. destruct Iv as (f & <- & If). eauto.
  - intros [N (f & If & Ic)]. split.
    + exists (get_prop_opt f "remove"). split; [|exact Ic].
      apply in_map_iff. eauto.
    + destruct (String.eqb_spec name ""); [contradiction | reflexivity].
Qed.

Lemma composeRemove_collects_witness :
  exists st rs,
    composeRemove
      (initialState [ VObj [ ("remove", VArr [ VStr "a"; VStr "" ]) ];
                      VObj [ ("remove", VStr "b") ]; VObj [] ]) = Ok st /\
    st.(p_remove) = Some rs /\
    (includes_str rs "b" = true <->
     "b" <> "" /\
     exists f,
       In f [ VObj [ ("remove", VArr [ VStr "a"; VStr "" ]) ];
              VObj [ ("remove", VStr "b") ]; VObj [] ] /\
       In (VStr "b") (removed_by f)).
Proof.
  apply (composeRemove_collects
           [ VObj [ ("remove", VArr [ VStr "a"; VStr "" ]) ];
             VObj [ ("remove", VStr "b") ]; VObj [] ] "b").
  reflexivity.
Defined.

(** *** Which fragments the pipeline can read *)

Lemma foldM_Throw {A B} (f : A -> B -> result A) (P : error -> Prop) l :
  (forall a x e, f a x = Throw e -> P e) ->
  forall a e, foldM f l a = Throw e -> P e.
Proof.
  intros Hf. induction l as [|x l IH]; simpl; intros a e H; [discriminate|].
  destruct (f a x) as [a'|e'] eqn:E; simpl in H.
  - eauto.
  - inversion H; subst. eauto.
Qed.

Lemma mapM_Throw {A B} (f : A -> result B) (P : error -> Prop) l :
  (forall x e, f x = Throw e -> P e) ->
  forall e, mapM f l = Throw e -> P e.
Proof.
  intros Hf. induction l as [|x l IH]; simpl; intros e H; [discriminate|].
  destruct (f x) as [y|e'] eqn:E; simpl in H.
  - destruct (mapM f l) as [ys|e2]; simpl in H; [discriminate|].
    inversion H; subst. eauto.
  - inversion H; subst. eauto.
Qed.

Lemma get_prop_Throw v k e : get_prop v k = Throw e -> e = TypeError.
Proof. destruct v; simpl; intros H; now inversion H. Qed.

Lemma mergeGroup_Throw groups e err :
  mergeGroup groups e = Throw err -> err = TypeError.
Proof.
  destruct e as [name attributes]. unfold mergeGroup. intros H.
  destruct (get_prop attributes "fields") as [c|e1] eqn:E1; simpl in H;
    [|inversion H; subst; eapply get_prop_Throw; eauto].
  destruct (method_concat _ c) as [f|e2] eqn:E2; simpl in H; [discriminate|].
  inversion H; subst. unfold method_concat in E2.
  destruct (js_or _ _); try (now inversion E2).
  destruct (to_string c) as [t|e3] eqn:E3; simpl in E2; [discriminate E2|].
  inversion E2; subst. eapply to_string_Throw; eauto.
Qed.

Lemma formatGroups_Throw state fragment err :
  formatGroups state fragment = Throw err -> err = TypeError.
Proof.
  unfold formatGroups. intros H.
  destruct (get_prop fragment "group") as [g|e1] eqn:E1; simpl in H;
    [|inversion H; subst; eapply get_prop_Throw; eauto].
  unfold object_entries in H. destruct (nullish g); simpl in H;
    [now inversion H|].
  exact (foldM_Throw mergeGroup (fun e => e = TypeError) _
           mergeGroup_Throw _ _ H).
Qed.

(** The only error the pipeline raises is a [TypeError]. *)
Lemma pipe_Throw raw err :
  pipe [composeCommand; composeRemove; composeGroup] (initialState raw) = Throw err ->
  err = TypeError.
Proof.
  unfold pipe. simpl. unfold composeCommand at 1. simpl.
  destruct (mapM (fun c => get_prop c "add") raw) as [adds|e1] eqn:E1; simpl.
  - unfold composeRemove at 1. simpl.
    destruct (mapM (fun c => get_prop c "remove") raw) as [rs|e2] eqn:E2; simpl.
    + unfold composeGroup at 1. simpl.
      destruct (foldM formatGroups raw []) as [gs|e3] eqn:E3; simpl;
        [discriminate|].
      intros H. inversion H; subst.
      exact (foldM_Throw formatGroups (fun e => e = TypeError) raw
               formatGroups_Throw [] _ E3).
    + intros H. inversion H; subst.
      exact (mapM_Throw (fun c => get_prop c "remove") (fun e => e = TypeError)
               raw (fun x e => get_prop_Throw x "remove" e) _ E2).
  - intros H. inversion H; subst.
    exact (mapM_Throw (fun c => get_prop c "add") (fun e => e = TypeError)
             raw (fun x e => get_prop_Throw x "add" e) _ E1).
Qed.

Lemma get_prop_Ok v k x : get_prop v k = Ok x -> nullish v = false /\ x = get_prop_opt v k.
Proof. destruct v; simpl; intros H; inversion H; auto. Qed.

Lemma foldM_formatGroups_readable raw : forall acc r,
  foldM formatGroups raw acc = Ok r -> readable_groups raw = true.
Proof.
  intros acc r H. unfold readable_groups. apply forallb_forall. intros f I.
  destruct (foldM_Ok_In _ _ _ _ _ H I) as (a0 & a1 & F).
  unfold formatGroups in F. inv_bind F. inv_bind F.
  apply get_prop_Ok in E. destruct E as [Nf ->].
  unfold object_entries in E0.
  destruct (nullish (get_prop_opt f "group")) eqn:Ng; [discriminate|].
  inversion E0; subst; clear E0. rewrite Nf. simpl.
  apply forallb_forall. intros e Ie. fold (group_entries f) in F.
  destruct (foldM_Ok_In _ _ _ _ _ F Ie) as (b0 & b1 & G).
  destruct e as [name attributes]. unfold mergeGroup in G. inv_bind G.
  apply get_prop_Ok in E. destruct E as [Na _]. simpl. now rewrite Na.
Qed.

Lemma readable_groups_fragments raw :
  readable_groups raw = true -> readable_fragments raw = true.
Proof.
  unfold readable_groups, readable_fragments. rewrite !forallb_forall.
  intros H f I. specialize (H f I).
  repeat (apply andb_true_iff in H; destruct H as [H ?]). exact H.
Qed.

Lemma composeGroup_readable raw st :
  st.(p_rawCommands) = raw ->
  readable_groups raw = true -> exists st', composeGroup st = Ok st'.
Proof.
  intros <- R. unfold readable_groups in R.
  assert (R1 : forallb (fun fragment =>
                          negb (nullish fragment)
                          && negb (nullish (get_prop_opt fragment "group")))
                 (p_rawCommands st) = true).
  { rewrite forallb_forall in *. intros f I. specialize (R f I).
    apply andb_true_iff in R. tauto. }
  assert (R2 : forallb (fun e => negb (nullish (snd e)))
                 (flat_map group_entries (p_rawCommands st)) = true).
  { rewrite forallb_forall in *. intros e I. apply in_flat_map in I.
    destruct I as (f & If & Ie). specialize (R f If).
    apply andb_true_iff in R. destruct R as [_ R].
    rewrite forallb_forall in R. auto. }
  destruct (foldM_mergeGroup _ [] merged_table_empty R2) as (table & F & _).
  apply (foldM_formatGroups _ _ _ R1) in F.
  unfold composeGroup. rewrite F. simpl. eauto.
Qed.

Lemma pipe_readable raw :
  readable_groups raw = true ->
  exists composed,
    pipe [composeCommand; composeRemove; composeGroup] (initialState raw) = Ok composed.
Proof.
  intros R. pose proof (readable_groups_fragments _ R) as Rf.
  unfold pipe. simpl. rewrite (composeCommand_readable _ Rf). simpl.
  unfold composeRemove at 1. simpl.
  rewrite (mapM_get_prop_readable _ _ Rf). simpl.
  destruct (composeGroup_readable raw
              (mkPipeline raw
                 (Some (fold_left mergeCommand
                          (filter truthy
                             (array_concat
                                (map (fun f => get_prop_opt f "add") raw))) []))
                 (Some (filter truthy
                          (array_concat
                             (map (fun c => get_prop_opt c "remove") raw))))
                 None None) eq_refl R) as (st' & E).
  rewrite E. simpl. eauto.
Qed.

Lemma pipe_unreadable raw :
  readable_groups raw = false ->
  pipe [composeCommand; composeRemove; composeGroup] (initialState raw) = Throw TypeError.
Proof.
  intros R.
  destruct (pipe [composeCommand; composeRemove; composeGroup] (initialState raw))
    as [composed|e] eqn:P.
  - exfalso. unfold pipe in P. simpl in P.
    destruct (composeCommand (initialState raw)) as [a|] eqn:A; [|discriminate].
    simpl in P. destruct (composeRemove a) as [b|] eqn:B; [|discriminate].
    simpl in P. destruct (composeGroup b) as [c|] eqn:C; [|discriminate].
    unfold composeCommand in A. inv_bind A. inversion A; subst; clear A.
    unfold composeRemove in B. inv_bind B. inversion B; subst; clear B.
    unfold composeGroup in C. inv_bind C. simpl in E1.
    apply foldM_formatGroups_readable in E1. congruence.
  - f_equal. eapply pipe_Throw; eauto.
Qed.

(** X5: The pipeline returns exactly on the fragment lists whose every
    fragment, every [group] and every declared group's attributes are neither
    [null] nor [undefined]; on any other list, a fragment without [group]
    among them, it raises a [TypeError]. *)
Theorem pipe_returns_iff_readable raw :
  ((exists composed,
      pipe [composeCommand; composeRemove; composeGroup] (initialState raw)
      = Ok composed)
   <-> readable_groups raw = true) /\
  (pipe [composeCommand; composeRemove; composeGroup] (initialState raw)
   = Throw TypeError
   <-> readable_groups raw = false).
Proof.
  destruct (readable_groups raw) eqn:R.
  - destruct (pipe_readable raw R) as (composed & E). rewrite E. split; split.
    + reflexivity.
    + eauto.
    + intros X. discriminate X.
    + intros X. discriminate X.
  - rewrite (pipe_unreadable raw R). split; split.
    + intros (composed & E). discriminate E.
    + intros X. discriminate X.
    + reflexivity.
    + reflexivity.
Qed.

(** X6: A cycle over fragments the pipeline cannot read, for one a module that
    declares commands and no group, does not reach the [try] block: the
    [TypeError] leaves the handler, and it does so after the state was
    cleared. *)
Theorem unreadable_fragments_propagate modules s raw :
  collect modules = Ok raw ->
  readable_groups raw = false ->
  composeCommands modules s =
  (Propagated TypeError, mkSelf raw [] [] [] (VObj []) s.(components_the)).
Proof.
  intros C R. unfold composeCommands. rewrite C.
  now rewrite (pipe_unreadable raw R).
Qed.

Lemma unreadable_fragments_propagate_witness :
  composeCommands [ moduleOnlyAdding ] earlierState =
  (Propagated TypeError,
   mkSelf [ addFragment "a" validCommand ] [] [] [] (VObj []) VUndef).
Proof.
  apply (unreadable_fragments_propagate [ moduleOnlyAdding ] earlierState
           [ addFragment "a" validCommand ]); reflexivity.
Defined.

(** *** The order of the stages *)

Lemma bind_assoc {A B C} (m : result A) (f : A -> result B) (g : B -> result C) :
  bind (bind m f) g = bind m (fun a => bind (f a) g).
Proof. now destruct m. Qed.

Lemma pipe_cons f stages st : pipe (f :: stages) st = bind (f st) (pipe stages).
Proof. reflexivity. Qed.

Lemma mapM_get_prop_Throw k raw e :
  mapM (fun c => get_prop c k) raw = Throw e -> e = TypeError.
Proof.
  exact (mapM_Throw (fun c => get_prop c k) (fun e => e = TypeError) raw
           (fun x e => get_prop_Throw x k e) e).
Qed.

Lemma foldM_formatGroups_Throw raw acc e :
  foldM formatGroups raw acc = Throw e -> e = TypeError.
Proof.
  exact (foldM_Throw formatGroups (fun e => e = TypeError) raw
           formatGroups_Throw acc e).
Qed.

Lemma foldM_formatModals_Throw raw acc e :
  foldM formatModals raw acc = Throw e -> e = TypeError.
Proof.
  apply (foldM_Throw formatModals (fun e => e = TypeError)).
  intros a x e' H. unfold formatModals in H.
  destruct (get_prop x "group") eqn:G; simpl in H; [discriminate|].
  inversion H; subst. eapply get_prop_Throw; eauto.
Qed.

(** Each stage reads the fragments only and sets a property of its own, so
    any two of them can change places. *)
Lemma stages_commute f g st :
  is_stage f -> is_stage g -> bind (f st) g = bind (g st) f.
Proof.
  intros [ -> | [ -> | [ -> | -> ] ] ] [ -> | [ -> | [ -> | -> ] ] ];
    try reflexivity;
    unfold composeCommand, composeRemove, composeGroup, composeModal; simpl;
    repeat match goal with
           | |- context [mapM ?h ?l] =>
               let E := fresh "E" in destruct (mapM h l) eqn:E; simpl
           | |- context [foldM ?h ?l ?a] =>
               let E := fresh "E" in destruct (foldM h l a) eqn:E; simpl
           end;
    repeat match goal with
           | H : Ok _ = Ok _ |- _ => inversion H; subst; clear H
           | H : Throw _ = Throw _ |- _ => inversion H; subst; clear H
           | H : Ok _ = Throw _ |- _ => discriminate H
           | H : Throw _ = Ok _ |- _ => discriminate H
           end;
    repeat match goal with
           | H : mapM _ _ = Throw _ |- _ => apply mapM_get_prop_Throw in H
           | H : foldM formatGroups _ _ = Throw _ |- _ =>
               apply foldM_formatGroups_Throw in H
           | H : foldM formatModals _ _ = Throw _ |- _ =>
               apply foldM_formatModals_Throw in H
           end;
    subst; reflexivity.
Qed.

Lemma pipe_permuted stages stages' :
  Permutation stages stages' ->
  Forall is_stage stages ->
  forall st, pipe stages st = pipe stages' st.
Proof.
  induction 1 as [|x l l' P IH|x y l|l1 l2 l3 P1 IH1 P2 IH2]; intros F st.
  - reflexivity.
  - rewrite !pipe_cons. inversion F; subst.
    destruct (x st); simpl; auto.
  - rewrite !pipe_cons. inversion F as [|? ? Fy F']; subst.
    inversion F' as [|? ? Fx F'']; subst.
    transitivity (bind (bind (y st) x) (pipe l)).
    + rewrite bind_assoc. reflexivity.
    + rewrite (stages_commute y x st Fy Fx), bind_assoc. reflexivity.
  - rewrite IH1 by exact F. apply IH2.
    eapply Permutation_Forall; eauto.
Qed.

Lemma stage_Throw f st e : is_stage f -> f st = Throw e -> e = TypeError.
Proof.
  intros [ -> | [ -> | [ -> | -> ] ] ] H.
  - unfold composeCommand in H.
    destruct (mapM _ (p_rawCommands st)) eqn:E; simpl in H; [discriminate H|].
    inversion H; subst. eapply mapM_get_prop_Throw; eauto.
  - unfold composeRemove in H.
    destruct (mapM _ (p_rawCommands st)) eqn:E; simpl in H; [discriminate H|].
    inversion H; subst. eapply mapM_get_prop_Throw; eauto.
  - unfold composeGroup in H.
    destruct (foldM formatGroups (p_rawCommands st) []) eqn:E; simpl in H;
      [discriminate H|].
    inversion H; subst. eapply foldM_formatGroups_Throw; eauto.
  - unfold composeModal in H.
    destruct (foldM formatModals (p_rawCommands st) []) eqn:E; simpl in H;
      [discriminate H|].
    inversion H; subst. eapply foldM_formatModals_Throw; eauto.
Qed.

Lemma stages_Throw stages : forall st e,
  Forall is_stage stages -> pipe stages st = Throw e -> e = TypeError.
Proof.
  induction stages as [|f stages IH]; intros st e F H; [discriminate H|].
  inversion F as [|? ? Ff F']; subst. rewrite pipe_cons in H.
  destruct (f st) as [st'|e'] eqn:E; simpl in H.
  - eapply IH; eauto.
  - inversion H; subst. eapply stage_Throw; eauto.
Qed.

(** X7: The order in which the stages are piped does not change what is
    composed.  For any rearrangement of a list of stages, either both
    orders raise a [TypeError], or both return and the composed
    [rawCommands], [command], [remove], [group] and [modal] are the same. *)
Theorem pipe_any_order stages stages' :
  Permutation stages stages' ->
  Forall is_stage stages ->
  forall st, same_composition (pipe stages st) (pipe stages' st).
Proof.
  intros P F st. rewrite <- (pipe_permuted stages stages' P F st).
  unfold same_composition.
  destruct (pipe stages st) as [composed|e] eqn:E.
  - repeat split.
  - pose proof (stages_Throw stages st e F E). auto.
Qed.

Lemma pipe_any_order_witness :
  exists composed,
    pipe [composeCommand; composeRemove; composeGroup]
      (initialState readableFragments) = Ok composed /\
    composed.(p_command) = Some [ ("a", validCommand) ] /\
    composed.(p_remove) = Some [ VStr "b" ] /\
    composed.(p_group)
    = Some [ ("g", VObj [ ("label", VStr "L2");
                          ("fields", VArr [ VStr "a"; VStr "b" ]) ]) ] /\
    same_composition
      (pipe [composeGroup; composeCommand; composeRemove]
         (initialState readableFragments))
      (pipe [composeCommand; composeRemove; composeGroup]
         (initialState readableFragments)).
Proof.
  eexists. split; [vm_compute; reflexivity|].
  split; [reflexivity|]. split; [reflexivity|]. split; [reflexivity|].
  apply (pipe_any_order [composeGroup; composeCommand; composeRemove]
           [composeCommand; composeRemove; composeGroup]).
  - apply (Permutation_cons_app [composeCommand; composeRemove] []
             composeGroup).
    apply Permutation_refl.
  - constructor; [right; right; left; reflexivity|].
    constructor; [left; reflexivity|].
    constructor; [right; left; reflexivity | constructor].
Defined.

(** ** Published groups *)

Lemma mergeGroup_keeps_merged groups e groups' :
  merged_table groups -> mergeGroup groups e = Ok groups' -> merged_table groups'.
Proof.
  intros M H. destruct e as [name attributes].
  assert (NN : nullish attributes = false).
  { unfold mergeGroup in H. inv_bind H. now apply get_prop_Ok in E. }
  destruct (mergeGroup_step groups name attributes M NN) as (g1 & S1 & M1 & _).
  congruence.
Qed.

Lemma formatGroups_keeps_merged state fragment state' :
  merged_table state -> formatGroups state fragment = Ok state' ->
  merged_table state'.
Proof.
  intros M H. unfold formatGroups in H. inv_bind H. inv_bind H.
  revert H. apply foldM_invariant; [|exact M].
  intros a e a' _ Ma S. eapply mergeGroup_keeps_merged; eauto.
Qed.

(** Group-merge keeps every group an object whose [fields] is an array,
    whatever the fragments contributed for it. *)
Lemma composeGroup_merged st st' :
  composeGroup st = Ok st' ->
  exists table, st'.(p_group) = Some table /\ merged_table table.
Proof.
  unfold composeGroup. intros H. inv_bind H. inversion H; subst; clear H.
  simpl. eexists. split; [reflexivity|].
  revert E. apply foldM_invariant; [|apply merged_table_empty].
  intros a f a' _ Ma S. eapply formatGroups_keeps_merged; eauto.
Qed.

Lemma merged_table_resolves table commands :
  merged_table table ->
  exists es, mapM (visibleGroup commands) table = Ok es.
Proof.
  intros [ND Arr]. apply mapM_returns. intros [g v] I.
  apply (obj_get_NoDup_In _ _ _ ND) in I.
  destruct (Arr _ _ I) as (o & l & -> & F).
  unfold visibleGroup. simpl. unfold obj_at. rewrite F. simpl. eauto.
Qed.

(** X8: On a published registry the group view is always built: every
    published group is an object whose [fields] is an array, also where
    validation never looked at it. *)
Theorem published_groups_resolve modules s commands :
  fst (composeCommands modules s) = Published ->
  exists view, getVisibleGroups (snd (composeCommands modules s)) commands = Ok view.
Proof.
  unfold composeCommands.
  destruct (collect modules) as [raw|]; simpl; [|discriminate].
  destruct (pipe _ _) as [composed|] eqn:P; simpl; [|discriminate].
  destruct (validate composed); simpl; [|discriminate]. intros _.
  unfold pipe in P. simpl in P.
  destruct (composeCommand (initialState raw)) as [st1|]; [|discriminate].
  simpl in P. destruct (composeRemove st1) as [st2|]; [|discriminate].
  simpl in P. destruct (composeGroup st2) as [st3|] eqn:C; [|discriminate].
  inversion P; subst st3; clear P.
  destruct (composeGroup_merged _ _ C) as (table & Et & M).
  unfold getVisibleGroups. simpl. rewrite Et.
  destruct (merged_table_resolves table commands M) as (es & ->).
  simpl. eauto.
Qed.

Lemma published_groups_resolve_witness :
  exists view,
    getVisibleGroups
      (snd (composeCommands
              [ moduleDeclaring ("a", validCommand) ("b", numericShortcut) ]
              (init VUndef)))
      [ ("a", validCommand) ] = Ok view.
Proof.
  apply (published_groups_resolve
           [ moduleDeclaring ("a", validCommand) ("b", numericShortcut) ]
           (init VUndef) [ ("a", validCommand) ]).
  reflexivity.
Defined.

(** ** After a cycle that did not publish *)

(** X9: When a cycle got past the collector and did not publish, whether
    validation failed or the pipeline raised, every request resolves to the
    empty view until the next cycle. *)
Theorem failed_cycle_resolves_empty can modules s raw req :
  collect modules = Ok raw ->
  fst (composeCommands modules s) <> Published ->
  getVisible can (snd (composeCommands modules s)) req = Ok (mkView [] []).
Proof.
  intros C. unfold composeCommands. rewrite C.
  destruct (pipe _ _) as [composed|]; simpl; [|reflexivity].
  destruct (validate composed); simpl; [congruence | reflexivity].
Qed.

Lemma failed_cycle_resolves_empty_witness :
  getVisible allowAll
    (snd (composeCommands
            [ moduleDeclaring ("b", numericShortcut) ("a", validCommand) ]
            earlierState))
    editor = Ok (mkView [] []).
Proof.
  eapply (failed_cycle_resolves_empty allowAll
            [ moduleDeclaring ("b", numericShortcut) ("a", validCommand) ]
            earlierState).
  - reflexivity.
  - vm_compute. discriminate.
Defined.

(** ** The command table and the group view, entry by entry *)

Lemma obj_get_all_same {V} (o : list (string * V)) k c :
  In (k, c) o -> (forall v, In (k, v) o -> v = c) -> obj_get o k = Some c.
Proof.
  induction o as [|[k0 v0] o IH]; simpl; [tauto|]. intros I U.
  destruct (String.eqb_spec k0 k) as [->|N].
  - f_equal. apply U. now left.
  - destruct I as [Q|I]; [inversion Q; congruence|].
    apply IH; auto.
Qed.

Lemma NoDup_keys_unique {V} (o : list (string * V)) k v v' :
  NoDup (map fst o) -> In (k, v) o -> In (k, v') o -> v = v'.
Proof.
  intros ND I I'. apply (obj_get_NoDup_In _ _ _ ND) in I, I'. congruence.
Qed.

Lemma obj_get_fromEntries es k c :
  In (k, c) (map entry_pair es) ->
  (forall v, In (k, v) (map entry_pair es) -> v = c) ->
  obj_get (fromEntries es) k = Some c.
Proof.
  intros I U. unfold fromEntries. rewrite obj_get_assign.
  rewrite (obj_get_all_same (rev (map entry_pair es)) k c).
  - reflexivity.
  - now apply in_rev in I.
  - intros v Iv. apply U. now apply in_rev.
Qed.

Lemma Forall2_In_l {A B} (R : A -> B -> Prop) l l' x :
  Forall2 R l l' -> In x l -> exists y, In y l' /\ R x y.
Proof.
  induction 1 as [|a b l l' Hab F IH]; simpl; [tauto|].
  intros [<-|I]; [eauto|]. destruct (IH I) as (y & Iy & Rx). eauto.
Qed.

Lemma visibleCommand_lets_through can s req k c :
  includes_str s.(removes) k = false ->
  isCommandVisible can req c = Ok true ->
  visibleCommand can s req (k, c) = Ok (Some (k, c)).
Proof. intros R V. unfold visibleCommand. now rewrite R, V. Qed.

(** Under a name other than [undefined], the filtered table holds exactly
    the visible commands. *)
Lemma visibleCommands_lookup can s req cmds k c :
  visibleCommands can s req = Ok cmds ->
  NoDup (map fst s.(commands)) ->
  k <> "undefined" ->
  (obj_get cmds k = Some c <-> visible_command can s req k c).
Proof.
  intros H ND NU. split.
  - intros G. apply obj_get_In in G.
    destruct (visibleCommands_entry _ _ _ _ _ _ H G) as [V|[U _]];
      [exact V | contradiction].
  - intros (I & R & V). unfold visibleCommands in H. inv_bind H.
    inversion H; subst; clear H.
    pose proof (mapM_Ok_Forall2 _ _ _ E) as F.
    apply obj_get_fromEntries.
    + destruct (Forall2_In_l _ _ _ _ F I) as (y & Iy & Ey).
      rewrite (visibleCommand_lets_through _ _ _ _ _ R V) in Ey.
      inversion Ey; subst. apply in_map_iff. exists (Some (k, c)). auto.
    + intros v Iv. apply in_map_iff in Iv. destruct Iv as (y & Py & Iy).
      destruct (Forall2_In_r _ _ _ _ F Iy) as (e & Ie & Ee).
      destruct y as [p|]; simpl in Py.
      * subst p. apply visibleCommand_Some in Ee. destruct Ee as (<- & _).
        eapply NoDup_keys_unique; eauto.
      * inversion Py. congruence.
Qed.

Lemma keys_include_spec (commands : obj) field :
  keys_include (object_keys commands) field =
  match field with
  | VStr f => if obj_has commands f then Some f else None
  | _ => None
  end.
Proof.
  unfold keys_include. destruct field; try reflexivity.
  replace (existsb (String.eqb s) (object_keys commands)) with (obj_has commands s);
    [reflexivity|].
  unfold object_keys. destruct (obj_has commands s) eqn:H.
  - apply obj_has_true in H. symmetry. apply existsb_exists.
    exists s. split; [exact H | apply String.eqb_refl].
  - symmetry. apply not_true_is_false. intros X. apply existsb_exists in X.
    destruct X as (x & I & Q). apply String.eqb_eq in Q. subst x.
    apply obj_has_true in I. congruence.
Qed.

Lemma NoDup_keys_pickField commands acc field :
  NoDup (map fst acc) -> NoDup (map fst (pickField commands acc field)).
Proof.
  intros ND. unfold pickField.
  destruct (keys_include (object_keys commands) field); [|exact ND].
  apply NoDup_keys_set, NoDup_keys_spread. constructor.
Qed.

Lemma obj_get_pickField commands acc field k :
  NoDup (map fst acc) ->
  obj_get (pickField commands acc field) k =
  if includes_str [field] k && obj_has commands k then obj_get commands k
  else obj_get acc k.
Proof.
  intros ND. unfold pickField. rewrite keys_include_spec.
  unfold includes_str. simpl. rewrite orb_false_r.
  destruct field; simpl; try reflexivity.
  destruct (obj_has commands s) eqn:H.
  - rewrite obj_get_set. destruct (String.eqb_spec s k) as [->|N]; simpl.
    + rewrite H. unfold obj_at, obj_has in *.
      destruct (obj_get commands k); [reflexivity | discriminate].
    + apply obj_get_copy, ND.
  - destruct (String.eqb_spec s k) as [->|N]; simpl; [now rewrite H | reflexivity].
Qed.

(** The fields picked for a group: the listed names the table has, each
    with the table's value. *)
Lemma reduceFields_lookup commands l k :
  exists fields,
    reduceFields commands (VArr l) = Ok fields /\
    NoDup (map fst fields) /\
    obj_get fields k =
    if includes_str l k && obj_has commands k then obj_get commands k else None.
Proof.
  simpl. eexists. split; [reflexivity|].
  assert (G : forall acc,
             NoDup (map fst acc) ->
             NoDup (map fst (fold_left (pickField commands) l acc)) /\
             obj_get (fold_left (pickField commands) l acc) k =
             if includes_str l k && obj_has commands k then obj_get commands k
             else obj_get acc k).
  { induction l as [|f l IH]; simpl; intros acc ND; [split; [exact ND | reflexivity]|].
    destruct (IH _ (NoDup_keys_pickField commands acc f ND)) as [ND' G].
    split; [exact ND'|]. rewrite G. rewrite (obj_get_pickField commands acc f k ND).
    unfold includes_str. simpl. rewrite orb_false_r.
    destruct (existsb _ l); simpl.
    - rewrite orb_true_r. simpl.
      destruct (obj_has commands k); rewrite ?andb_false_r; reflexivity.
    - rewrite orb_false_r. reflexivity. }
  apply (G []). constructor.
Qed.

(** The table of visible groups holds, under a published group's name,
    what [visibleGroup] makes of that group. *)
Lemma visible_groups_lookup commands gs es g group :
  mapM (visibleGroup commands) gs = Ok es ->
  NoDup (map fst gs) ->
  (obj_get (fromEntries (filter nonempty es)) g = Some group <->
   exists published,
     In (g, published) gs /\
     visibleGroup commands (g, published) = Ok (Some (g, group))).
Proof.
  intros M ND. pose proof (mapM_Ok_Forall2 _ _ _ M) as F.
  assert (Back : forall k v,
             In (k, v) (map entry_pair (filter nonempty es)) ->
             exists published,
               In (k, published) gs /\
               visibleGroup commands (k, published) = Ok (Some (k, v))).
  { intros k v I. apply in_map_iff in I. destruct I as (y & Py & Iy).
    apply filter_In in Iy. destruct Iy as [Iy NE].
    destruct y as [p|]; [|discriminate NE]. simpl in Py. subst p.
    destruct (Forall2_In_r _ _ _ _ F Iy) as ([k0 pg] & I0 & V).
    pose proof (visibleGroup_over _ _ _ _ V) as [K _]. simpl in K. subst k0.
    eauto. }
  split.
  - intros G. apply obj_get_In in G. apply In_fromEntries in G.
    destruct G as (y & Iy & Py). apply Back. apply in_map_iff. eauto.
  - intros (pg & I & V). apply obj_get_fromEntries.
    + destruct (Forall2_In_l _ _ _ _ F I) as (y & Iy & Ey).
      rewrite V in Ey. inversion Ey; subst.
      apply in_map_iff. exists (Some (g, group)). split; [reflexivity|].
      apply filter_In. auto.
    + intros v Iv. destruct (Back _ _ Iv) as (pg' & I' & V').
      rewrite (NoDup_keys_unique _ _ _ _ ND I' I) in V'. congruence.
Qed.

(** X10: The group view, entry by entry: under a name other than [undefined], a
    group of the view holds a command exactly when the published group of
    that name lists it and the command is visible.  Names a group lists
    without a visible command behind them are left out, and so are groups
    left with no field. *)
Theorem group_view_entries can s req out g name c :
  getVisible can s req = Ok out ->
  NoDup (map fst s.(commands)) ->
  NoDup (map fst s.(groups)) ->
  name <> "undefined" ->
  (group_entry out.(v_groups) g name = Some c <->
   visible_command can s req name c /\
   exists published l,
     In (g, published) s.(groups) /\
     get_prop_opt published "fields" = VArr l /\
     In (VStr name) l).
Proof.
  unfold getVisible. intros H NDc NDg NU.
  inv_bind H. rename x into cmds, E into Hc.
  inv_bind H. rename x into gs, E into Hg.
  inv_bind H. inversion H; subst out; clear H. simpl.
  unfold getVisibleGroups in Hg. inv_bind Hg. rename x0 into es.
  inversion Hg; subst gs; clear Hg. split.
  - intros G. apply group_entry_chain in G.
    destruct G as (group & fields & Ig & Ef & If & Ic).
    apply (obj_get_NoDup_In _ _ _ (NoDup_keys_assign _ [] (NoDup_nil _))) in Ig.
    apply (visible_groups_lookup _ _ _ _ _ E0 NDg) in Ig.
    destruct Ig as (pg & Ipg & V).
    unfold visibleGroup in V. inv_bind V. inv_bind V.
    apply get_prop_Ok in E1. destruct E1 as [Npg ->].
    match goal with
    | R : reduceFields _ _ = Ok ?f |- _ => rename f into fs, R into Rf
    end.
    destruct (Nat.eqb (List.length fs) 0); inversion V; subst group; clear V.
    simpl in If. apply In_obj_set_same in If;
      [|apply NoDup_keys_spread; constructor].
    subst fields. simpl in Ic.
    destruct (get_prop_opt pg "fields") as [| | | | |l|] eqn:Fl;
      try discriminate.
    split.
    + apply (visibleCommands_lookup _ _ _ _ _ _ Hc NDc NU).
      pose proof (reduceFields_In _ _ _ _ Rf Ic) as Icmd.
      destruct (visibleCommands_entry _ _ _ _ _ _ Hc Icmd) as [V|[U _]];
        [|contradiction].
      now apply (visibleCommands_lookup _ _ _ _ _ _ Hc NDc NU).
    + exists pg, l. repeat split; auto.
      eapply reduceFields_listed; eauto.
  - intros (V & pg & l & Ipg & Fl & Il).
    apply (visibleCommands_lookup _ _ _ _ _ _ Hc NDc NU) in V.
    destruct (reduceFields_lookup cmds l name) as (fields & Rf & NDf & Gf).
    assert (Hh : obj_has cmds name = true) by (unfold obj_has; now rewrite V).
    apply includes_str_In in Il. rewrite Il, Hh, V in Gf. simpl in Gf.
    assert (Npg : nullish pg = false)
      by (destruct pg; simpl in *; try discriminate; reflexivity).
    assert (Vg : visibleGroup cmds (g, pg) =
                 Ok (Some (g, VObj (obj_set "fields" (VObj fields)
                                      (obj_spread [] pg))))).
    { unfold visibleGroup. rewrite (get_prop_readable _ _ Npg), Fl.
      simpl in Rf |- *. inversion Rf as [Q]. rewrite Q.
      destruct fields as [|p fields]; [discriminate Gf | reflexivity]. }
    assert (Gt : obj_get (fromEntries (filter nonempty es)) g =
                 Some (VObj (obj_set "fields" (VObj fields) (obj_spread [] pg))))
      by (apply (visible_groups_lookup _ _ _ _ _ E0 NDg); eauto).
    unfold group_entry, obj_at. rewrite Gt. simpl. unfold obj_at.
    rewrite obj_get_set_eq. simpl. exact Gf.
Qed.

Lemma group_view_entries_witness :
  exists out,
    getVisible allowAll (twoCommands [ VStr "b" ]) editor = Ok out /\
    (group_entry out.(v_groups) "g" "a" = Some validCommand <->
     visible_command allowAll (twoCommands [ VStr "b" ]) editor "a" validCommand /\
     exists published l,
       In ("g", published) (twoCommands [ VStr "b" ]).(groups) /\
       get_prop_opt published "fields" = VArr l /\
       In (VStr "a") l).
Proof.
  destruct (getVisible allowAll (twoCommands [ VStr "b" ]) editor) as [out|e] eqn:V;
    [|vm_compute in V; discriminate].
  exists out. split; [reflexivity|].
  apply (group_view_entries allowAll (twoCommands [ VStr "b" ]) editor out
           "g" "a" validCommand V).
  - repeat constructor; simpl; intuition discriminate.
  - repeat constructor; simpl; intuition discriminate.
  - discriminate.
Defined.

(** ** The modal view, entry by entry *)

Lemma obj_get_spread_value v k :
  (v = VUndef \/ exists o, v = VObj o /\ NoDup (map fst o)) ->
  obj_get (obj_spread [] v) k = obj_get (props v) k.
Proof.
  intros [->|(o & -> & ND)]; [reflexivity|]. now apply obj_get_copy.
Qed.

(** One step of the [forEach]: the command is filed under its modal key,
    its group and its name, and nothing else moves. *)
Lemma fileCommand_entry key group acc name field acc' :
  modals_shaped acc ->
  fileCommand key group acc (name, field) = Ok acc' ->
  modals_shaped acc' /\
  forall m g n,
    modal_entry acc' m g n =
    if String.eqb (modal_key field) m && String.eqb key g && String.eqb name n
    then Some field
    else modal_entry acc m g n.
Proof.
  intros Inv H. apply fileCommand_Ok in H. destruct H as (NN & _ & ->).
  set (atModal := obj_at acc (modal_key field)).
  set (atKey := get_prop_opt atModal key).
  assert (SM : atModal = VUndef \/
               exists o, atModal = VObj o /\ NoDup (map fst o) /\
                         forall g shell, obj_get o g = Some shell ->
                                         shell_shaped shell).
  { subst atModal. unfold obj_at.
    destruct (obj_get acc (modal_key field)) as [vm|] eqn:G; [|now left].
    right. destruct (Inv _ _ G) as (o & -> & ND & Sh). eauto. }
  assert (SK : atKey = VUndef \/ shell_shaped atKey).
  { subst atKey. destruct SM as [->|(o & -> & ND & Sh)]; [now left|].
    simpl. unfold obj_at. destruct (obj_get o key) eqn:G; [|now left].
    right. eapply Sh; eauto. }
  assert (SF : forall n,
             obj_get (obj_spread [] (get_prop_opt atKey "fields")) n =
             obj_get (props (get_prop_opt atKey "fields")) n).
  { intros n. apply obj_get_spread_value.
    destruct SK as [->|(sh & f & -> & G & ND)]; [now left|].
    right. exists f. simpl. unfold obj_at. rewrite G. auto. }
  assert (SS : forall g,
             obj_at (obj_spread [] atModal) g = get_prop_opt atModal g).
  { intros g. unfold obj_at at 1. rewrite obj_get_spread_value.
    - destruct SM as [->|(o & -> & _)]; reflexivity.
    - destruct SM as [->|(o & -> & ND & _)]; [now left | right; eauto]. }
  set (fields := obj_set name field (obj_spread [] (get_prop_opt atKey "fields"))).
  set (shell := obj_set "fields" (VObj fields) (obj_spread [] (js_or atKey group))).
  set (byGroup := obj_set key (VObj shell) (obj_spread [] atModal)).
  assert (Shell : shell_shaped (VObj shell)).
  { exists shell, fields. repeat split.
    - apply obj_get_set_eq.
    - apply NoDup_keys_set, NoDup_keys_spread. constructor. }
  assert (Modal : modal_shaped (VObj byGroup)).
  { exists byGroup. repeat split.
    - apply NoDup_keys_set, NoDup_keys_spread. constructor.
    - intros g sh G. subst byGroup. rewrite obj_get_set in G.
      destruct (String.eqb key g); [inversion G; subst; exact Shell|].
      destruct SM as [U|(o & U & ND & Sh)]; rewrite U in G.
      + discriminate G.
      + rewrite obj_get_copy in G by exact ND. eapply Sh; eauto. }
  split.
  - intros m vm G. rewrite obj_get_set in G.
    destruct (String.eqb (modal_key field) m).
    + inversion G; subst. exact Modal.
    + eapply Inv; eauto.
  - intros m g n. unfold modal_entry. unfold obj_at at 1. rewrite obj_get_set.
    destruct (String.eqb_spec (modal_key field) m) as [<-|Nm]; simpl; [|reflexivity].
    unfold obj_at at 1. subst byGroup. rewrite obj_get_set.
    destruct (String.eqb_spec key g) as [<-|Ng]; simpl.
    + unfold obj_at at 1. subst shell. rewrite obj_get_set_eq. simpl.
      subst fields. rewrite obj_get_set.
      destruct (String.eqb name n); [reflexivity|].
      rewrite SF. reflexivity.
    + fold (obj_at (obj_spread [] atModal) g). rewrite SS. reflexivity.
Qed.

Lemma obj_get_absent {V} (o : list (string * V)) k :
  ~ In k (map fst o) -> obj_get o k = None.
Proof.
  intros N. destruct (obj_get o k) eqn:G; [|reflexivity].
  apply obj_get_In in G. exfalso. apply N.
  apply in_map_iff. exists (k, v). auto.
Qed.

(** The commands of one group, filed one after the other. *)
Lemma fileCommands_entries key group entries : forall acc acc',
  NoDup (map fst entries) ->
  modals_shaped acc ->
  foldM (fileCommand key group) entries acc = Ok acc' ->
  modals_shaped acc' /\
  forall m g n,
    modal_entry acc' m g n =
    match (if String.eqb key g then obj_get entries n else None) with
    | Some f => if String.eqb (modal_key f) m then Some f else modal_entry acc m g n
    | None => modal_entry acc m g n
    end.
Proof.
  induction entries as [|[name field] rest IH]; intros acc acc' ND Inv H.
  - simpl in H. inversion H; subst. split; [exact Inv|].
    intros m g n. now destruct (String.eqb key g).
  - simpl in H. inv_bind H. rename x into acc1.
    inversion ND as [|? ? Fresh ND']; subst.
    destruct (fileCommand_entry _ _ _ _ _ _ Inv E) as [Inv1 Step].
    destruct (IH _ _ ND' Inv1 H) as [Inv' Rest].
    split; [exact Inv'|]. intros m g n. rewrite Rest, Step. simpl.
    destruct (String.eqb_spec key g) as [<-|Ng]; simpl;
      [|now rewrite andb_false_r].
    rewrite andb_true_r.
    destruct (String.eqb_spec name n) as [<-|Nn].
    + rewrite (obj_get_absent rest name Fresh), andb_true_r. reflexivity.
    + rewrite andb_false_r. reflexivity.
Qed.

(** The groups of the view, filed one after the other. *)
Lemma fileGroups_entries groups : forall acc acc',
  NoDup (map fst groups) ->
  (forall g v, In (g, v) groups -> shell_shaped v) ->
  modals_shaped acc ->
  foldM fileGroup groups acc = Ok acc' ->
  modals_shaped acc' /\
  forall m g n,
    modal_entry acc' m g n =
    match group_entry groups g n with
    | Some f => if String.eqb (modal_key f) m then Some f else modal_entry acc m g n
    | None => modal_entry acc m g n
    end.
Proof.
  induction groups as [|[key group] rest IH]; intros acc acc' ND Sh Inv H.
  - simpl in H. inversion H; subst. auto.
  - simpl in H. inv_bind H. rename x into acc1.
    inversion ND as [|? ? Fresh ND']; subst.
    destruct (Sh key group (or_introl eq_refl)) as (sh & f & -> & Gf & NDf).
    unfold fileGroup in E. simpl in E. unfold obj_at in E. rewrite Gf in E.
    simpl in E.
    destruct (fileCommands_entries _ _ _ _ _ NDf Inv E) as [Inv1 Step].
    destruct (IH _ _ ND' (fun g v I => Sh g v (or_intror I)) Inv1 H)
      as [Inv' Rest].
    split; [exact Inv'|]. intros m g n. rewrite Rest, Step.
    unfold group_entry, obj_at. simpl.
    destruct (String.eqb_spec key g) as [<-|Ng]; simpl.
    + rewrite (obj_get_absent rest key Fresh). simpl.
      unfold obj_at. rewrite Gf. reflexivity.
    + reflexivity.
Qed.

Lemma reduceFields_NoDup commands declared fields :
  reduceFields commands declared = Ok fields -> NoDup (map fst fields).
Proof.
  destruct declared; try discriminate. intros H.
  destruct (reduceFields_lookup commands l "") as (f & R & ND & _).
  congruence.
Qed.

Lemma visible_groups_shaped commands gs es g group :
  mapM (visibleGroup commands) gs = Ok es ->
  In (g, group) (fromEntries (filter nonempty es)) ->
  shell_shaped group.
Proof.
  intros M I. apply In_fromEntries in I. destruct I as (y & Iy & P).
  apply filter_In in Iy. destruct Iy as [Iy NE].
  destruct y as [p|]; [|discriminate NE]. simpl in P. subst p.
  destruct (Forall2_In_r _ _ _ _ (mapM_Ok_Forall2 _ _ _ M) Iy) as ([k pg] & _ & V).
  unfold visibleGroup in V. inv_bind V. inv_bind V.
  match goal with
  | R : reduceFields _ _ = Ok ?f |- _ => rename f into fs, R into Rf
  end.
  destruct (Nat.eqb (List.length fs) 0); inversion V; subst.
  eexists _, fs. repeat split.
  - apply obj_get_set_eq.
  - eapply reduceFields_NoDup; eauto.
Qed.

(** X11: The modal view is the group view split by modal: a command sits in a
    group of a modal exactly when it sits in that group of the group view
    and the modal is the command's own ([null] for a command without
    one). *)
Theorem modal_view_splits_group_view can s req out m g name c :
  getVisible can s req = Ok out ->
  (modal_entry out.(v_modals) m g name = Some c <->
   group_entry out.(v_groups) g name = Some c /\ m = modal_key c).
Proof.
  unfold getVisible. intros H.
  inv_bind H. rename x into cmds.
  inv_bind H. rename x into gs, E0 into Hg.
  inv_bind H. rename x into ms, E0 into Hm.
  inversion H; subst out; clear H. simpl.
  unfold getVisibleGroups in Hg. inv_bind Hg. rename x into es, E0 into Hes.
  inversion Hg; subst gs; clear Hg.
  apply (getVisibleModals_fold _ _ _ _ Hes) in Hm. destruct Hm as [Hm _].
  assert (Inv0 : modals_shaped []) by (intros ? ? G; discriminate G).
  destruct (fileGroups_entries _ _ _
              (NoDup_keys_assign _ [] (NoDup_nil _))
              (fun g v I => visible_groups_shaped _ _ _ _ _ Hes I)
              Inv0 Hm) as [_ Q].
  rewrite Q. change (modal_entry [] m g name) with (@None value).
  unfold fromEntries.
  destruct (group_entry (obj_assign [] (map entry_pair (filter nonempty es))) g name)
    as [f|];
    [|split; [intros X; discriminate X | intros [X _]; discriminate X]].
  destruct (String.eqb_spec (modal_key f) m) as [<-|N]; split.
  - intros X. inversion X; subst. auto.
  - intros [X _]. exact X.
  - intros X. discriminate X.
  - intros [X ->]. inversion X; subst. contradiction.
Qed.

Lemma modal_view_splits_group_view_witness :
  exists out,
    getVisible allowAll (twoCommands []) editor = Ok out /\
    (modal_entry out.(v_modals) "null" "g" "a" = Some validCommand <->
     group_entry out.(v_groups) "g" "a" = Some validCommand /\
     "null" = modal_key validCommand).
Proof.
  destruct (getVisible allowAll (twoCommands []) editor) as [out|e] eqn:V;
    [|vm_compute in V; discriminate].
  exists out. split; [reflexivity|].
  apply (modal_view_splits_group_view allowAll (twoCommands []) editor out
           "null" "g" "a" validCommand V).
Defined.

(** ** When the resolver throws *)

Lemma isCommandVisible_Throw can req command e :
  isCommandVisible can req command = Throw e -> e = TypeError.
Proof.
  unfold isCommandVisible. intros H.
  repeat match type of H with
  | (match ?b with true => _ | false => _ end) = _ =>
      destruct b; [|discriminate H]
  | bind ?m _ = Throw _ =>
      let E := fresh "E" in
      destruct m eqn:E; simpl in H;
      [|inversion H; subst; eapply get_prop_Throw; eauto]
  end.
  discriminate H.
Qed.

Lemma visibleCommand_Throw can s req e err :
  visibleCommand can s req e = Throw err -> err = TypeError.
Proof.
  destruct e as [k c]. unfold visibleCommand. intros H.
  destruct (negb (includes_str (removes s) k)); [|discriminate H].
  destruct (isCommandVisible can req c) eqn:E; simpl in H; [discriminate H|].
  inversion H; subst. eapply isCommandVisible_Throw; eauto.
Qed.

Lemma visibleGroup_Throw commands e err :
  visibleGroup commands e = Throw err -> err = TypeError.
Proof.
  destruct e as [k g]. unfold visibleGroup. intros H.
  destruct (get_prop g "fields") as [d|e1] eqn:E1; simpl in H;
    [|inversion H; subst; eapply get_prop_Throw; eauto].
  destruct d; simpl in H; inversion H; reflexivity.
Qed.

Lemma fileCommand_Throw key group acc e err :
  fileCommand key group acc e = Throw err -> err = TypeError.
Proof.
  destruct e as [n f]. unfold fileCommand. intros H.
  destruct (get_prop f "modal") eqn:E; simpl in H;
    [|inversion H; subst; eapply get_prop_Throw; eauto].
  destruct (to_string (js_or a VNull)) eqn:E2; simpl in H; [discriminate H|].
  inversion H; subst. eapply to_string_Throw; eauto.
Qed.

Lemma fileGroup_Throw acc e err :
  fileGroup acc e = Throw err -> err = TypeError.
Proof.
  destruct e as [k g]. unfold fileGroup. intros H.
  destruct (get_prop g "fields") as [d|e1] eqn:E1; simpl in H;
    [|inversion H; subst; eapply get_prop_Throw; eauto].
  unfold object_entries in H. destruct (nullish d); simpl in H;
    [now inversion H|].
  exact (foldM_Throw (fileCommand k g) (fun e => e = TypeError) (own_entries d)
           (fileCommand_Throw k g) acc err H).
Qed.

(** No assertion is made while resolving: whatever the resolver throws is a
    [TypeError]; the only other way for a run not to return a view is to
    end with [Inherited], after the whole modal view was built. *)
Lemma getVisible_Throw can s req err :
  getVisible can s req = Throw err ->
  err = TypeError \/
  (err = Inherited /\
   exists cmds es ms,
     visibleCommands can s req = Ok cmds /\
     mapM (visibleGroup cmds) s.(groups) = Ok es /\
     foldM fileGroup (fromEntries (filter nonempty es)) [] = Ok ms).
Proof.
  unfold getVisible, visibleCommands, getVisibleGroups, getVisibleModals.
  intros H.
  destruct (mapM (visibleCommand can s req) (commands s)) as [ces|e1] eqn:E1;
    simpl in H.
  2:{ inversion H; subst. left.
      exact (mapM_Throw _ (fun e => e = TypeError) _
               (visibleCommand_Throw can s req) _ E1). }
  destruct (mapM (visibleGroup (fromEntries ces)) (groups s)) as [ges|e2] eqn:E2;
    simpl in H.
  2:{ inversion H; subst. left.
      exact (mapM_Throw _ (fun e => e = TypeError) _
               (visibleGroup_Throw (fromEntries ces)) _ E2). }
  destruct (foldM fileGroup (fromEntries (filter nonempty ges)) []) as [ms|e3] eqn:E3;
    simpl in H.
  - destruct (own_only ms); simpl in H; inversion H; subst.
    right. split; [reflexivity|]. exists (fromEntries ces), ges, ms. auto.
  - inversion H; subst. left.
    exact (foldM_Throw fileGroup (fun e => e = TypeError) _ fileGroup_Throw [] _ E3).
Qed.

Lemma mapM_Throw_In {A B} (f : A -> result B) l x e :
  In x l -> f x = Throw e -> exists e', mapM f l = Throw e'.
Proof.
  induction l as [|y l IH]; simpl; [tauto|]. intros I E.
  destruct (f y) as [b|e1] eqn:Ey; simpl; [|eauto].
  destruct I as [->|I]; [congruence|].
  destruct (IH I E) as (e' & ->). simpl. eauto.
Qed.

(** X12: A published command that is [null] or [undefined] and is not removed
    makes the resolver throw, whoever asks. *)
Theorem null_command_breaks_resolution can s req name command :
  In (name, command) s.(commands) ->
  nullish command = true ->
  includes_str s.(removes) name = false ->
  getVisible can s req = Throw TypeError.
Proof.
  intros I N R.
  assert (T : visibleCommand can s req (name, command) = Throw TypeError).
  { unfold visibleCommand. rewrite R. simpl.
    destruct command; try discriminate N; reflexivity. }
  destruct (mapM_Throw_In _ _ _ _ I T) as (e & E).
  pose proof (mapM_Throw _ (fun e => e = TypeError) _
                (visibleCommand_Throw can s req) _ E) as Q.
  simpl in Q. subst e.
  unfold getVisible, visibleCommands. now rewrite E.
Qed.

Lemma null_command_breaks_resolution_witness :
  getVisible allowAll nullSecond editor = Throw TypeError.
Proof.
  apply (null_command_breaks_resolution allowAll nullSecond editor "b" VNull).
  - simpl. auto.
  - reflexivity.
  - reflexivity.
Defined.

Lemma visibleGroup_keeps commands g published l fields :
  get_prop_opt published "fields" = VArr l ->
  reduceFields commands (VArr l) = Ok fields ->
  fields <> [] ->
  visibleGroup commands (g, published) =
  Ok (Some (g, VObj (obj_set "fields" (VObj fields) (obj_spread [] published)))).
Proof.
  intros Fl Rf NE.
  assert (Npg : nullish published = false)
    by (destruct published; simpl in *; try discriminate; reflexivity).
  unfold visibleGroup. rewrite (get_prop_readable _ _ Npg), Fl.
  simpl in Rf |- *. inversion Rf as [Q]. rewrite Q.
  destruct fields; [contradiction | reflexivity].
Qed.

(** X13: [Object.fromEntries] turns every command that was filtered out into a
    property [undefined] of the table.  A group that lists that name picks
    it up as a field, and filing the field under its modal throws. *)
Theorem listed_undefined_breaks_resolution can s req g published l name command :
  NoDup (map fst s.(groups)) ->
  In (g, published) s.(groups) ->
  get_prop_opt published "fields" = VArr l ->
  In (VStr "undefined") l ->
  ~ In "undefined" (map fst s.(commands)) ->
  In (name, command) s.(commands) ->
  visibleCommand can s req (name, command) = Ok None ->
  getVisible can s req = Throw TypeError.
Proof.
  intros NDg Ig Fl Il NU Ic Out.
  assert (Built : forall cmds es ms,
             visibleCommands can s req = Ok cmds ->
             mapM (visibleGroup cmds) s.(groups) = Ok es ->
             foldM fileGroup (fromEntries (filter nonempty es)) [] = Ok ms ->
             False);
    [|destruct (getVisible can s req) as [out|err] eqn:G].
  2:{ exfalso. unfold getVisible in G.
      inv_bind G. rename x into cmds, E into Hc.
      inv_bind G. inv_bind G. rename x0 into ms, E0 into Hm.
      apply getVisibleModals_Ok in Hm. destruct Hm as (es & Hes & Hm & _).
      eapply Built; eauto. }
  2:{ f_equal. destruct (getVisible_Throw _ _ _ _ G)
        as [Q|(_ & cmds & es & ms & Hc & Hes & Hm)]; [exact Q|].
      exfalso. eapply Built; eauto. }
  intros cmds es ms Hc Hes Hm.
  assert (U : obj_get cmds "undefined" = Some VUndef).
  { unfold visibleCommands in Hc. inv_bind Hc. inversion Hc; subst cmds; clear Hc.
    pose proof (mapM_Ok_Forall2 _ _ _ E) as F.
    apply obj_get_fromEntries.
    - destruct (Forall2_In_l _ _ _ _ F Ic) as (y & Iy & Ey).
      rewrite Out in Ey. inversion Ey; subst y.
      apply in_map_iff. exists None. auto.
    - intros v Iv. apply in_map_iff in Iv. destruct Iv as (y & Py & Iy).
      destruct y as [p|]; simpl in Py; [|now inversion Py].
      subst p. destruct (Forall2_In_r _ _ _ _ F Iy) as (e & Ie & Ee).
      apply visibleCommand_Some in Ee. destruct Ee as (<- & _).
      exfalso. apply NU. apply in_map_iff. exists ("undefined", v). auto. }
  destruct (reduceFields_lookup cmds l "undefined") as (fields & Rf & NDf & Gf).
  assert (Hh : obj_has cmds "undefined" = true) by (unfold obj_has; now rewrite U).
  apply includes_str_In in Il. rewrite Il, Hh, U in Gf. simpl in Gf.
  assert (NE : fields <> []) by (intros ->; discriminate Gf).
  pose proof (visibleGroup_keeps cmds g published l fields Fl Rf NE) as Vg.
  assert (Gt : obj_get (fromEntries (filter nonempty es)) g =
               Some (VObj (obj_set "fields" (VObj fields) (obj_spread [] published))))
    by (apply (visible_groups_lookup _ _ _ _ _ Hes NDg); eauto).
  apply obj_get_In in Gt. apply obj_get_In in Gf.
  assert (Bad : nullish VUndef = false).
  { eapply (filed_groups_are_values _ _ _ "undefined" VUndef _ _ Hm Gt).
    simpl. unfold obj_at. rewrite obj_get_set_eq. exact Gf. }
  discriminate Bad.
Qed.

Lemma listed_undefined_breaks_resolution_witness :
  getVisible allowAll listsUndefined editor = Throw TypeError.
Proof.
  apply (listed_undefined_breaks_resolution allowAll listsUndefined editor "g"
           (VObj [ ("label", VStr "General");
                   ("fields", VArr [ VStr "a"; VStr "undefined" ]) ])
           [ VStr "a"; VStr "undefined" ] "b" validCommand).
  - repeat constructor. simpl. tauto.
  - simpl. auto.
  - reflexivity.
  - simpl. auto.
  - simpl. intros [H|[H|[]]]; discriminate H.
  - simpl. auto.
  - reflexivity.
Defined.

(** ** The module's own declaration *)

(** X14: Whatever the module is called, what it declares itself passes both
    validators, is published, and is resolved for every request: the
    command asks for no permission and names no modal. *)
Theorem own_declaration_is_published_and_visible entry metaName s can req :
  fst (composeCommands [ commandMenuModule entry metaName ] s) = Published /\
  exists out,
    getVisible can (snd (composeCommands [ commandMenuModule entry metaName ] s)) req
    = Ok out /\
    group_entry out.(v_groups) "@apostrophecms/command-menu:general"
      (metaName ++ ":show-shortcut-list") = Some showShortcutList /\
    modal_entry out.(v_modals) "null" "@apostrophecms/command-menu:general"
      (metaName ++ ":show-shortcut-list") = Some showShortcutList.
Proof.
  unfold commandMenuModule, ownCommands.
  generalize (metaName ++ ":show-shortcut-list") as k. intros k.
  assert (P : composeCommands
                [ mkModule [ entry ]
                    [ (entry,
                       Factory (Ok (VObj
                         [ ("add", VObj [ (k, showShortcutList) ]);
                           ("group",
                            VObj [ ("@apostrophecms/command-menu:general",
                                    VObj [ ("label", VStr "apostrophe:commandMenuGeneral");
                                           ("fields", VArr [ VStr k ]) ]) ]) ]))) ] ] s
              = (Published,
                 mkSelf
                   [ VObj [ ("add", VObj [ (k, showShortcutList) ]);
                            ("group",
                             VObj [ ("@apostrophecms/command-menu:general",
                                     VObj [ ("label", VStr "apostrophe:commandMenuGeneral");
                                            ("fields", VArr [ VStr k ]) ]) ]) ] ]
                   []
                   [ (k, showShortcutList) ]
                   [ ("@apostrophecms/command-menu:general",
                      VObj [ ("label", VStr "apostrophe:commandMenuGeneral");
                             ("fields", VArr [ VStr k ]) ]) ]
                   VUndef s.(components_the))).
  { unfold composeCommands, collect, composeCommandsForModule, resolveEntry.
    cbn. rewrite String.eqb_refl. cbn. reflexivity. }
  rewrite P. cbn [fst snd]. split; [reflexivity|].
  unfold getVisible, visibleCommands, getVisibleGroups, getVisibleModals.
  assert (F : pickField [ (k, showShortcutList) ] [] (VStr k)
              = [ (k, showShortcutList) ]).
  { unfold pickField, keys_include, object_keys. cbn.
    rewrite String.eqb_refl. cbn. unfold obj_at. cbn.
    rewrite String.eqb_refl. reflexivity. }
  cbn. rewrite !F. cbn.
  eexists. split; [reflexivity|].
  unfold group_entry, modal_entry. cbn. rewrite !String.eqb_refl. auto.
Qed.

(** ** A contribution that throws *)

Lemma mapM_Throw_first {A B} (f : A -> result B) l x e :
  In x l -> f x = Throw e ->
  exists x' e', In x' l /\ f x' = Throw e' /\ mapM f l = Throw e'.
Proof.
  induction l as [|y l IH]; simpl; [tauto|]. intros I E.
  destruct (f y) as [b|e1] eqn:Ey; simpl.
  - destruct I as [->|I]; [congruence|].
    destruct (IH I E) as (x' & e' & I' & E' & ->). simpl. eauto 6.
  - exists y, e1. auto.
Qed.

(** X15: A chain entry whose [commands] function throws stops the handler at
    its first statement: the error of such a function leaves the handler,
    and the state is the one the handler found, [rawCommands] included. *)
Theorem throwing_contribution_leaves_state modules s aposModule entry e :
  In aposModule modules ->
  In entry aposModule.(chain) ->
  meta_get aposModule.(meta_commands) entry = Some (Factory (Throw e)) ->
  exists aposModule' entry' e',
    In aposModule' modules /\
    In entry' aposModule'.(chain) /\
    meta_get aposModule'.(meta_commands) entry' = Some (Factory (Throw e')) /\
    composeCommands modules s = (Propagated e', s).
Proof.
  intros Im Ie Me.
  assert (R : resolveEntry aposModule entry = Throw e)
    by (unfold resolveEntry; now rewrite Me).
  destruct (mapM_Throw_first _ _ _ _ Ie R) as (entry1 & e1 & I1 & R1 & M1).
  assert (C : composeCommandsForModule aposModule = Throw e1)
    by (unfold composeCommandsForModule; now rewrite M1).
  destruct (mapM_Throw_first _ _ _ _ Im C) as (m2 & e2 & I2 & C2 & M2).
  unfold composeCommandsForModule in C2.
  destruct (mapM (resolveEntry m2) (chain m2)) as [fs|e3] eqn:E3;
    [discriminate C2|].
  simpl in C2. inversion C2; subst e3; clear C2.
  assert (X : exists entry', In entry' (chain m2) /\
                             resolveEntry m2 entry' = Throw e2).
  { clear - E3. induction (chain m2) as [|y l IH]; simpl in E3; [discriminate|].
    destruct (resolveEntry m2 y) as [b|e4] eqn:Ey; simpl in E3.
    - destruct (mapM (resolveEntry m2) l) as [bs|e5]; simpl in E3;
        [discriminate|].
      inversion E3; subst. destruct (IH eq_refl) as (x & Ix & Ex).
      exists x. split; [now right | exact Ex].
    - inversion E3; subst. exists y. split; [now left | exact Ey]. }
  destruct X as (entry2 & Ie2 & Re2).
  exists m2, entry2, e2. repeat split; auto.
  - unfold resolveEntry in Re2.
    destruct (meta_get (meta_commands m2) entry2) as [[fragment|call]|];
      try discriminate Re2.
    now subst call.
  - unfold composeCommands, collect. rewrite M2. reflexivity.
Qed.

Lemma throwing_contribution_leaves_state_witness :
  exists aposModule' entry' e',
    In aposModule' [ moduleOnlyAdding; throwingModule ] /\
    In entry' aposModule'.(chain) /\
    meta_get aposModule'.(meta_commands) entry' = Some (Factory (Throw e')) /\
    composeCommands [ moduleOnlyAdding; throwingModule ] earlierState
    = (Propagated e', earlierState).
Proof.
  apply (throwing_contribution_leaves_state
           [ moduleOnlyAdding; throwingModule ] earlierState
           throwingModule "piece" TypeError).
  - simpl. auto.
  - simpl. auto.
  - reflexivity.
Defined.

(** ** Nothing empty in the views *)

Lemma visible_groups_nonempty commands gs es g group :
  mapM (visibleGroup commands) gs = Ok es ->
  In (g, group) (fromEntries (filter nonempty es)) ->
  exists fields name c,
    get_prop_opt group "fields" = VObj fields /\ obj_get fields name = Some c.
Proof.
  intros M I. apply In_fromEntries in I. destruct I as (y & Iy & P).
  apply filter_In in Iy. destruct Iy as [Iy NE].
  destruct y as [p|]; [|discriminate NE]. simpl in P. subst p.
  destruct (Forall2_In_r _ _ _ _ (mapM_Ok_Forall2 _ _ _ M) Iy) as ([k pg] & _ & V).
  unfold visibleGroup in V. inv_bind V. inv_bind V.
  match goal with
  | R : reduceFields _ _ = Ok ?f |- _ => rename f into fs, R into Rf
  end.
  destruct fs as [|[n c] fs]; simpl in V; inversion V; subst.
  exists ((n, c) :: fs), n, c. split.
  - simpl. unfold obj_at. now rewrite obj_get_set_eq.
  - simpl. now rewrite String.eqb_refl.
Qed.

Lemma fileCommand_populated key group acc name field acc' :
  modals_shaped acc ->
  populated acc ->
  fileCommand key group acc (name, field) = Ok acc' ->
  populated acc'.
Proof.
  intros Sh Pop H.
  destruct (fileCommand_entry _ _ _ _ _ _ Sh H) as [_ L].
  apply fileCommand_Ok in H. destruct H as (NN & _ & ->).
  intros m bg G. rewrite obj_get_set in G.
  destruct (String.eqb_spec (modal_key field) m) as [<-|Nm].
  - inversion G; subst bg; clear G. simpl. split.
    + exists key. unfold obj_has. now rewrite obj_get_set_eq.
    + intros g Hg. unfold obj_has in Hg. rewrite obj_get_set in Hg.
      destruct (String.eqb_spec key g) as [Eg|Ng].
      * subst g. exists name, field. rewrite L, !String.eqb_refl. reflexivity.
      * unfold obj_at in Hg.
        destruct (obj_get acc (modal_key field)) as [vm|] eqn:Gm;
          [|discriminate Hg].
        destruct (Sh _ _ Gm) as (o & -> & ND & _).
        rewrite obj_get_copy in Hg by exact ND.
        destruct (Pop _ _ Gm) as [_ B].
        destruct (B g) as (n & c & Q); [exact Hg|].
        exists n, c. rewrite L.
        destruct (String.eqb_spec key g) as [X|_]; [contradiction|].
        rewrite andb_false_r. exact Q.
  - destruct (Pop _ _ G) as [A B]. split; [exact A|].
    intros g Hg. destruct (B g Hg) as (n & c & Q).
    exists n, c. rewrite L.
    destruct (String.eqb_spec (modal_key field) m) as [X|_]; [contradiction|].
    exact Q.
Qed.

Lemma fileGroup_populated acc e acc' :
  modals_shaped acc /\ populated acc ->
  fileGroup acc e = Ok acc' ->
  modals_shaped acc' /\ populated acc'.
Proof.
  destruct e as [key group]. intros P H. unfold fileGroup in H.
  inv_bind H. inv_bind H. revert H.
  apply (foldM_invariant (fileCommand key group)
           (fun a => modals_shaped a /\ populated a)); [|exact P].
  intros a [name field] a' _ [Sh Pop] Step. split.
  - eapply fileCommand_entry; eauto.
  - eapply fileCommand_populated; eauto.
Qed.

(** X16: Nothing empty is handed out: every group of the group view holds a
    command, every modal of the modal view holds a group, and every group of
    a modal holds a command. *)
Theorem views_hold_nothing_empty can s req out :
  getVisible can s req = Ok out ->
  (forall g group,
     obj_get out.(v_groups) g = Some group ->
     exists name c, group_entry out.(v_groups) g name = Some c) /\
  (forall m byGroup,
     obj_get out.(v_modals) m = Some byGroup ->
     (exists g, obj_has (props byGroup) g = true) /\
     forall g, obj_has (props byGroup) g = true ->
               exists name c, modal_entry out.(v_modals) m g name = Some c).
Proof.
  unfold getVisible. intros H.
  inv_bind H. rename x into cmds.
  inv_bind H. rename x into gs, E0 into Hg.
  inv_bind H. rename x into ms, E0 into Hm.
  inversion H; subst out; clear H. simpl.
  unfold getVisibleGroups in Hg. inv_bind Hg. rename x into es, E0 into Hes.
  inversion Hg; subst gs; clear Hg. split.
  - intros g group G.
    destruct (visible_groups_nonempty _ _ _ _ _ Hes (obj_get_In _ _ _ G))
      as (fields & name & c & Ef & Ec).
    exists name, c. unfold group_entry, obj_at. rewrite G, Ef. exact Ec.
  - apply (getVisibleModals_fold _ _ _ _ Hes) in Hm. destruct Hm as [Hm _].
    assert (P0 : modals_shaped [] /\ populated [])
      by (split; intros ? ? G; discriminate G).
    apply (foldM_invariant fileGroup
             (fun acc => modals_shaped acc /\ populated acc)
             (fromEntries (filter nonempty es))
             (fun a x a' _ Pa Step => fileGroup_populated a x a' Pa Step)
             [] ms P0 Hm).
Qed.

Lemma views_hold_nothing_empty_witness :
  exists out,
    getVisible allowAll (twoCommands []) editor = Ok out /\
    (forall g group,
       obj_get out.(v_groups) g = Some group ->
       exists name c, group_entry out.(v_groups) g name = Some c) /\
    (forall m byGroup,
       obj_get out.(v_modals) m = Some byGroup ->
       (exists g, obj_has (props byGroup) g = true) /\
       forall g, obj_has (props byGroup) g = true ->
                 exists name c, modal_entry out.(v_modals) m g name = Some c).
Proof.
  destruct (getVisible allowAll (twoCommands []) editor) as [out|e] eqn:V;
    [|vm_compute in V; discriminate].
  exists out. split; [reflexivity|].
  apply (views_hold_nothing_empty allowAll (twoCommands []) editor out V).
Defined.
